(** * Sequential Minimal Optimization engines of [ml/svm.py]

    A shallow embedding of the two SMO engines ([SVC.SMOClassifier] and
    [SVR.SMORegression]) and of the properties stated about them.

    Numbers: the engines compute on floating point values; here every
    real quantity is an exact rational ([Q]), compared with the decidable
    orders of [QArith].  Rounding is therefore outside the model; the
    algorithmic tolerances of the source ([1e-12], [1e-8], [1e-10]) are kept
    as the rationals they denote.

    Effects: the engines are Python objects mutated in place.  A method is
    a function from the engine state to either a raised exception or a
    returned value paired with the new state. *)

From Stdlib Require Import ZArith QArith Qabs Lqa Lia String.
From stdpp Require Import base gmap list sorting.

Open Scope Q_scope.

(** ** Exceptions and the result type *)

Inductive exn : Type :=
| IndexError        (* a list or array index out of range *)
| ValueError        (* operands of different shapes *)
| AttributeError    (* an attribute that was never assigned *)
| StopIteration     (* [next] on an exhausted generator *)
| UnexpectedStatus  (* [Exception('unexpected status')] *)
| IndexNotFound.    (* [Exception('the index could not be found')] *)

(** The outcome of a call.  [OutOfFuel] belongs to the model only: it marks
    a [while] loop cut off after the number of iterations it was allowed. *)
Inductive res (A : Type) : Type :=
| Ok (a : A)
| Raise (e : exn)
| OutOfFuel.
Arguments Ok {A} a.
Arguments Raise {A} e.
Arguments OutOfFuel {A}.

Definition bind {A B : Type} (m : res A) (k : A -> res B) : res B :=
  match m with
  | Ok a => k a
  | Raise e => Raise e
  | OutOfFuel => OutOfFuel
  end.

Notation "'do' x <- m ; k" := (bind m (fun x => k))
  (at level 10, x name, m at level 100, k at level 200, only parsing).
Notation "'do' ' p <- m ; k" := (bind m (fun x => match x with p => k end))
  (at level 10, p pattern, m at level 100, k at level 200, only parsing).

(** Left fold of a fallible body over the elements visited by a [for]. *)
Fixpoint for_each {A S : Type} (xs : list A) (body : S -> A -> res S) (s : S)
  : res S :=
  match xs with
  | [] => Ok s
  | x :: xs' => do s' <- body s x ; for_each xs' body s'
  end.

(** ** Python numbers *)

Definition ltb (a b : Q) : bool :=
  match a ?= b with Lt => true | _ => false end.
Definition eqb (a b : Q) : bool := Qeq_bool a b.

(** [max(a, b)] and [min(a, b)] return their first argument on a tie. *)
Definition py_max (a b : Q) : Q := if ltb a b then b else a.
Definition py_min (a b : Q) : Q := if ltb b a then b else a.

(** Modelled from the spec: [utils.clip] is imported by [ml/svm.py] but its
    module is not part of the sources; the specification says the value is
    clipped into [[L, H]]. *)
Definition clip (x l h : Q) : Q := py_max l (py_min x h).

Definition e_12 : Q := 1 # 1000000000000.
Definition e_8 : Q := 1 # 100000000.
Definition e_10 : Q := 1 # 10000000000.

(** [sys.float_info.max], the largest finite double. *)
Definition float_max : Q := inject_Z ((2 ^ 53 - 1) * 2 ^ 971).

(** ** Indexing

    A Python index may be negative, counting from the end; outside
    [-len .. len-1] the access raises [IndexError]. *)

Definition norm_index (n : nat) (i : Z) : option nat :=
  if ((0 <=? i) && (i <? Z.of_nat n))%Z then Some (Z.to_nat i)
  else if ((- Z.of_nat n <=? i) && (i <? 0))%Z then Some (Z.to_nat (Z.of_nat n + i))
  else None.

Definition getitem {A : Type} (l : list A) (i : Z) : res A :=
  match norm_index (length l) i with
  | Some k => match l !! k with Some v => Ok v | None => Raise IndexError end
  | None => Raise IndexError
  end.

Definition setitem {A : Type} (l : list A) (i : Z) (v : A) : res (list A) :=
  match norm_index (length l) i with
  | Some k => Ok (<[k:=v]> l)
  | None => Raise IndexError
  end.

(** [K[i, j]] on a two-dimensional array. *)
Definition getitem2 (K : list (list Q)) (i j : Z) : res Q :=
  do row <- getitem K i ; getitem row j.

(** [range(n)] *)
Definition range (n : nat) : list Z := Z.of_nat <$> seq 0 n.

(** ** Vectors *)

Definition scale (c : Q) (v : list Q) : list Q := Qmult c <$> v.

Fixpoint vadd (u v : list Q) : res (list Q) :=
  match u, v with
  | [], [] => Ok []
  | a :: u', b :: v' => do r <- vadd u' v' ; Ok ((a + b) :: r)
  | _, _ => Raise ValueError
  end.

(** [u.dot(v)] *)
Fixpoint dot (u v : list Q) : res Q :=
  match u, v with
  | [], [] => Ok 0
  | a :: u', b :: v' => do r <- dot u' v' ; Ok (a * b + r)
  | _, _ => Raise ValueError
  end.

(** Elementwise [u * v] and [u - v]. *)
Fixpoint vmul (u v : list Q) : res (list Q) :=
  match u, v with
  | [], [] => Ok []
  | a :: u', b :: v' => do r <- vmul u' v' ; Ok ((a * b) :: r)
  | _, _ => Raise ValueError
  end.

Fixpoint vsub (u v : list Q) : res (list Q) :=
  match u, v with
  | [], [] => Ok []
  | a :: u', b :: v' => do r <- vsub u' v' ; Ok ((a - b) :: r)
  | _, _ => Raise ValueError
  end.

(** The weight attribute: the scalar [0.] until the first update adds an
    array to it. *)
Inductive weight : Type :=
| Scalar (q : Q)
| Vector (v : list Q).

Definition weight_add (w : weight) (d : list Q) : res weight :=
  match w with
  | Scalar q => Ok (Vector (Qplus q <$> d))
  | Vector v => do r <- vadd v d ; Ok (Vector r)
  end.

Definition weight_sub (w : weight) (d : list Q) : res weight :=
  match w with
  | Scalar q => Ok (Vector (Qminus q <$> d))
  | Vector v => do r <- vsub v d ; Ok (Vector r)
  end.

(** [0 < a < C] *)
Definition inside (C a : Q) : bool := ltb 0 a && ltb a C.

(** The running thresholds and the indices that attain them. *)
Record thresholds : Type := Thresholds {
  t_up : Q; t_up_idx : Z; t_low : Q; t_low_idx : Z }.

Definition raise_low (e : Q) (i : Z) (t : thresholds) : thresholds :=
  if ltb (t_low t) e then Thresholds (t_up t) (t_up_idx t) e i else t.
Definition lower_up (e : Q) (i : Z) (t : thresholds) : thresholds :=
  if ltb e (t_up t) then Thresholds e i (t_low t) (t_low_idx t) else t.

(** Index sets.  A [for] over a set visits its members in increasing order:
    this is the order of CPython for a set of small non-negative integers
    (each sits in the slot of its own value while it is below the size of
    the hash table, which is at least 8).  The order decides nothing but
    which of several indices with equal errors the threshold scan keeps. *)
Definition members (s : gset Z) : list Z := merge_sort Z.le (elements s).
Definition mem (i : Z) (s : gset Z) : bool := bool_decide (i ∈ s).
Definition add (i : Z) (s : gset Z) : gset Z := s ∪ {[ i ]}.
Definition discard (i : Z) (s : gset Z) : gset Z := s ∖ {[ i ]}.
Definition put (c : bool) (i : Z) (s : gset Z) : gset Z :=
  if c then add i s else discard i s.

(** * Classification: [SVC.SMOClassifier] *)

Module SVC.
Module SMOClassifier.

(** The attributes of the engine.  [f] (the objective, used only to print
    progress) and [verbose] are left out: printing does not change the
    engine.  [w] is [None] when the attribute does not exist (it is created
    only for the linear kernel). *)
Record state : Type := State {
  X : list (list Q);
  y : list Q;
  K : list (list Q);
  kernel : string;
  w : option weight;
  b : Q;
  C : Q;
  errors : list Q;
  tol : Q;
  alphas : list Q;
  I0 : gset Z;
  I1 : gset Z;
  I2 : gset Z;
  I3 : gset Z;
  I4 : gset Z;
  b_up : Q;
  b_low : Q;
  b_up_idx : Z;
  b_low_idx : Z }.

Definition set_w (s : state) (v : option weight) : state :=
  State (X s) (y s) (K s) (kernel s) v (b s) (C s) (errors s) (tol s)
        (alphas s) (I0 s) (I1 s) (I2 s) (I3 s) (I4 s)
        (b_up s) (b_low s) (b_up_idx s) (b_low_idx s).
Definition set_b (s : state) (v : Q) : state :=
  State (X s) (y s) (K s) (kernel s) (w s) v (C s) (errors s) (tol s)
        (alphas s) (I0 s) (I1 s) (I2 s) (I3 s) (I4 s)
        (b_up s) (b_low s) (b_up_idx s) (b_low_idx s).
Definition set_errors (s : state) (v : list Q) : state :=
  State (X s) (y s) (K s) (kernel s) (w s) (b s) (C s) v (tol s)
        (alphas s) (I0 s) (I1 s) (I2 s) (I3 s) (I4 s)
        (b_up s) (b_low s) (b_up_idx s) (b_low_idx s).
Definition set_alphas (s : state) (v : list Q) : state :=
  State (X s) (y s) (K s) (kernel s) (w s) (b s) (C s) (errors s) (tol s)
        v (I0 s) (I1 s) (I2 s) (I3 s) (I4 s)
        (b_up s) (b_low s) (b_up_idx s) (b_low_idx s).
Definition set_sets (s : state) (i0 i1 i2 i3 i4 : gset Z) : state :=
  State (X s) (y s) (K s) (kernel s) (w s) (b s) (C s) (errors s) (tol s)
        (alphas s) i0 i1 i2 i3 i4
        (b_up s) (b_low s) (b_up_idx s) (b_low_idx s).
Definition set_thresholds (s : state) (t : thresholds) : state :=
  State (X s) (y s) (K s) (kernel s) (w s) (b s) (C s) (errors s) (tol s)
        (alphas s) (I0 s) (I1 s) (I2 s) (I3 s) (I4 s)
        (t_up t) (t_low t) (t_up_idx t) (t_low_idx t).
Definition get_thresholds (s : state) : thresholds :=
  Thresholds (b_up s) (b_up_idx s) (b_low s) (b_low_idx s).

(** [[i for i in range(n) if y[i] == v]] *)
Definition where_eq (n : nat) (y : list Q) (v : Q) : res (list Z) :=
  for_each (range n)
    (fun acc i => do yi <- getitem y i ; Ok (if eqb yi v then acc ++ [i] else acc))
    [].

(** [next(i for i in idxs if y[i] == v)] *)
Fixpoint next_where (idxs : list Z) (y : list Q) (v : Q) : res Z :=
  match idxs with
  | [] => Raise StopIteration
  | i :: rest =>
      do yi <- getitem y i ;
      if eqb yi v then Ok i else next_where rest y v
  end.

Definition __init__ (X : list (list Q)) (y : list Q) (K : list (list Q))
    (kernel : string) (C tol : Q) : res state :=
  let n := length X in
  let alphas := replicate n 0 in
  let w := if String.eqb kernel "linear" then Some (Scalar 0) else None in
  let errors := replicate n 0 in
  do pos <- where_eq n y 1 ;
  do neg <- where_eq n y (-1) ;
  do b_up_idx <- next_where (range n) y 1 ;
  do b_low_idx <- next_where (range n) y (-1) ;
  do errors <- setitem errors b_up_idx (-1) ;
  do errors <- setitem errors b_low_idx 1 ;
  Ok (State X y K kernel w 0 C errors tol alphas
            ∅ (list_to_set pos) ∅ ∅ (list_to_set neg)
            (-1) 1 b_up_idx b_low_idx).

(** *** [_take_step]: the analytic part *)

(** The box [[L, H]] on the new [alpha2] (equations 13 and 14 of Platt). *)
Definition bounds (C alpha1 y1 alpha2 y2 : Q) : Q * Q :=
  if negb (eqb y1 y2) then
    (py_max 0 (alpha2 - alpha1), py_min C (C + alpha2 - alpha1))
  else
    (py_max 0 (alpha2 + alpha1 - C), py_min C (alpha2 + alpha1)).

Definition Lobj (y2 E1 E2 L : Q) : Q := y2 * (E1 - E2) * L.
Definition Hobj (y2 E1 E2 H : Q) : Q := y2 * (E1 - E2) * H.

Definition new_alpha2 (eta alpha2 y2 E1 E2 L H : Q) : Q :=
  if ltb 0 eta then
    clip (alpha2 + y2 * (E1 - E2) / eta) L H
  else if ltb (Hobj y2 E1 E2 H + e_12) (Lobj y2 E1 E2 L) then L
  else if ltb (Lobj y2 E1 E2 L) (Hobj y2 E1 E2 H - e_12) then H
  else alpha2.

(** [abs(a2 - alpha2) < 1e-12 * (a2 + alpha2 + 1e-12)] *)
Definition negligible (a2 alpha2 : Q) : bool :=
  ltb (Qabs (a2 - alpha2)) (e_12 * (a2 + alpha2 + e_12)).

(** The precision guard applied to a new multiplier. *)
Definition snap (C a : Q) : Q :=
  if ltb (C - e_8 * C) a then C
  else if ltb a (e_8 * C) then 0
  else a.

(** What [_take_step] has computed when it leaves its read-only part. *)
Record plan : Type := Plan {
  alpha1 : Q; y1 : Q; E1 : Q;
  alpha2 : Q; y2 : Q; E2 : Q;
  L : Q; H : Q;
  k11 : Q; k22 : Q; k12 : Q;
  eta : Q;
  a2 : Q }.

(** The statements of [_take_step] from the reads of the two examples to the
    computation of [a2]; [None] is the early [return False] on [L == H]. *)
Definition solve (s : state) (i1 i2 : Z) : res (option plan) :=
  do alpha1 <- getitem (alphas s) i1 ;
  do y1 <- getitem (y s) i1 ;
  do E1 <- getitem (errors s) i1 ;
  do alpha2 <- getitem (alphas s) i2 ;
  do y2 <- getitem (y s) i2 ;
  do E2 <- getitem (errors s) i2 ;
  let '(L, H) := bounds (C s) alpha1 y1 alpha2 y2 in
  if eqb L H then Ok None else
  do k11 <- getitem2 (K s) i1 i1 ;
  do k22 <- getitem2 (K s) i2 i2 ;
  do k12 <- getitem2 (K s) i1 i2 ;
  let eta := k11 + k22 - 2 * k12 in
  let a2 := new_alpha2 eta alpha2 y2 E1 E2 L H in
  Ok (Some (Plan alpha1 y1 E1 alpha2 y2 E2 L H k11 k22 k12 eta a2)).

(** [a1 = alpha1 + s * (alpha2 - a2)] with [s = y1 * y2] *)
Definition new_alpha1 (p : plan) : Q :=
  alpha1 p + y1 p * y2 p * (alpha2 p - a2 p).

(** *** [_take_step]: the updates *)

Definition update_weight (s : state) (i1 i2 : Z) (d1 d2 : Q) : res state :=
  if String.eqb (kernel s) "linear" then
    do x1 <- getitem (X s) i1 ;
    do x2 <- getitem (X s) i2 ;
    do d <- vadd (scale d1 x1) (scale d2 x2) ;
    match w s with
    | Some v => do v' <- weight_add v d ; Ok (set_w s (Some v'))
    | None => Raise AttributeError
    end
  else Ok s.

Definition update_errors (s : state) (i1 i2 : Z) (p : plan) (d1 d2 : Q)
  : res state :=
  do errs <- for_each (members (I0 s))
    (fun errs i =>
       if negb (i =? i1)%Z && negb (i =? i2)%Z then
         do e <- getitem errs i ;
         do k1 <- getitem2 (K s) i1 i ;
         do k2 <- getitem2 (K s) i2 i ;
         setitem errs i (e + (d1 * k1 + d2 * k2))
       else Ok errs)
    (errors s) ;
  do e1 <- getitem errs i1 ;
  do errs <- setitem errs i1 (e1 + (d1 * k11 p + d2 * k12 p)) ;
  do e2 <- getitem errs i2 ;
  do errs <- setitem errs i2 (e2 + (d1 * k12 p + d2 * k22 p)) ;
  Ok (set_errors s errs).

Definition update_alphas (s : state) (i1 i2 : Z) (a1 a2 : Q) : res state :=
  do al <- setitem (alphas s) i1 a1 ;
  do al <- setitem al i2 a2 ;
  Ok (set_alphas s al).

(** The body of [for i in (i1, i2)] that recomputes the five index sets. *)
Definition update_sets (s : state) (i : Z) : res state :=
  do a <- getitem (alphas s) i ;
  do yi <- getitem (y s) i ;
  Ok (set_sets s
        (put (inside (C s) a) i (I0 s))
        (put (eqb yi 1 && eqb a 0) i (I1 s))
        (put (eqb yi (-1) && eqb a (C s)) i (I2 s))
        (put (eqb yi 1 && eqb a (C s)) i (I3 s))
        (put (eqb yi (-1) && eqb a 0) i (I4 s))).

(** The contribution of [i1] or [i2] to the thresholds when it is not in
    [I0]. *)
Definition rescan_bound (s : state) (i : Z) (t : thresholds) : res thresholds :=
  if negb (mem i (I0 s)) then
    if mem i (I3 s) || mem i (I4 s) then
      do e <- getitem (errors s) i ; Ok (raise_low e i t)
    else
      do e <- getitem (errors s) i ; Ok (lower_up e i t)
  else Ok t.

Definition update_thresholds (s : state) (i1 i2 : Z) : res state :=
  let t0 := Thresholds float_max (-1) (- float_max) (-1) in
  do t <- for_each (members (I0 s))
    (fun t i => do e <- getitem (errors s) i ; Ok (lower_up e i (raise_low e i t)))
    t0 ;
  do t <- rescan_bound s i1 t ;
  do t <- rescan_bound s i2 t ;
  Ok (set_thresholds s t).

Definition commit (s : state) (i1 i2 : Z) (p : plan) : res (bool * state) :=
  let a1 := new_alpha1 p in
  let d1 := y1 p * (a1 - alpha1 p) in
  let d2 := y2 p * (a2 p - alpha2 p) in
  do s <- update_weight s i1 i2 d1 d2 ;
  do s <- update_errors s i1 i2 p d1 d2 ;
  do s <- update_alphas s i1 i2 (snap (C s) a1) (snap (C s) (a2 p)) ;
  do s <- update_sets s i1 ;
  do s <- update_sets s i2 ;
  do s <- update_thresholds s i1 i2 ;
  if (b_low_idx s =? -1)%Z || (b_up_idx s =? -1)%Z then Raise UnexpectedStatus
  else Ok (true, s).

Definition _take_step (s : state) (i1 i2 : Z) : res (bool * state) :=
  if (i1 =? i2)%Z then Ok (false, s) else
  do r <- solve s i1 i2 ;
  match r with
  | None => Ok (false, s)
  | Some p =>
      if negligible (a2 p) (alpha2 p) then Ok (false, s)
      else commit s i1 i2 p
  end.

(** *** [_examine_example] *)

(** The error of [i2]: read from the cache for an index of [I0], otherwise
    recomputed, stored, and used to tighten one threshold. *)
Definition error_of (s : state) (i2 : Z) : res (Q * state) :=
  if mem i2 (I0 s) then
    do e <- getitem (errors s) i2 ; Ok (e, s)
  else
    do ay <- vmul (alphas s) (y s) ;
    do row <- getitem (K s) i2 ;
    do d <- dot ay row ;
    do y2 <- getitem (y s) i2 ;
    let E2 := d - y2 in
    do errs <- setitem (errors s) i2 E2 ;
    let s := set_errors s errs in
    if (mem i2 (I1 s) || mem i2 (I2 s)) && ltb E2 (b_up s) then
      Ok (E2, set_thresholds s (Thresholds E2 i2 (b_low s) (b_low_idx s)))
    else if (mem i2 (I3 s) || mem i2 (I4 s)) && ltb (b_low s) E2 then
      Ok (E2, set_thresholds s (Thresholds (b_up s) (b_up_idx s) E2 i2))
    else Ok (E2, s).

(** The optimality test: the flag [optimal] and the candidate [i1]. *)
Definition check_optimality (s : state) (i2 : Z) (E2 : Q) : bool * Z :=
  let r := (true, (-1)%Z) in
  let r :=
    if mem i2 (I0 s) || mem i2 (I1 s) || mem i2 (I2 s) then
      if ltb (2 * tol s) (b_low s - E2) then (false, b_low_idx s) else r
    else r in
  if mem i2 (I0 s) || mem i2 (I3 s) || mem i2 (I4 s) then
    if ltb (2 * tol s) (E2 - b_up s) then (false, b_up_idx s) else r
  else r.

Definition _examine_example (s : state) (i2 : Z) : res (bool * state) :=
  do '(E2, s) <- error_of s i2 ;
  let '(optimal, i1) := check_optimality s i2 E2 in
  if optimal then Ok (false, s) else
  let i1 :=
    if mem i2 (I0 s) then
      if ltb (E2 - b_up s) (b_low s - E2) then b_low_idx s else b_up_idx s
    else i1 in
  if (i1 =? -1)%Z then Raise IndexNotFound
  else _take_step s i1 i2.

(** *** [smo] *)

(** [for i in range(len(self.X)): num_changed += self._examine_example(i)] *)
Definition sweep_all (s : state) (num_changed : nat) : res (nat * state) :=
  for_each (range (length (X s)))
    (fun '(n, s) i =>
       do '(r, s) <- _examine_example s i ;
       Ok ((n + Nat.b2n r)%nat, s))
    (num_changed, s).

(** The sweep over the examples whose multiplier is strictly inside the
    box; it stops, with the count reset, once [b_up > b_low - 2 * tol]. *)
Fixpoint sweep_active (idxs : list Z) (s : state) (num_changed : nat)
  : res (nat * state) :=
  match idxs with
  | [] => Ok (num_changed, s)
  | i :: rest =>
      do a <- getitem (alphas s) i ;
      if inside (C s) a then
        do '(r, s) <- _examine_example s i ;
        let num_changed := (num_changed + Nat.b2n r)%nat in
        if ltb (b_low s - 2 * tol s) (b_up s) then Ok (0%nat, s)
        else sweep_active rest s num_changed
      else sweep_active rest s num_changed
  end.

(** The variables of the [while] loop of [smo]. *)
Record driver : Type := Driver {
  engine : state;
  num_changed : nat;
  examine_all : bool }.

Definition start (s : state) : driver := Driver s 0 true.

(** The loop guard [num_changed > 0 or examine_all]. *)
Definition running (d : driver) : bool :=
  (0 <? num_changed d)%nat || examine_all d.

(** One iteration of the body of the [while] loop. *)
Definition iteration (d : driver) : res driver :=
  do '(n, s) <-
    (if examine_all d then sweep_all (engine d) 0
     else sweep_active (range (length (X (engine d)))) (engine d) 0) ;
  let ea :=
    if examine_all d then false
    else if (n =? 0)%nat then true
    else examine_all d in
  Ok (Driver s n ea).

(** The [while] loop, allowed [fuel] iterations. *)
Fixpoint loop (fuel : nat) (d : driver) : res driver :=
  if running d then
    match fuel with
    | O => OutOfFuel
    | S fuel' => do d' <- iteration d ; loop fuel' d'
    end
  else Ok d.

Definition smo (fuel : nat) (s : state) : res state :=
  do d <- loop fuel (start s) ;
  let s := engine d in
  Ok (set_b s (- (b_low s + b_up s) / 2)).

End SMOClassifier.
End SVC.

(** * Regression: [SVR.SMORegression] *)

Module SVR.
Module SMORegression.

Record state : Type := State {
  X : list (list Q);
  y : list Q;
  K : list (list Q);
  kernel : string;
  w : option weight;
  b : Q;
  C : Q;
  errors : list Q;
  tol : Q;
  alphas_p : list Q;
  alphas_n : list Q;
  epsilon : Q;
  I0 : gset Z;
  I1 : gset Z;
  I2 : gset Z;
  I3 : gset Z;
  b_up : Q;
  b_low : Q;
  b_up_idx : Z;
  b_low_idx : Z }.

Definition set_w (s : state) (v : option weight) : state :=
  State (X s) (y s) (K s) (kernel s) v (b s) (C s) (errors s) (tol s)
        (alphas_p s) (alphas_n s) (epsilon s) (I0 s) (I1 s) (I2 s) (I3 s)
        (b_up s) (b_low s) (b_up_idx s) (b_low_idx s).
Definition set_b (s : state) (v : Q) : state :=
  State (X s) (y s) (K s) (kernel s) (w s) v (C s) (errors s) (tol s)
        (alphas_p s) (alphas_n s) (epsilon s) (I0 s) (I1 s) (I2 s) (I3 s)
        (b_up s) (b_low s) (b_up_idx s) (b_low_idx s).
Definition set_errors (s : state) (v : list Q) : state :=
  State (X s) (y s) (K s) (kernel s) (w s) (b s) (C s) v (tol s)
        (alphas_p s) (alphas_n s) (epsilon s) (I0 s) (I1 s) (I2 s) (I3 s)
        (b_up s) (b_low s) (b_up_idx s) (b_low_idx s).
Definition set_alphas (s : state) (p n : list Q) : state :=
  State (X s) (y s) (K s) (kernel s) (w s) (b s) (C s) (errors s) (tol s)
        p n (epsilon s) (I0 s) (I1 s) (I2 s) (I3 s)
        (b_up s) (b_low s) (b_up_idx s) (b_low_idx s).
Definition set_sets (s : state) (i0 i1 i2 i3 : gset Z) : state :=
  State (X s) (y s) (K s) (kernel s) (w s) (b s) (C s) (errors s) (tol s)
        (alphas_p s) (alphas_n s) (epsilon s) i0 i1 i2 i3
        (b_up s) (b_low s) (b_up_idx s) (b_low_idx s).
Definition set_thresholds (s : state) (t : thresholds) : state :=
  State (X s) (y s) (K s) (kernel s) (w s) (b s) (C s) (errors s) (tol s)
        (alphas_p s) (alphas_n s) (epsilon s) (I0 s) (I1 s) (I2 s) (I3 s)
        (t_up t) (t_low t) (t_up_idx t) (t_low_idx t).
Definition get_thresholds (s : state) : thresholds :=
  Thresholds (b_up s) (b_up_idx s) (b_low s) (b_low_idx s).

Definition __init__ (X : list (list Q)) (y : list Q) (K : list (list Q))
    (kernel : string) (C epsilon tol : Q) : res state :=
  let n := length X in
  let w := if String.eqb kernel "linear" then Some (Scalar 0) else None in
  do y0 <- getitem y 0 ;
  Ok (State X y K kernel w 0 C (replicate n 0) tol
            (replicate n 0) (replicate n 0) epsilon
            ∅ (list_to_set (range n)) ∅ ∅
            (y0 + epsilon) (y0 - epsilon) 0 0).

(** *** [_take_step]: the loop over the four cases *)

(** The local variables of [_take_step] that the [while] loop changes. *)
Record cases : Type := Cases {
  alpha1_p : Q; alpha1_n : Q;
  alpha2_p : Q; alpha2_n : Q;
  case1 : bool; case2 : bool; case3 : bool; case4 : bool;
  changed : bool; finished : bool;
  delta_E : Q }.

(** The values the loop only reads: [C], [epsilon], the clamped [eta],
    [gamma] and [self.alphas_p[i2] - self.alphas_n[i2]]. *)
Record frame : Type := Frame {
  f_C : Q; f_epsilon : Q; f_eta : Q; f_gamma : Q; f_old2 : Q }.

Definition guard1 (f : frame) (c : cases) : bool :=
  negb (case1 c)
  && (ltb 0 (alpha1_p c) || (eqb (alpha1_n c) 0 && ltb 0 (delta_E c)))
  && (ltb 0 (alpha2_p c) || (eqb (alpha2_n c) 0 && ltb (delta_E c) 0)).
Definition guard2 (f : frame) (c : cases) : bool :=
  negb (case2 c)
  && (ltb 0 (alpha1_p c)
      || (eqb (alpha1_n c) 0 && ltb (2 * f_epsilon f) (delta_E c)))
  && (ltb 0 (alpha2_n c)
      || (eqb (alpha2_p c) 0 && ltb (2 * f_epsilon f) (delta_E c))).
Definition guard3 (f : frame) (c : cases) : bool :=
  negb (case3 c)
  && (ltb 0 (alpha1_n c)
      || (eqb (alpha1_p c) 0 && ltb (delta_E c) (-2 * f_epsilon f)))
  && (ltb 0 (alpha2_p c)
      || (eqb (alpha2_n c) 0 && ltb (delta_E c) (-2 * f_epsilon f))).
Definition guard4 (f : frame) (c : cases) : bool :=
  negb (case4 c)
  && (ltb 0 (alpha1_n c) || (eqb (alpha1_p c) 0 && ltb (delta_E c) 0))
  && (ltb 0 (alpha2_n c) || (eqb (alpha2_p c) 0 && ltb 0 (delta_E c))).

(** The new second multiplier: the clipped closed form when [eta > 0],
    otherwise the endpoint with the larger objective. *)
Definition pick (eta x L H Lobj Hobj : Q) : Q :=
  if ltb 0 eta then clip x L H
  else if ltb Hobj Lobj then L else H.

(** [abs(a1 - old1) > 1e-12 or abs(a2 - old2) > 1e-12] *)
Definition moved (a1 old1 a2 old2 : Q) : bool :=
  ltb e_12 (Qabs (a1 - old1)) || ltb e_12 (Qabs (a2 - old2)).

Definition do_case1 (f : frame) (c : cases) : cases :=
  let L := py_max 0 (f_gamma f - f_C f) in
  let H := py_min (f_C f) (f_gamma f) in
  if ltb L H then
    let a2 := pick (f_eta f) (alpha2_p c - delta_E c / f_eta f) L H
                   (- L * delta_E c) (- H * delta_E c) in
    let a1 := alpha1_p c - (a2 - alpha2_p c) in
    if moved a1 (alpha1_p c) a2 (alpha2_p c) then
      Cases a1 (alpha1_n c) a2 (alpha2_n c)
            true (case2 c) (case3 c) (case4 c) true (finished c) (delta_E c)
    else
      Cases (alpha1_p c) (alpha1_n c) (alpha2_p c) (alpha2_n c)
            true (case2 c) (case3 c) (case4 c) (changed c) (finished c) (delta_E c)
  else
    Cases (alpha1_p c) (alpha1_n c) (alpha2_p c) (alpha2_n c)
          true (case2 c) (case3 c) (case4 c) (changed c) true (delta_E c).

Definition do_case2 (f : frame) (c : cases) : cases :=
  let L := py_max 0 (- f_gamma f) in
  let H := py_min (f_C f) (- f_gamma f + f_C f) in
  if ltb L H then
    let a2 := pick (f_eta f)
                   (alpha2_n c + (delta_E c - 2 * f_epsilon f) / f_eta f) L H
                   (L * (-2 * f_epsilon f + delta_E c))
                   (H * (-2 * f_epsilon f + delta_E c)) in
    let a1 := alpha1_p c + (a2 - alpha2_n c) in
    if moved a1 (alpha1_p c) a2 (alpha2_n c) then
      Cases a1 (alpha1_n c) (alpha2_p c) a2
            (case1 c) true (case3 c) (case4 c) true (finished c) (delta_E c)
    else
      Cases (alpha1_p c) (alpha1_n c) (alpha2_p c) (alpha2_n c)
            (case1 c) true (case3 c) (case4 c) (changed c) (finished c) (delta_E c)
  else
    Cases (alpha1_p c) (alpha1_n c) (alpha2_p c) (alpha2_n c)
          (case1 c) true (case3 c) (case4 c) (changed c) true (delta_E c).

Definition do_case3 (f : frame) (c : cases) : cases :=
  let L := py_max 0 (f_gamma f) in
  let H := py_min (f_C f) (f_C f + f_gamma f) in
  if ltb L H then
    let a2 := pick (f_eta f)
                   (alpha2_p c - (delta_E c + 2 * f_epsilon f) / f_eta f) L H
                   (- L * (2 * f_epsilon f + delta_E c))
                   (- H * (2 * f_epsilon f + delta_E c)) in
    let a1 := alpha1_n c + (a2 - alpha2_p c) in
    if moved a1 (alpha1_n c) a2 (alpha2_p c) then
      Cases (alpha1_p c) a1 a2 (alpha2_n c)
            (case1 c) (case2 c) true (case4 c) true (finished c) (delta_E c)
    else
      Cases (alpha1_p c) (alpha1_n c) (alpha2_p c) (alpha2_n c)
            (case1 c) (case2 c) true (case4 c) (changed c) (finished c) (delta_E c)
  else
    Cases (alpha1_p c) (alpha1_n c) (alpha2_p c) (alpha2_n c)
          (case1 c) (case2 c) true (case4 c) (changed c) true (delta_E c).

Definition do_case4 (f : frame) (c : cases) : cases :=
  let L := py_max 0 (- f_gamma f - f_C f) in
  let H := py_min (f_C f) (- f_gamma f) in
  if ltb L H then
    let a2 := pick (f_eta f) (alpha2_n c + delta_E c / f_eta f) L H
                   (L * delta_E c) (H * delta_E c) in
    let a1 := alpha1_n c - (a2 - alpha2_n c) in
    if moved a1 (alpha1_n c) a2 (alpha2_n c) then
      Cases (alpha1_p c) a1 (alpha2_p c) a2
            (case1 c) (case2 c) (case3 c) true true (finished c) (delta_E c)
    else
      Cases (alpha1_p c) (alpha1_n c) (alpha2_p c) (alpha2_n c)
            (case1 c) (case2 c) (case3 c) true (changed c) (finished c) (delta_E c)
  else
    Cases (alpha1_p c) (alpha1_n c) (alpha2_p c) (alpha2_n c)
          (case1 c) (case2 c) (case3 c) true (changed c) true (delta_E c).

(** The [if]/[elif] chain of the loop body. *)
Definition branch (f : frame) (c : cases) : cases :=
  if guard1 f c then do_case1 f c
  else if guard2 f c then do_case2 f c
  else if guard3 f c then do_case3 f c
  else if guard4 f c then do_case4 f c
  else
    Cases (alpha1_p c) (alpha1_n c) (alpha2_p c) (alpha2_n c)
          (case1 c) (case2 c) (case3 c) (case4 c) (changed c) true (delta_E c).

(** One iteration: the chain, then the shift of [delta_E]. *)
Definition case_step (f : frame) (c : cases) : cases :=
  let c := branch f c in
  Cases (alpha1_p c) (alpha1_n c) (alpha2_p c) (alpha2_n c)
        (case1 c) (case2 c) (case3 c) (case4 c) (changed c) (finished c)
        (delta_E c + f_eta f * ((alpha2_p c - alpha2_n c) - f_old2 f)).

(** [while not finished], allowed [fuel] iterations. *)
Fixpoint case_loop (fuel : nat) (f : frame) (c : cases) : res cases :=
  if finished c then Ok c
  else match fuel with
       | O => OutOfFuel
       | S fuel' => case_loop fuel' f (case_step f c)
       end.

(** The number of iterations [_take_step] allows its loop in this model:
    four flags to set and one last pass. *)
Definition case_fuel : nat := 5.

(** The precision guard applied to a new multiplier. *)
Definition snap (C a : Q) : Q :=
  if ltb (C - e_10 * C) a then C
  else if negb (ltb (e_10 * C) a) then 0
  else a.

(** What [_take_step] has computed when the loop is over. *)
Record plan : Type := Plan {
  old1 : Q;  (* [self.alphas_p[i1] - self.alphas_n[i1]] *)
  old2 : Q;  (* [self.alphas_p[i2] - self.alphas_n[i2]] *)
  k11 : Q; k22 : Q; k12 : Q;
  final : cases }.

(** The statements of [_take_step] from the reads of the two examples to
    the end of the loop. *)
Definition solve (s : state) (i1 i2 : Z) : res plan :=
  do alpha1_p <- getitem (alphas_p s) i1 ;
  do alpha1_n <- getitem (alphas_n s) i1 ;
  do E1 <- getitem (errors s) i1 ;
  do alpha2_p <- getitem (alphas_p s) i2 ;
  do alpha2_n <- getitem (alphas_n s) i2 ;
  do E2 <- getitem (errors s) i2 ;
  do k11 <- getitem2 (K s) i1 i1 ;
  do k22 <- getitem2 (K s) i2 i2 ;
  do k12 <- getitem2 (K s) i1 i2 ;
  let eta := k11 + k22 - 2 * k12 in
  let eta := if ltb eta 0 then 0 else eta in
  let gamma := alpha1_p - alpha1_n + alpha2_p - alpha2_n in
  let f := Frame (C s) (epsilon s) eta gamma (alpha2_p - alpha2_n) in
  let c := Cases alpha1_p alpha1_n alpha2_p alpha2_n
                 false false false false false false (E1 - E2) in
  do c <- case_loop case_fuel f c ;
  Ok (Plan (alpha1_p - alpha1_n) (alpha2_p - alpha2_n) k11 k22 k12 c).

(** *** [_take_step]: the updates *)

Definition update_weight (s : state) (i1 i2 : Z) (d1 d2 : Q) : res state :=
  if String.eqb (kernel s) "linear" then
    do x1 <- getitem (X s) i1 ;
    do x2 <- getitem (X s) i2 ;
    do d <- vadd (scale d1 x1) (scale d2 x2) ;
    match w s with
    | Some v => do v' <- weight_sub v d ; Ok (set_w s (Some v'))
    | None => Raise AttributeError
    end
  else Ok s.

Definition update_errors (s : state) (i1 i2 : Z) (p : plan) (d1 d2 : Q)
  : res state :=
  do errs <- for_each (members (I0 s))
    (fun errs i =>
       if negb (i =? i1)%Z && negb (i =? i2)%Z then
         do e <- getitem errs i ;
         do k1 <- getitem2 (K s) i1 i ;
         do k2 <- getitem2 (K s) i2 i ;
         setitem errs i (e + (d1 * k1 + d2 * k2))
       else Ok errs)
    (errors s) ;
  do e1 <- getitem errs i1 ;
  do errs <- setitem errs i1 (e1 + (d1 * k11 p + d2 * k12 p)) ;
  do e2 <- getitem errs i2 ;
  do errs <- setitem errs i2 (e2 + (d1 * k12 p + d2 * k22 p)) ;
  Ok (set_errors s errs).

Definition update_alphas (s : state) (i1 i2 : Z) (a1p a1n a2p a2n : Q)
  : res state :=
  do ap <- setitem (alphas_p s) i1 a1p ;
  do ap <- setitem ap i2 a2p ;
  do an <- setitem (alphas_n s) i1 a1n ;
  do an <- setitem an i2 a2n ;
  Ok (set_alphas s ap an).

(** [0 < self.alphas_p[i] < self.C or 0 < self.alphas_n[i] < self.C] *)
Definition is_free (s : state) (i : Z) : res bool :=
  do ap <- getitem (alphas_p s) i ;
  if inside (C s) ap then Ok true
  else do an <- getitem (alphas_n s) i ; Ok (inside (C s) an).

(** [self.alphas_p[i] == u and self.alphas_n[i] == v] *)
Definition is_at (s : state) (i : Z) (u v : Q) : res bool :=
  do ap <- getitem (alphas_p s) i ;
  if eqb ap u then do an <- getitem (alphas_n s) i ; Ok (eqb an v)
  else Ok false.

(** The body of [for i in (i1, i2)] that recomputes the four index sets. *)
Definition update_sets (s : state) (i : Z) : res state :=
  do c0 <- is_free s i ;
  do c1 <- is_at s i 0 0 ;
  do c2 <- is_at s i 0 (C s) ;
  do c3 <- is_at s i (C s) 0 ;
  Ok (set_sets s (put c0 i (I0 s)) (put c1 i (I1 s))
                 (put c2 i (I2 s)) (put c3 i (I3 s))).

(** The [if]/[elif] pair of the scan of [I0] that raises [b_low]. *)
Definition scan_low (s : state) (i : Z) (t : thresholds) : res thresholds :=
  let other :=
    do an <- getitem (alphas_n s) i ;
    if inside (C s) an then
      do e <- getitem (errors s) i ; Ok (raise_low (e + epsilon s) i t)
    else Ok t in
  do ap <- getitem (alphas_p s) i ;
  if inside (C s) ap then
    do e <- getitem (errors s) i ;
    if ltb (t_low t) (e - epsilon s) then Ok (raise_low (e - epsilon s) i t)
    else other
  else other.

(** The [if]/[elif] pair of the scan of [I0] that lowers [b_up]. *)
Definition scan_up (s : state) (i : Z) (t : thresholds) : res thresholds :=
  let other :=
    do an <- getitem (alphas_n s) i ;
    if inside (C s) an then
      do e <- getitem (errors s) i ; Ok (lower_up (e + epsilon s) i t)
    else Ok t in
  do ap <- getitem (alphas_p s) i ;
  if inside (C s) ap then
    do e <- getitem (errors s) i ;
    if ltb (e - epsilon s) (t_up t) then Ok (lower_up (e - epsilon s) i t)
    else other
  else other.

(** The contribution of [i1] or [i2] to the thresholds when it is not in
    [I0]. *)
Definition rescan_bound (s : state) (i : Z) (t : thresholds) : res thresholds :=
  if negb (mem i (I0 s)) then
    let low_other (t : thresholds) :=
      if mem i (I1 s) then
        do e <- getitem (errors s) i ; Ok (raise_low (e - epsilon s) i t)
      else Ok t in
    let up_other (t : thresholds) :=
      if mem i (I1 s) then
        do e <- getitem (errors s) i ; Ok (lower_up (e + epsilon s) i t)
      else Ok t in
    do t <-
      (if mem i (I2 s) then
         do e <- getitem (errors s) i ;
         if ltb (t_low t) (e + epsilon s) then Ok (raise_low (e + epsilon s) i t)
         else low_other t
       else low_other t) ;
    if mem i (I3 s) then
      do e <- getitem (errors s) i ;
      if ltb (e - epsilon s) (t_up t) then Ok (lower_up (e - epsilon s) i t)
      else up_other t
    else up_other t
  else Ok t.

Definition update_thresholds (s : state) (i1 i2 : Z) : res state :=
  let t0 := Thresholds float_max (-1) (- float_max) (-1) in
  do t <- for_each (members (I0 s))
    (fun t i => do t <- scan_low s i t ; scan_up s i t)
    t0 ;
  do t <- rescan_bound s i1 t ;
  do t <- rescan_bound s i2 t ;
  Ok (set_thresholds s t).

Definition commit (s : state) (i1 i2 : Z) (p : plan) : res (bool * state) :=
  let c := final p in
  let d1 := old1 p - (alpha1_p c - alpha1_n c) in
  let d2 := old2 p - (alpha2_p c - alpha2_n c) in
  do s <- update_weight s i1 i2 d1 d2 ;
  do s <- update_errors s i1 i2 p d1 d2 ;
  do s <- update_alphas s i1 i2
            (snap (C s) (alpha1_p c)) (snap (C s) (alpha1_n c))
            (snap (C s) (alpha2_p c)) (snap (C s) (alpha2_n c)) ;
  do s <- update_sets s i1 ;
  do s <- update_sets s i2 ;
  do s <- update_thresholds s i1 i2 ;
  if (b_low_idx s =? -1)%Z || (b_up_idx s =? -1)%Z then Raise UnexpectedStatus
  else Ok (true, s).

Definition _take_step (s : state) (i1 i2 : Z) : res (bool * state) :=
  if (i1 =? i2)%Z then Ok (false, s) else
  do p <- solve s i1 i2 ;
  if negb (changed (final p)) then Ok (false, s)
  else commit s i1 i2 p.

(** *** [_examine_example] *)

(** The error of [i2]: read from the cache for an index of [I0], otherwise
    recomputed, stored, and used to tighten one threshold. *)
Definition error_of (s : state) (i2 : Z) : res (Q * state) :=
  if mem i2 (I0 s) then
    do e <- getitem (errors s) i2 ; Ok (e, s)
  else
    do y2 <- getitem (y s) i2 ;
    do beta <- vsub (alphas_p s) (alphas_n s) ;
    do row <- getitem (K s) i2 ;
    do d <- dot beta row ;
    let E2 := y2 - d in
    do errs <- setitem (errors s) i2 E2 ;
    let s := set_errors s errs in
    if mem i2 (I1 s) then
      if ltb (E2 + epsilon s) (b_up s) then
        Ok (E2, set_thresholds s
                  (Thresholds (E2 + epsilon s) i2 (b_low s) (b_low_idx s)))
      else if ltb (b_low s) (E2 - epsilon s) then
        Ok (E2, set_thresholds s
                  (Thresholds (b_up s) (b_up_idx s) (E2 - epsilon s) i2))
      else Ok (E2, s)
    else if mem i2 (I2 s) && ltb (b_low s) (E2 + epsilon s) then
      Ok (E2, set_thresholds s
                (Thresholds (b_up s) (b_up_idx s) (E2 + epsilon s) i2))
    else if mem i2 (I3 s) && ltb (E2 - epsilon s) (b_up s) then
      Ok (E2, set_thresholds s
                (Thresholds (E2 - epsilon s) i2 (b_low s) (b_low_idx s)))
    else Ok (E2, s).

(** The two-sided test against the thresholds: [Fl] is compared with
    [b_low] and, failing that, [Fu] with [b_up]. *)
Definition two_sided (s : state) (Fl Fu : Q) : bool * Z :=
  if ltb (2 * tol s) (b_low s - Fl) then
    (false, if ltb (b_low s - Fl) (Fl - b_up s) then b_up_idx s else b_low_idx s)
  else if ltb (2 * tol s) (Fu - b_up s) then
    (false, if ltb (Fu - b_up s) (b_low s - Fu) then b_low_idx s else b_up_idx s)
  else (true, (-1)%Z).

(** The optimality test: the flag [optimal] and the candidate [i1]. *)
Definition check_optimality (s : state) (i2 : Z) (alpha2_p alpha2_n E2 : Q)
  : res (bool * Z) :=
  if mem i2 (I0 s) then
    if inside (C s) alpha2_p then
      Ok (two_sided s (E2 - epsilon s) (E2 - epsilon s))
    else if inside (C s) alpha2_n then
      Ok (two_sided s (E2 + epsilon s) (E2 + epsilon s))
    else Ok (true, (-1)%Z)
  else if mem i2 (I1 s) then
    Ok (two_sided s (E2 + epsilon s) (E2 - epsilon s))
  else if mem i2 (I2 s) then
    if ltb (2 * tol s) ((E2 + epsilon s) - b_up s) then Ok (false, b_up_idx s)
    else Ok (true, (-1)%Z)
  else if mem i2 (I3 s) then
    if ltb (2 * tol s) (b_low s - (E2 - epsilon s)) then Ok (false, b_low_idx s)
    else Ok (true, (-1)%Z)
  else Raise IndexNotFound.

Definition _examine_example (s : state) (i2 : Z) : res (bool * state) :=
  do alpha2_p <- getitem (alphas_p s) i2 ;
  do alpha2_n <- getitem (alphas_n s) i2 ;
  do '(E2, s) <- error_of s i2 ;
  do '(optimal, i1) <- check_optimality s i2 alpha2_p alpha2_n E2 ;
  if optimal then Ok (false, s)
  else _take_step s i1 i2.

(** *** [smo] *)

Definition sweep_all (s : state) (num_changed : nat) : res (nat * state) :=
  for_each (range (length (X s)))
    (fun '(n, s) i =>
       do '(r, s) <- _examine_example s i ;
       Ok ((n + Nat.b2n r)%nat, s))
    (num_changed, s).

Fixpoint sweep_active (idxs : list Z) (s : state) (num_changed : nat)
  : res (nat * state) :=
  match idxs with
  | [] => Ok (num_changed, s)
  | i :: rest =>
      do free <- is_free s i ;
      if free then
        do '(r, s) <- _examine_example s i ;
        let num_changed := (num_changed + Nat.b2n r)%nat in
        if ltb (b_low s - 2 * tol s) (b_up s) then Ok (0%nat, s)
        else sweep_active rest s num_changed
      else sweep_active rest s num_changed
  end.

Record driver : Type := Driver {
  engine : state;
  num_changed : nat;
  examine_all : bool }.

Definition start (s : state) : driver := Driver s 0 true.

Definition running (d : driver) : bool :=
  (0 <? num_changed d)%nat || examine_all d.

Definition iteration (d : driver) : res driver :=
  do '(n, s) <-
    (if examine_all d then sweep_all (engine d) 0
     else sweep_active (range (length (X (engine d)))) (engine d) 0) ;
  let ea :=
    if examine_all d then false
    else if (n =? 0)%nat then true
    else examine_all d in
  Ok (Driver s n ea).

Fixpoint loop (fuel : nat) (d : driver) : res driver :=
  if running d then
    match fuel with
    | O => OutOfFuel
    | S fuel' => do d' <- iteration d ; loop fuel' d'
    end
  else Ok d.

Definition smo (fuel : nat) (s : state) : res state :=
  do d <- loop fuel (start s) ;
  let s := engine d in
  Ok (set_b s ((b_low s + b_up s) / 2)).

End SMORegression.
End SVR.

(** * Sample training sets *)

Module Samples.

(** Two clusters on the diagonal, separable by a line; linear kernel. *)
Definition svc_X : list (list Q) := [[1; 1]; [2; 2]; [-1; -1]; [-2; -2]].
Definition svc_y : list Q := [1; 1; -1; -1].
Definition svc_K : list (list Q) :=
  [[2; 4; -2; -4]; [4; 8; -4; -8]; [-2; -4; 2; 4]; [-4; -8; 4; 8]].
Definition svc_init : res SVC.SMOClassifier.state :=
  SVC.SMOClassifier.__init__ svc_X svc_y svc_K "linear" 1 (1 # 1000).
Definition svc_trained : res SVC.SMOClassifier.state :=
  do s <- svc_init ; SVC.SMOClassifier.smo 10 s.

(** Two points of the line [y = x]; linear kernel. *)
Definition svr_X : list (list Q) := [[0]; [1]].
Definition svr_y : list Q := [0; 1].
Definition svr_K : list (list Q) := [[0; 0]; [0; 1]].
Definition svr_init : res SVR.SMORegression.state :=
  SVR.SMORegression.__init__ svr_X svr_y svr_K "linear" 1 (1 # 10) (1 # 1000).
Definition svr_trained : res SVR.SMORegression.state :=
  do s <- svr_init ; SVR.SMORegression.smo 10 s.

(** Three points on the line, with targets that no line fits within the
    tube; linear kernel, [epsilon = 0.25] and a loose tolerance
    [tol = 0.25].  Every number of the run up to [svr3_swept] is a dyadic
    fraction. *)
Definition svr3_X : list (list Q) := [[1]; [-1]; [2]].
Definition svr3_y : list Q := [2; -1; 1].
Definition svr3_K : list (list Q) := [[1; -1; 2]; [-1; 1; -2]; [2; -2; 4]].
Definition svr3_init : res SVR.SMORegression.state :=
  SVR.SMORegression.__init__ svr3_X svr3_y svr3_K "linear" 1 (1 # 4) (1 # 4).
(** The engine after the first (full) sweep of the driver. *)
Definition svr3_swept : res SVR.SMORegression.state :=
  do s <- svr3_init ;
  do d <- SVR.SMORegression.iteration (SVR.SMORegression.start s) ;
  Ok (SVR.SMORegression.engine d).

(** A hard-margin classifier ([C = 1e8]) on three points of the line, the
    third one an outlier of the class [+1]; linear kernel.  [hard_examined]
    is the engine after the first two calls of the first sweep:
    [_examine_example(0)] makes the first pair update, on the pair [(1, 0)],
    and [_examine_example(1)] finds index [1] optimal.  [hard_ready] has in
    addition the fresh error of index [2], as [_examine_example(2)] computes
    it before it calls [_take_step]. *)
Definition hard_X : list (list Q) := [[1 # 2]; [-1 # 2]; [-7 # 2]].
Definition hard_y : list Q := [1; -1; 1].
Definition hard_K : list (list Q) :=
  [[1 # 4; -1 # 4; -7 # 4]; [-1 # 4; 1 # 4; 7 # 4]; [-7 # 4; 7 # 4; 49 # 4]].
Definition hard_init : res SVC.SMOClassifier.state :=
  SVC.SMOClassifier.__init__ hard_X hard_y hard_K "linear" 100000000 (1 # 1000).
Definition hard_examined : res SVC.SMOClassifier.state :=
  do s <- hard_init ;
  do '(_, s) <- SVC.SMOClassifier._examine_example s 0 ;
  do '(_, s) <- SVC.SMOClassifier._examine_example s 1 ;
  Ok s.
Definition hard_ready : res SVC.SMOClassifier.state :=
  do s <- hard_examined ;
  do '(_, s) <- SVC.SMOClassifier.error_of s 2 ;
  Ok s.


End Samples.

(** * Vocabulary of the properties *)

Section StepTerms.
Import SVC.SMOClassifier.

(** [i] is the first position of [y] that holds the label [v]. *)
Definition first_label (y : list Q) (v : Q) (i : Z) : Prop :=
  exists (k : nat) (q : Q),
    i = Z.of_nat k /\ y !! k = Some q /\ q == v /\
    forall (j : nat) (q' : Q), (j < k)%nat -> y !! j = Some q' -> ~ q' == v.

(** No position of [y] below [n] holds the label [v]. *)
Definition label_absent (n : nat) (y : list Q) (v : Q) : Prop :=
  forall (j : nat) (q : Q), (j < n)%nat -> y !! j = Some q -> ~ q == v.

(** The values gathered in [p] are the ones [_take_step s i1 i2] reads and
    derives before it changes anything. *)
Definition plan_of (s : state) (i1 i2 : Z) (p : plan) : Prop :=
  getitem (alphas s) i1 = Ok (alpha1 p) /\
  getitem (y s) i1 = Ok (y1 p) /\
  getitem (errors s) i1 = Ok (E1 p) /\
  getitem (alphas s) i2 = Ok (alpha2 p) /\
  getitem (y s) i2 = Ok (y2 p) /\
  getitem (errors s) i2 = Ok (E2 p) /\
  bounds (C s) (alpha1 p) (y1 p) (alpha2 p) (y2 p) = (L p, H p) /\
  ~ L p == H p /\
  getitem2 (K s) i1 i1 = Ok (k11 p) /\
  getitem2 (K s) i2 i2 = Ok (k22 p) /\
  getitem2 (K s) i1 i2 = Ok (k12 p) /\
  eta p = k11 p + k22 p - 2 * k12 p /\
  a2 p = new_alpha2 (eta p) (alpha2 p) (y2 p) (E1 p) (E2 p) (L p) (H p).

End StepTerms.

Section SelectionTerms.

(** The last rule of the mode transition as it is claimed: a sweep of
    either kind that ends with a positive count is followed by a sweep of
    the same kind. *)
Definition svc_repeats_mode_after_update : Prop :=
  forall d d' : SVC.SMOClassifier.driver,
    SVC.SMOClassifier.iteration d = Ok d' ->
    (0 < SVC.SMOClassifier.num_changed d')%nat ->
    SVC.SMOClassifier.examine_all d' = SVC.SMOClassifier.examine_all d.

(** The error the regression selector compares with the thresholds for an
    index of [I0]: [E - epsilon] when the plus multiplier is strictly inside
    the box, [E + epsilon] otherwise. *)
Definition shifted_error (s : SVR.SMORegression.state) (alpha_p E : Q) : Q :=
  if inside (SVR.SMORegression.C s) alpha_p
  then E - SVR.SMORegression.epsilon s
  else E + SVR.SMORegression.epsilon s.

End SelectionTerms.

Section CaseLoopTerms.
Import SVR.SMORegression.

(** The four multipliers of the pair are in the box, at most one of each
    example is non-zero, and their signed sum is the [gamma] computed before
    the loop. *)
Definition pair_ok (f : frame) (c : cases) : Prop :=
  (0 <= alpha1_p c <= f_C f) /\ (0 <= alpha1_n c <= f_C f) /\
  (0 <= alpha2_p c <= f_C f) /\ (0 <= alpha2_n c <= f_C f) /\
  (alpha1_p c == 0 \/ alpha1_n c == 0) /\
  (alpha2_p c == 0 \/ alpha2_n c == 0) /\
  alpha1_p c - alpha1_n c + alpha2_p c - alpha2_n c == f_gamma f.

(** The flag of case [k], and whether the [if]/[elif] chain takes the
    branch of case [k]. *)
Definition flag (k : nat) (c : cases) : bool :=
  match k with
  | 1%nat => case1 c
  | 2%nat => case2 c
  | 3%nat => case3 c
  | 4%nat => case4 c
  | _ => false
  end.

Definition fires (k : nat) (f : frame) (c : cases) : bool :=
  match k with
  | 1%nat => guard1 f c
  | 2%nat => negb (guard1 f c) && guard2 f c
  | 3%nat => negb (guard1 f c) && negb (guard2 f c) && guard3 f c
  | 4%nat => negb (guard1 f c) && negb (guard2 f c) && negb (guard3 f c)
             && guard4 f c
  | _ => false
  end.

(** The number of cases that have fired. *)
Definition flags_set (c : cases) : nat :=
  (Nat.b2n (case1 c) + Nat.b2n (case2 c) + Nat.b2n (case3 c)
   + Nat.b2n (case4 c))%nat.

(** Cases 1 and 4 exclude each other: the first needs [gamma >= 0], the
    last [gamma <= 0], and with [gamma == 0] either one ends the loop. *)
Definition loop_inv (f : frame) (c : cases) : Prop :=
  pair_ok f c /\
  (case1 c = true -> case4 c = true -> False) /\
  (case1 c = true ->
   0 <= f_gamma f /\ (f_gamma f == 0 -> finished c = true)) /\
  (case4 c = true ->
   f_gamma f <= 0 /\ (f_gamma f == 0 -> finished c = true)).

(** One example: both multipliers in the box, at most one non-zero. *)
Definition reg_entry (C p n : Q) : Prop :=
  0 <= p <= C /\ 0 <= n <= C /\ (p == 0 \/ n == 0).

Definition reg_inv (s : state) : Prop :=
  0 <= C s /\ Forall2 (reg_entry (C s)) (alphas_p s) (alphas_n s).

End CaseLoopTerms.

Section RegressionRun.

(** The engines a regression run can go through: the one [__init__]
    builds, and the one any call of [_take_step] or [_examine_example]
    returns from such an engine. *)
Inductive svr_reach (s0 : SVR.SMORegression.state)
  : SVR.SMORegression.state -> Prop :=
| svr_reach_init : svr_reach s0 s0
| svr_reach_step s s' i1 i2 r :
    svr_reach s0 s ->
    SVR.SMORegression._take_step s i1 i2 = Ok (r, s') ->
    svr_reach s0 s'
| svr_reach_examine s s' i2 r :
    svr_reach s0 s ->
    SVR.SMORegression._examine_example s i2 = Ok (r, s') ->
    svr_reach s0 s'.

End RegressionRun.

Section ClassificationRun.
Import SVC.SMOClassifier.

(** Labels are [+1] or [-1] and every multiplier is in the box. *)
Definition is_label (v : Q) : Prop := v == 1 \/ v == -1.
Definition in_box (C a : Q) : Prop := 0 <= a <= C.

Definition cls_inv (s : state) : Prop :=
  0 <= C s /\ Forall (in_box (C s)) (alphas s) /\ Forall is_label (y s).

(** The engines a classification run can go through. *)
Inductive svc_reach (s0 : state) : state -> Prop :=
| svc_reach_init : svc_reach s0 s0
| svc_reach_step s s' i1 i2 r :
    svc_reach s0 s -> _take_step s i1 i2 = Ok (r, s') -> svc_reach s0 s'
| svc_reach_examine s s' i2 r :
    svc_reach s0 s -> _examine_example s i2 = Ok (r, s') -> svc_reach s0 s'.

End ClassificationRun.

Section ConstraintTerms.

(** [a'] is [a] after the precision guard of tolerance [thr]: exactly [C]
    when [a] is within [thr] of [C], exactly [0] when it is within [thr] of
    [0], and [a] itself when it is further than [thr] from both. *)
Definition snapped_to (thr C a a' : Q) : Prop :=
  (C - thr < a -> a' = C) /\
  (a < thr -> a' = 0) /\
  (thr < a -> a <= C - thr -> a' = a).



End ConstraintTerms.

Section FrameTerms.

(** The parts of a classification engine that only a pair update writes:
    the multipliers, the index sets, the weight vector, the bias and the
    training data. *)
Definition svc_same_model (s s' : SVC.SMOClassifier.state) : Prop :=
  SVC.SMOClassifier.alphas s' = SVC.SMOClassifier.alphas s /\
  SVC.SMOClassifier.w s' = SVC.SMOClassifier.w s /\
  SVC.SMOClassifier.b s' = SVC.SMOClassifier.b s /\
  SVC.SMOClassifier.I0 s' = SVC.SMOClassifier.I0 s /\
  SVC.SMOClassifier.I1 s' = SVC.SMOClassifier.I1 s /\
  SVC.SMOClassifier.I2 s' = SVC.SMOClassifier.I2 s /\
  SVC.SMOClassifier.I3 s' = SVC.SMOClassifier.I3 s /\
  SVC.SMOClassifier.I4 s' = SVC.SMOClassifier.I4 s /\
  SVC.SMOClassifier.X s' = SVC.SMOClassifier.X s /\
  SVC.SMOClassifier.y s' = SVC.SMOClassifier.y s /\
  SVC.SMOClassifier.K s' = SVC.SMOClassifier.K s /\
  SVC.SMOClassifier.kernel s' = SVC.SMOClassifier.kernel s /\
  SVC.SMOClassifier.C s' = SVC.SMOClassifier.C s /\
  SVC.SMOClassifier.tol s' = SVC.SMOClassifier.tol s.

Definition svr_same_model (s s' : SVR.SMORegression.state) : Prop :=
  SVR.SMORegression.alphas_p s' = SVR.SMORegression.alphas_p s /\
  SVR.SMORegression.alphas_n s' = SVR.SMORegression.alphas_n s /\
  SVR.SMORegression.w s' = SVR.SMORegression.w s /\
  SVR.SMORegression.b s' = SVR.SMORegression.b s /\
  SVR.SMORegression.I0 s' = SVR.SMORegression.I0 s /\
  SVR.SMORegression.I1 s' = SVR.SMORegression.I1 s /\
  SVR.SMORegression.I2 s' = SVR.SMORegression.I2 s /\
  SVR.SMORegression.I3 s' = SVR.SMORegression.I3 s /\
  SVR.SMORegression.X s' = SVR.SMORegression.X s /\
  SVR.SMORegression.y s' = SVR.SMORegression.y s /\
  SVR.SMORegression.K s' = SVR.SMORegression.K s /\
  SVR.SMORegression.kernel s' = SVR.SMORegression.kernel s /\
  SVR.SMORegression.C s' = SVR.SMORegression.C s /\
  SVR.SMORegression.epsilon s' = SVR.SMORegression.epsilon s /\
  SVR.SMORegression.tol s' = SVR.SMORegression.tol s.

(** The error cache of [s'] is the one of [s], but for the entry of [i]. *)
Definition cache_but (i : Z) (errs errs' : list Q) : Prop :=
  errs' = errs \/ exists E, setitem errs i E = Ok errs'.

End FrameTerms.

(** * The estimators: [SVM] *)

Module SVM.




End SVM.

Section KernelTerms.



End KernelTerms.

Section ThresholdTerms.

(** The thresholds [t] are attained in the error cache [errs]: each index
    that is not the initial [-1] holds the error the threshold is equal
    to. *)
Definition attained (errs : list Q) (t : thresholds) : Prop :=
  (t_up_idx t = (-1)%Z \/ getitem errs (t_up_idx t) = Ok (t_up t)) /\
  (t_low_idx t = (-1)%Z \/ getitem errs (t_low_idx t) = Ok (t_low t)).

(** The cached errors of the indices [l] lie between the thresholds. *)
Definition between (errs : list Q) (l : list Z) (t : thresholds) : Prop :=
  forall (i : Z) (e : Q),
    i ∈ l -> getitem errs i = Ok e -> t_up t <= e <= t_low t.

(** Each threshold index is the initial [-1] or one of [l]. *)
Definition drawn_from (l : list Z) (t : thresholds) : Prop :=
  (t_up_idx t = (-1)%Z \/ t_up_idx t ∈ l) /\
  (t_low_idx t = (-1)%Z \/ t_low_idx t ∈ l).

End ThresholdTerms.

Section PartitionTerms.

(** [i] is one of [0 .. n-1]. *)
Definition in_range (n : nat) (i : Z) : Prop := (0 <= i < Z.of_nat n)%Z.

(** The training data and the parameters of a classification engine. *)
Definition svc_same_data (s s' : SVC.SMOClassifier.state) : Prop :=
  SVC.SMOClassifier.X s' = SVC.SMOClassifier.X s /\
  SVC.SMOClassifier.y s' = SVC.SMOClassifier.y s /\
  SVC.SMOClassifier.K s' = SVC.SMOClassifier.K s /\
  SVC.SMOClassifier.kernel s' = SVC.SMOClassifier.kernel s /\
  SVC.SMOClassifier.C s' = SVC.SMOClassifier.C s /\
  SVC.SMOClassifier.tol s' = SVC.SMOClassifier.tol s.

Definition svc_same_sets (s s' : SVC.SMOClassifier.state) : Prop :=
  SVC.SMOClassifier.I0 s' = SVC.SMOClassifier.I0 s /\
  SVC.SMOClassifier.I1 s' = SVC.SMOClassifier.I1 s /\
  SVC.SMOClassifier.I2 s' = SVC.SMOClassifier.I2 s /\
  SVC.SMOClassifier.I3 s' = SVC.SMOClassifier.I3 s /\
  SVC.SMOClassifier.I4 s' = SVC.SMOClassifier.I4 s.

(** The index [i], of multiplier [a] and label [yi], is in each of the five
    sets exactly when it meets the condition of the set:
    [I0 = {i : 0 < alphas[i] < C}], [I1 = {i : y[i] = +1, alphas[i] = 0}],
    [I2 = {i : y[i] = -1, alphas[i] = C}],
    [I3 = {i : y[i] = +1, alphas[i] = C}],
    [I4 = {i : y[i] = -1, alphas[i] = 0}]. *)
Definition svc_sets_at (s : SVC.SMOClassifier.state) (i : Z) (a yi : Q)
  : Prop :=
  mem i (SVC.SMOClassifier.I0 s) = inside (SVC.SMOClassifier.C s) a /\
  mem i (SVC.SMOClassifier.I1 s) = (eqb yi 1 && eqb a 0) /\
  mem i (SVC.SMOClassifier.I2 s)
  = (eqb yi (-1) && eqb a (SVC.SMOClassifier.C s)) /\
  mem i (SVC.SMOClassifier.I3 s)
  = (eqb yi 1 && eqb a (SVC.SMOClassifier.C s)) /\
  mem i (SVC.SMOClassifier.I4 s) = (eqb yi (-1) && eqb a 0).

Definition svc_sets_ok (s : SVC.SMOClassifier.state) : Prop :=
  forall (k : nat) (a yk : Q),
    SVC.SMOClassifier.alphas s !! k = Some a ->
    SVC.SMOClassifier.y s !! k = Some yk ->
    svc_sets_at s (Z.of_nat k) a yk.

(** The bookkeeping of a classification engine over [n] examples: one
    multiplier per example, threshold indices and members of [I0] among
    [0 .. n-1], and index sets that agree with the multipliers. *)
Definition svc_wf (s : SVC.SMOClassifier.state) : Prop :=
  let n := length (SVC.SMOClassifier.X s) in
  length (SVC.SMOClassifier.alphas s) = n /\
  in_range n (SVC.SMOClassifier.b_up_idx s) /\
  in_range n (SVC.SMOClassifier.b_low_idx s) /\
  (forall i, mem i (SVC.SMOClassifier.I0 s) = true -> in_range n i) /\
  svc_sets_ok s.

(** The engines of a classification run: the one [__init__] builds, and
    the one left by a call of [_examine_example] or [_take_step] on indices
    among [0 .. n-1], as [smo] and [_examine_example] make them. *)
Inductive svc_run (s0 : SVC.SMOClassifier.state)
  : SVC.SMOClassifier.state -> Prop :=
| svc_run_init : svc_run s0 s0
| svc_run_examine s s' i2 r :
    svc_run s0 s ->
    in_range (length (SVC.SMOClassifier.X s)) i2 ->
    SVC.SMOClassifier._examine_example s i2 = Ok (r, s') ->
    svc_run s0 s'
| svc_run_step s s' i1 i2 r :
    svc_run s0 s ->
    in_range (length (SVC.SMOClassifier.X s)) i1 ->
    in_range (length (SVC.SMOClassifier.X s)) i2 ->
    SVC.SMOClassifier._take_step s i1 i2 = Ok (r, s') ->
    svc_run s0 s'.

End PartitionTerms.

Section PartitionCount.

(** How many of five sets hold the index [i]. *)
Definition svc_count (s : SVC.SMOClassifier.state) (i : Z) : nat :=
  (Nat.b2n (mem i (SVC.SMOClassifier.I0 s))
   + Nat.b2n (mem i (SVC.SMOClassifier.I1 s))
   + Nat.b2n (mem i (SVC.SMOClassifier.I2 s))
   + Nat.b2n (mem i (SVC.SMOClassifier.I3 s))
   + Nat.b2n (mem i (SVC.SMOClassifier.I4 s)))%nat.

End PartitionCount.

Section RegressionPartitionTerms.

(** The training data and the parameters of a regression engine. *)
Definition svr_same_data (s s' : SVR.SMORegression.state) : Prop :=
  SVR.SMORegression.X s' = SVR.SMORegression.X s /\
  SVR.SMORegression.y s' = SVR.SMORegression.y s /\
  SVR.SMORegression.K s' = SVR.SMORegression.K s /\
  SVR.SMORegression.kernel s' = SVR.SMORegression.kernel s /\
  SVR.SMORegression.C s' = SVR.SMORegression.C s /\
  SVR.SMORegression.epsilon s' = SVR.SMORegression.epsilon s /\
  SVR.SMORegression.tol s' = SVR.SMORegression.tol s.

Definition svr_same_sets (s s' : SVR.SMORegression.state) : Prop :=
  SVR.SMORegression.I0 s' = SVR.SMORegression.I0 s /\
  SVR.SMORegression.I1 s' = SVR.SMORegression.I1 s /\
  SVR.SMORegression.I2 s' = SVR.SMORegression.I2 s /\
  SVR.SMORegression.I3 s' = SVR.SMORegression.I3 s.

(** The index [i], of multipliers [ap] and [an], is in each of the four
    sets exactly when it meets the condition of the set:
    [I0 = {i : 0 < alphas_p[i] < C or 0 < alphas_n[i] < C}],
    [I1 = {i : alphas_p[i] = 0, alphas_n[i] = 0}],
    [I2 = {i : alphas_p[i] = 0, alphas_n[i] = C}],
    [I3 = {i : alphas_p[i] = C, alphas_n[i] = 0}]. *)
Definition svr_sets_at (s : SVR.SMORegression.state) (i : Z) (ap an : Q)
  : Prop :=
  mem i (SVR.SMORegression.I0 s)
  = (inside (SVR.SMORegression.C s) ap || inside (SVR.SMORegression.C s) an) /\
  mem i (SVR.SMORegression.I1 s) = (eqb ap 0 && eqb an 0) /\
  mem i (SVR.SMORegression.I2 s)
  = (eqb ap 0 && eqb an (SVR.SMORegression.C s)) /\
  mem i (SVR.SMORegression.I3 s)
  = (eqb ap (SVR.SMORegression.C s) && eqb an 0).

Definition svr_sets_ok (s : SVR.SMORegression.state) : Prop :=
  forall (k : nat) (ap an : Q),
    SVR.SMORegression.alphas_p s !! k = Some ap ->
    SVR.SMORegression.alphas_n s !! k = Some an ->
    svr_sets_at s (Z.of_nat k) ap an.

(** The bookkeeping of a regression engine over [n] examples. *)
Definition svr_wf (s : SVR.SMORegression.state) : Prop :=
  let n := length (SVR.SMORegression.X s) in
  length (SVR.SMORegression.alphas_p s) = n /\
  length (SVR.SMORegression.alphas_n s) = n /\
  ((0 < n)%nat -> in_range n (SVR.SMORegression.b_up_idx s)) /\
  ((0 < n)%nat -> in_range n (SVR.SMORegression.b_low_idx s)) /\
  (forall i, mem i (SVR.SMORegression.I0 s) = true -> in_range n i) /\
  svr_sets_ok s.

(** The engines of a regression run, as for classification. *)
Inductive svr_run (s0 : SVR.SMORegression.state)
  : SVR.SMORegression.state -> Prop :=
| svr_run_init : svr_run s0 s0
| svr_run_examine s s' i2 r :
    svr_run s0 s ->
    in_range (length (SVR.SMORegression.X s)) i2 ->
    SVR.SMORegression._examine_example s i2 = Ok (r, s') ->
    svr_run s0 s'
| svr_run_step s s' i1 i2 r :
    svr_run s0 s ->
    in_range (length (SVR.SMORegression.X s)) i1 ->
    in_range (length (SVR.SMORegression.X s)) i2 ->
    SVR.SMORegression._take_step s i1 i2 = Ok (r, s') ->
    svr_run s0 s'.

(** How many of the four sets hold the index [i]. *)
Definition svr_count (s : SVR.SMORegression.state) (i : Z) : nat :=
  (Nat.b2n (mem i (SVR.SMORegression.I0 s))
   + Nat.b2n (mem i (SVR.SMORegression.I1 s))
   + Nat.b2n (mem i (SVR.SMORegression.I2 s))
   + Nat.b2n (mem i (SVR.SMORegression.I3 s)))%nat.

End RegressionPartitionTerms.

Section CacheTerms.





(** The body of the loop [for i in self.I0] that brings the error cache up
    to date, the same in both engines. *)
Definition cache_body (K : list (list Q)) (i1 i2 : Z) (d1 d2 : Q)
    (errs : list Q) (i : Z) : res (list Q) :=
  if negb (i =? i1)%Z && negb (i =? i2)%Z then
    do e <- getitem errs i ;
    do k1 <- getitem2 K i1 i ;
    do k2 <- getitem2 K i2 i ;
    setitem errs i (e + (d1 * k1 + d2 * k2))
  else Ok errs.

End CacheTerms.

Section WeightTerms.





End WeightTerms.

Section RegressionThresholdTerms.

(** The number [b] is the cached error of [i] moved by [eps] one way or
    the other. *)
Definition shifted_by (eps : Q) (errs : list Q) (i : Z) (b : Q) : Prop :=
  exists e, getitem errs i = Ok e /\ (b = e - eps \/ b = e + eps).

(** From [t] to [t'] the threshold [b_low] has been raised, if at all, to
    such a value at the index [i]; [b_up] is as it was. *)
Definition svr_raised (eps : Q) (errs : list Q) (i : Z) (t t' : thresholds)
  : Prop :=
  t_up t' = t_up t /\ t_up_idx t' = t_up_idx t /\ t_low t <= t_low t' /\
  ((t_low t' = t_low t /\ t_low_idx t' = t_low_idx t) \/
   (shifted_by eps errs i (t_low t') /\ t_low_idx t' = i)).

(** The same for [b_up], lowered. *)
Definition svr_lowered (eps : Q) (errs : list Q) (i : Z) (t t' : thresholds)
  : Prop :=
  t_low t' = t_low t /\ t_low_idx t' = t_low_idx t /\ t_up t' <= t_up t /\
  ((t_up t' = t_up t /\ t_up_idx t' = t_up_idx t) \/
   (shifted_by eps errs i (t_up t') /\ t_up_idx t' = i)).

(** Both thresholds are such values at their indices. *)
Definition svr_attained (eps : Q) (errs : list Q) (t : thresholds) : Prop :=
  (t_up_idx t = (-1)%Z \/ shifted_by eps errs (t_up_idx t) (t_up t)) /\
  (t_low_idx t = (-1)%Z \/ shifted_by eps errs (t_low_idx t) (t_low t)).

(** The thresholds bracket the free example [i]: its error less [epsilon]
    when [0 < alphas_p[i] < C], and otherwise its error plus [epsilon]
    when [0 < alphas_n[i] < C]. *)
Definition svr_bracketed (s : SVR.SMORegression.state) (i : Z)
    (t : thresholds) : Prop :=
  forall ap an e,
    getitem (SVR.SMORegression.alphas_p s) i = Ok ap ->
    getitem (SVR.SMORegression.alphas_n s) i = Ok an ->
    getitem (SVR.SMORegression.errors s) i = Ok e ->
    (inside (SVR.SMORegression.C s) ap = true ->
     t_up t <= e - SVR.SMORegression.epsilon s <= t_low t) /\
    (inside (SVR.SMORegression.C s) ap = false ->
     inside (SVR.SMORegression.C s) an = true ->
     t_up t <= e + SVR.SMORegression.epsilon s <= t_low t).

End RegressionThresholdTerms.

(** * Properties *)

(** ** Comparisons, bounds and indexing *)

Lemma ltb_lt (a b : Q) : ltb a b = true <-> a < b.
Proof.
  unfold ltb. rewrite Qlt_alt. destruct (a ?= b); split; congruence.
Qed.

Lemma ltb_ge (a b : Q) : ltb a b = false <-> b <= a.
Proof.
  rewrite <- not_true_iff_false, ltb_lt. split.
  - apply Qnot_lt_le.
  - apply Qle_not_lt.
Qed.

Lemma eqb_eq (a b : Q) : eqb a b = true <-> a == b.
Proof. apply Qeq_bool_iff. Qed.

Lemma eqb_neq (a b : Q) : eqb a b = false <-> ~ a == b.
Proof. rewrite <- not_true_iff_false, eqb_eq. tauto. Qed.

(** Case analysis on every comparison of the goal, turning each into the
    order fact it decides. *)
Ltac cmp :=
  repeat match goal with
  | |- context [ltb ?a ?b] =>
      let E := fresh "E" in
      destruct (ltb a b) eqn:E;
      [apply ltb_lt in E | apply ltb_ge in E]
  | |- context [eqb ?a ?b] =>
      let E := fresh "E" in
      destruct (eqb a b) eqn:E;
      [apply eqb_eq in E | apply eqb_neq in E]
  end.

Lemma py_max_cases (a b : Q) :
  (a < b /\ py_max a b = b) \/ (b <= a /\ py_max a b = a).
Proof. unfold py_max. cmp; auto. Qed.

Lemma py_min_cases (a b : Q) :
  (b < a /\ py_min a b = b) \/ (a <= b /\ py_min a b = a).
Proof. unfold py_min. cmp; auto. Qed.

Lemma clip_bounds (x l h : Q) : l <= h -> l <= clip x l h <= h.
Proof.
  intros Hlh. unfold clip.
  destruct (py_min_cases x h) as [[? ->] | [? ->]];
    destruct (py_max_cases l h) as [[? E] | [? E]];
    destruct (py_max_cases l x) as [[? E'] | [? E']];
    rewrite ?E, ?E'; split; lra.
Qed.

Lemma norm_index_lt (n : nat) (i : Z) (k : nat) :
  norm_index n i = Some k -> (k < n)%nat.
Proof.
  unfold norm_index.
  destruct ((0 <=? i) && (i <? Z.of_nat n))%Z eqn:E1.
  - intros [= <-]. lia.
  - destruct ((- Z.of_nat n <=? i) && (i <? 0))%Z eqn:E2; [|discriminate].
    intros [= <-]. lia.
Qed.

Lemma norm_index_of_nat (n k : nat) :
  norm_index n (Z.of_nat k) = if decide (k < n)%nat then Some k else None.
Proof.
  unfold norm_index. case_decide.
  - replace ((0 <=? Z.of_nat k) && (Z.of_nat k <? Z.of_nat n))%Z with true
      by (symmetry; apply andb_true_iff; lia).
    by rewrite Nat2Z.id.
  - replace ((0 <=? Z.of_nat k) && (Z.of_nat k <? Z.of_nat n))%Z with false
      by (symmetry; apply andb_false_iff; lia).
    replace ((- Z.of_nat n <=? Z.of_nat k) && (Z.of_nat k <? 0))%Z with false
      by (symmetry; apply andb_false_iff; lia).
    done.
Qed.

Lemma getitem_of_nat {A : Type} (l : list A) (k : nat) :
  getitem l (Z.of_nat k) =
  match l !! k with Some v => Ok v | None => Raise IndexError end.
Proof.
  unfold getitem. rewrite norm_index_of_nat. case_decide; [done|].
  by rewrite lookup_ge_None_2 by lia.
Qed.

Lemma getitem_Ok {A : Type} (l : list A) (i : Z) (v : A) :
  getitem l i = Ok v <->
  exists k, norm_index (length l) i = Some k /\ l !! k = Some v.
Proof.
  unfold getitem. destruct (norm_index (length l) i) as [k|] eqn:E.
  - destruct (l !! k) as [x|] eqn:El; split.
    + intros [= ->]. eauto.
    + intros (k' & [= <-] & Hk). congruence.
    + discriminate.
    + intros (k' & [= <-] & Hk). congruence.
  - split; [discriminate|]. intros (k & ? & _). discriminate.
Qed.

Lemma setitem_Ok {A : Type} (l : list A) (i : Z) (v : A) (l' : list A) :
  setitem l i v = Ok l' <->
  exists k, norm_index (length l) i = Some k /\ l' = <[k:=v]> l.
Proof.
  unfold setitem. destruct (norm_index (length l) i) as [k|]; split.
  - intros [= <-]. eauto.
  - intros (k' & [= <-] & ->). done.
  - discriminate.
  - intros (k' & ? & _). discriminate.
Qed.

Lemma setitem_length {A : Type} (l : list A) (i : Z) (v : A) (l' : list A) :
  setitem l i v = Ok l' -> length l' = length l.
Proof. intros (k & _ & ->)%setitem_Ok. apply length_insert. Qed.

(** Inversion of a successful bind. *)
Lemma bind_Ok {A B : Type} (m : res A) (k : A -> res B) (r : B) :
  bind m k = Ok r -> exists a, m = Ok a /\ k a = Ok r.
Proof. destruct m; simpl; [eauto | discriminate | discriminate]. Qed.

(** Split the first bind of a hypothesis that says a computation returned. *)
Ltac inv_bind H :=
  let a := fresh "a" in
  let Ha := fresh "Ha" in
  apply bind_Ok in H; destruct H as (a & Ha & H).

Tactic Notation "inv_bind_as" hyp(H) ident(a) ident(Ha) :=
  apply bind_Ok in H; destruct H as (a & Ha & H).

(** ** Construction of the classification engine *)

Section Construction.
Import SVC.SMOClassifier.

Lemma next_where_found (m a : nat) (y : list Q) (v : Q) (i : Z) :
  next_where (Z.of_nat <$> seq a m) y v = Ok i ->
  exists (k : nat) (q : Q),
    i = Z.of_nat k /\ y !! k = Some q /\ q == v /\
    forall (j : nat) (q' : Q),
      (a <= j < k)%nat -> y !! j = Some q' -> ~ q' == v.
Proof.
  revert a. induction m as [|m IH]; intros a; simpl; [discriminate|].
  rewrite getitem_of_nat. destruct (y !! a) as [q|] eqn:Hq; simpl; [|discriminate].
  destruct (eqb q v) eqn:E.
  - intros [= <-]. exists a, q. apply eqb_eq in E.
    repeat split; auto. intros j q' Hj. lia.
  - intros (k & qk & -> & Hk & Hv & Hbefore)%IH.
    exists k, qk. repeat split; auto.
    intros j q' Hj Hq'. destruct (decide (j = a)) as [->|Hne].
    + rewrite Hq in Hq'. injection Hq' as <-. by apply eqb_neq.
    + apply (Hbefore j); [lia | done].
Qed.

Lemma next_where_absent (m a : nat) (y : list Q) (v : Q) :
  (a + m <= length y)%nat ->
  (forall (j : nat) (q : Q),
     (a <= j < a + m)%nat -> y !! j = Some q -> ~ q == v) ->
  next_where (Z.of_nat <$> seq a m) y v = Raise StopIteration.
Proof.
  revert a. induction m as [|m IH]; intros a Hlen Habs; simpl; [done|].
  rewrite getitem_of_nat.
  destruct (lookup_lt_is_Some_2 y a) as [q Hq]; [lia|].
  rewrite Hq. simpl.
  assert (eqb q v = false) as -> by (apply eqb_neq, (Habs a); [lia | done]).
  apply IH; [lia|]. intros j q' Hj. apply Habs. lia.
Qed.

Lemma next_where_outcome (m a : nat) (y : list Q) (v : Q) :
  (a + m <= length y)%nat ->
  (exists i, next_where (Z.of_nat <$> seq a m) y v = Ok i) \/
  next_where (Z.of_nat <$> seq a m) y v = Raise StopIteration.
Proof.
  revert a. induction m as [|m IH]; intros a Hlen; simpl; [by right|].
  rewrite getitem_of_nat.
  destruct (lookup_lt_is_Some_2 y a) as [q Hq]; [lia|].
  rewrite Hq. simpl. destruct (eqb q v); [left; eauto|].
  apply IH. lia.
Qed.

Lemma where_eq_returns (m a : nat) (y : list Q) (v : Q) (acc : list Z) :
  (a + m <= length y)%nat ->
  exists l,
    for_each (Z.of_nat <$> seq a m)
      (fun acc i => do yi <- getitem y i ; Ok (if eqb yi v then acc ++ [i] else acc))
      acc = Ok l.
Proof.
  revert a acc. induction m as [|m IH]; intros a acc Hlen; simpl; [eauto|].
  rewrite getitem_of_nat.
  destruct (lookup_lt_is_Some_2 y a) as [q Hq]; [lia|].
  rewrite Hq. simpl. apply IH. lia.
Qed.

(** C10: when the construction of the classification engine returns,
    [b_up_idx] is the first index whose label is [+1] and [b_low_idx] the
    first index whose label is [-1], so both labels occur; and when one of
    the two labels is missing from a label vector that covers the samples,
    the construction raises [StopIteration] (the [next] that looks for the
    missing class finds nothing) and no engine exists to run a step on. *)
Theorem C10_init_needs_both_labels
    (X : list (list Q)) (y : list Q) (K : list (list Q))
    (kernel : string) (C tol : Q) :
  (forall s, __init__ X y K kernel C tol = Ok s ->
     first_label y 1 (b_up_idx s) /\ first_label y (-1) (b_low_idx s)) /\
  ((length X <= length y)%nat ->
   label_absent (length X) y 1 \/ label_absent (length X) y (-1) ->
   __init__ X y K kernel C tol = Raise StopIteration).
Proof.
  split.
  - intros s Hs. unfold __init__ in Hs.
    inv_bind Hs. inv_bind Hs. inv_bind Hs. inv_bind Hs. inv_bind Hs. inv_bind Hs.
    injection Hs as <-. simpl.
    apply next_where_found in Ha1, Ha2.
    destruct Ha1 as (k1 & q1 & -> & ? & ? & Hfirst1).
    destruct Ha2 as (k2 & q2 & -> & ? & ? & Hfirst2).
    split; [exists k1, q1 | exists k2, q2]; repeat split; auto; intros j q' Hj.
    + apply Hfirst1. lia.
    + apply Hfirst2. lia.
  - intros Hlen Habs. unfold __init__, where_eq, range.
    destruct (where_eq_returns (length X) 0 y 1 [] Hlen) as [l1 ->].
    destruct (where_eq_returns (length X) 0 y (-1) [] Hlen) as [l2 ->].
    simpl.
    destruct Habs as [Habs | Habs].
    + rewrite next_where_absent; [done | lia |].
      intros j q Hj. apply Habs. lia.
    + destruct (next_where_outcome (length X) 0 y 1 Hlen) as [[i ->] | ->];
        [|done].
      simpl. rewrite next_where_absent; [done | lia |].
      intros j q Hj. apply Habs. lia.
Qed.

(** Four samples that all carry the label [+1]: the engine is never built. *)
Lemma C10_init_needs_both_labels_witness :
  __init__ [[1]; [2]; [3]; [4]] [1; 1; 1; 1] [] "rbf" 1 (1 # 1000)
  = Raise StopIteration.
Proof.
  apply (C10_init_needs_both_labels
           [[1]; [2]; [3]; [4]] [1; 1; 1; 1] [] "rbf" 1 (1 # 1000)).
  - simpl. lia.
  - right. intros j q Hj Hq.
    do 4 (destruct j as [|j]; [injection Hq as <-; discriminate|]).
    simpl in Hj. lia.
Defined.

End Construction.

(** ** The analytic step of the classification engine *)

Section ClassificationStep.
Import SVC.SMOClassifier.

Lemma solve_Some (s : state) (i1 i2 : Z) (p : plan) :
  solve s i1 i2 = Ok (Some p) -> plan_of s i1 i2 p.
Proof.
  unfold solve. intros Hs.
  inv_bind Hs. inv_bind Hs. inv_bind Hs. inv_bind Hs. inv_bind Hs. inv_bind Hs.
  destruct (bounds (C s) a a0 a3 a4) as [lo hi] eqn:Hb.
  destruct (eqb lo hi) eqn:Hlh; [discriminate|].
  inv_bind Hs. inv_bind Hs. inv_bind Hs.
  injection Hs as <-. unfold plan_of. simpl.
  apply eqb_neq in Hlh. repeat split; auto.
Qed.

(** C4: when the change computed for [alpha2] is negligible,
    [abs(a2 - alpha2) < 1e-12 * (a2 + alpha2 + 1e-12)], the classification
    [_take_step] returns [False] and the engine it returns is the one it was
    given: multipliers, error cache, index sets, thresholds, bias and weight
    vector are all unchanged. *)
Theorem C4_negligible_step_is_noop (s : state) (i1 i2 : Z) (p : plan) :
  solve s i1 i2 = Ok (Some p) ->
  Qabs (a2 p - alpha2 p) < e_12 * (a2 p + alpha2 p + e_12) ->
  _take_step s i1 i2 = Ok (false, s).
Proof.
  intros Hsolve Hneg. unfold _take_step.
  destruct (i1 =? i2)%Z; [done|].
  rewrite Hsolve. simpl. unfold negligible.
  apply ltb_lt in Hneg. by rewrite Hneg.
Qed.


(** After training on the sample, the two support vectors have equal
    errors: a further step on them finds nothing to change. *)
Lemma C4_negligible_step_is_noop_witness :
  exists s, Samples.svc_trained = Ok s /\ _take_step s 2 0 = Ok (false, s).
Proof.
  eexists. split.
  - vm_compute. reflexivity.
  - eapply C4_negligible_step_is_noop.
    + vm_compute. reflexivity.
    + vm_compute. reflexivity.
Defined.


End ClassificationStep.

(** ** The outer driver *)

Section Driver.

(** C5: when [smo] returns, the bias is the midpoint of the thresholds of
    the engine it returns, negated for classification
    ([-(b_low + b_up) / 2]) and as it is for regression
    ([(b_low + b_up) / 2]). *)
Theorem C5_bias_is_threshold_midpoint :
  (forall (fuel : nat) (s s' : SVC.SMOClassifier.state),
     SVC.SMOClassifier.smo fuel s = Ok s' ->
     SVC.SMOClassifier.b s'
     = - (SVC.SMOClassifier.b_low s' + SVC.SMOClassifier.b_up s') / 2) /\
  (forall (fuel : nat) (s s' : SVR.SMORegression.state),
     SVR.SMORegression.smo fuel s = Ok s' ->
     SVR.SMORegression.b s'
     = (SVR.SMORegression.b_low s' + SVR.SMORegression.b_up s') / 2).
Proof.
  split; intros fuel s s' Hrun.
  - unfold SVC.SMOClassifier.smo in Hrun. inv_bind Hrun.
    injection Hrun as <-. reflexivity.
  - unfold SVR.SMORegression.smo in Hrun. inv_bind Hrun.
    injection Hrun as <-. reflexivity.
Qed.

(** Both sample runs end within ten iterations of the driver, with the
    bias [0] for the classifier and [1/10] for the regression. *)
Lemma C5_bias_is_threshold_midpoint_witness :
  (exists s, Samples.svc_trained = Ok s /\
     SVC.SMOClassifier.b s
     = - (SVC.SMOClassifier.b_low s + SVC.SMOClassifier.b_up s) / 2 /\
     SVC.SMOClassifier.b s == 0) /\
  (exists s, Samples.svr_trained = Ok s /\
     SVR.SMORegression.b s
     = (SVR.SMORegression.b_low s + SVR.SMORegression.b_up s) / 2 /\
     SVR.SMORegression.b s == 1 # 10).
Proof.
  split.
  - eexists. split; [vm_compute; reflexivity|]. split.
    + match goal with
      | |- SVC.SMOClassifier.b ?s' = _ =>
          match eval vm_compute in Samples.svc_init with
          | Ok ?s =>
              apply (proj1 C5_bias_is_threshold_midpoint 10%nat s s');
              vm_compute; reflexivity
          end
      end.
    + vm_compute. reflexivity.
  - eexists. split; [vm_compute; reflexivity|]. split.
    + match goal with
      | |- SVR.SMORegression.b ?s' = _ =>
          match eval vm_compute in Samples.svr_init with
          | Ok ?s =>
              apply (proj2 C5_bias_is_threshold_midpoint 10%nat s s');
              vm_compute; reflexivity
          end
      end.
    + vm_compute. reflexivity.
Defined.

(** C3, counterexample: the first (full) sweep over the classification
    sample makes one update, and the driver still leaves full-sweep mode. *)
Lemma C3_mode_rule_counterexample : ~ svc_repeats_mode_after_update.
Proof.
  intros Hrule.
  assert (exists s d',
            Samples.svc_init = Ok s /\
            SVC.SMOClassifier.iteration (SVC.SMOClassifier.start s) = Ok d' /\
            SVC.SMOClassifier.num_changed d' = 1%nat /\
            SVC.SMOClassifier.examine_all d' = false)
    as (s & d' & _ & Hstep & Hn & Hmode).
  { eexists. eexists. split; [vm_compute; reflexivity|].
    split; [vm_compute; reflexivity|]. split; reflexivity. }
  specialize (Hrule _ _ Hstep). rewrite Hn, Hmode in Hrule.
  simpl in Hrule. specialize (Hrule ltac:(lia)). discriminate.
Qed.

(** C3, as the drivers implement it: [smo] starts in full-sweep mode; a
    full sweep is always followed by active-set mode, whatever its count;
    an active-set sweep is followed by full-sweep mode when its final count
    is zero and by active-set mode again when it is positive. *)
Theorem C3_mode_transitions :
  (forall s, SVC.SMOClassifier.examine_all (SVC.SMOClassifier.start s) = true) /\
  (forall d d',
     SVC.SMOClassifier.iteration d = Ok d' ->
     SVC.SMOClassifier.examine_all d' =
     if SVC.SMOClassifier.examine_all d then false
     else (SVC.SMOClassifier.num_changed d' =? 0)%nat) /\
  (forall s, SVR.SMORegression.examine_all (SVR.SMORegression.start s) = true) /\
  (forall d d',
     SVR.SMORegression.iteration d = Ok d' ->
     SVR.SMORegression.examine_all d' =
     if SVR.SMORegression.examine_all d then false
     else (SVR.SMORegression.num_changed d' =? 0)%nat).
Proof.
  split; [reflexivity|]. split; [|split; [reflexivity|]].
  - intros d d' Hstep. unfold SVC.SMOClassifier.iteration in Hstep.
    inv_bind Hstep. destruct a as [n s]. injection Hstep as <-. simpl.
    destruct (SVC.SMOClassifier.examine_all d); [done|].
    by destruct (n =? 0)%nat.
  - intros d d' Hstep. unfold SVR.SMORegression.iteration in Hstep.
    inv_bind Hstep. destruct a as [n s]. injection Hstep as <-. simpl.
    destruct (SVR.SMORegression.examine_all d); [done|].
    by destruct (n =? 0)%nat.
Qed.

(** On the two samples the first sweep is a full one and the second an
    active-set one; the latter changes nothing, so the third is full. *)
Lemma C3_mode_transitions_witness :
  (exists s d1 d2,
     Samples.svc_init = Ok s /\
     SVC.SMOClassifier.iteration (SVC.SMOClassifier.start s) = Ok d1 /\
     SVC.SMOClassifier.iteration d1 = Ok d2 /\
     SVC.SMOClassifier.examine_all d1 = false /\
     SVC.SMOClassifier.examine_all d2 = true) /\
  (exists s d1 d2,
     Samples.svr_init = Ok s /\
     SVR.SMORegression.iteration (SVR.SMORegression.start s) = Ok d1 /\
     SVR.SMORegression.iteration d1 = Ok d2 /\
     SVR.SMORegression.examine_all d1 = false /\
     SVR.SMORegression.examine_all d2 = true).
Proof.
  destruct C3_mode_transitions as (_ & Hsvc & _ & Hsvr).
  split.
  - eexists. eexists. eexists. split; [vm_compute; reflexivity|].
    match goal with
    | |- SVC.SMOClassifier.iteration ?d0 = _ /\ _ => set (d0' := d0)
    end.
    split; [vm_compute; reflexivity|].
    match goal with
    | |- SVC.SMOClassifier.iteration ?d1 = _ /\ _ => set (d1' := d1)
    end.
    split; [vm_compute; reflexivity|].
    match goal with
    | |- _ /\ SVC.SMOClassifier.examine_all ?d2 = _ => set (d2' := d2)
    end.
    split.
    + rewrite (Hsvc d0' d1'); [reflexivity | vm_compute; reflexivity].
    + rewrite (Hsvc d1' d2'); [reflexivity | vm_compute; reflexivity].
  - eexists. eexists. eexists. split; [vm_compute; reflexivity|].
    match goal with
    | |- SVR.SMORegression.iteration ?d0 = _ /\ _ => set (d0' := d0)
    end.
    split; [vm_compute; reflexivity|].
    match goal with
    | |- SVR.SMORegression.iteration ?d1 = _ /\ _ => set (d1' := d1)
    end.
    split; [vm_compute; reflexivity|].
    match goal with
    | |- _ /\ SVR.SMORegression.examine_all ?d2 = _ => set (d2' := d2)
    end.
    split.
    + rewrite (Hsvr d0' d1'); [reflexivity | vm_compute; reflexivity].
    + rewrite (Hsvr d1' d2'); [reflexivity | vm_compute; reflexivity].
Defined.

End Driver.

(** ** Re-examination of a free, optimal index *)

Section Reexamination.

(** C6, counterexample: regression on three points with [epsilon = 0.25]
    and [tol = 0.25].  After the first full sweep index [0] sits at the
    bound, so the active-set sweep starts with index [1].  That index is free
    (its minus multiplier is [5/8]) and its cached error [E = -1/8] is
    within [2 * tol] of both thresholds ([b_low - E = 1/4],
    [E - b_up = 3/8]); the selector compares [E + epsilon] instead, finds
    [(E + epsilon) - b_up = 5/8] too large, and takes a step that changes
    the multipliers. *)
Lemma C6_reexamination_counterexample :
  exists (s s' : SVR.SMORegression.state) (E : Q),
    Samples.svr3_swept = Ok s /\
    SVR.SMORegression.is_free s 0 = Ok false /\
    mem 1 (SVR.SMORegression.I0 s) = true /\
    getitem (SVR.SMORegression.errors s) 1 = Ok E /\
    SVR.SMORegression.b_low s - E <= 2 * SVR.SMORegression.tol s /\
    E - SVR.SMORegression.b_up s <= 2 * SVR.SMORegression.tol s /\
    SVR.SMORegression._examine_example s 1 = Ok (true, s') /\
    Qred <$> SVR.SMORegression.alphas_n s = [0; 5 # 8; 3 # 8] /\
    Qred <$> SVR.SMORegression.alphas_n s' = [0; 5 # 9; 4 # 9].
Proof.
  eexists. eexists. eexists.
  split; [vm_compute; reflexivity|].
  split; [vm_compute; reflexivity|].
  split; [vm_compute; reflexivity|].
  split; [vm_compute; reflexivity|].
  split; [vm_compute; discriminate|].
  split; [vm_compute; discriminate|].
  split; [vm_compute; reflexivity|].
  split; vm_compute; reflexivity.
Qed.

(** C6, as the selectors implement it: for an index [i2] of [I0] whose error
    is within [2 * tol] of both thresholds, [_examine_example] returns
    [False] and the engine it was given; the error is the cached [E] for
    classification, and for regression [E - epsilon] or [E + epsilon]
    according to the multiplier that is free. *)
Theorem C6_reexamination_is_noop :
  (forall (s : SVC.SMOClassifier.state) (i2 : Z) (E : Q),
     mem i2 (SVC.SMOClassifier.I0 s) = true ->
     getitem (SVC.SMOClassifier.errors s) i2 = Ok E ->
     SVC.SMOClassifier.b_low s - E <= 2 * SVC.SMOClassifier.tol s ->
     E - SVC.SMOClassifier.b_up s <= 2 * SVC.SMOClassifier.tol s ->
     SVC.SMOClassifier._examine_example s i2 = Ok (false, s)) /\
  (forall (s : SVR.SMORegression.state) (i2 : Z) (alpha_p alpha_n E : Q),
     mem i2 (SVR.SMORegression.I0 s) = true ->
     getitem (SVR.SMORegression.alphas_p s) i2 = Ok alpha_p ->
     getitem (SVR.SMORegression.alphas_n s) i2 = Ok alpha_n ->
     getitem (SVR.SMORegression.errors s) i2 = Ok E ->
     SVR.SMORegression.b_low s - shifted_error s alpha_p E
       <= 2 * SVR.SMORegression.tol s ->
     shifted_error s alpha_p E - SVR.SMORegression.b_up s
       <= 2 * SVR.SMORegression.tol s ->
     SVR.SMORegression._examine_example s i2 = Ok (false, s)).
Proof.
  split.
  - intros s i2 E Hmem Herr Hlow Hup.
    unfold SVC.SMOClassifier._examine_example, SVC.SMOClassifier.error_of.
    rewrite Hmem, Herr. simpl.
    unfold SVC.SMOClassifier.check_optimality. rewrite Hmem. simpl.
    apply ltb_ge in Hlow, Hup. by rewrite Hlow, Hup.
  - intros s i2 ap an E Hmem Hap Han Herr Hlow Hup.
    unfold SVR.SMORegression._examine_example, SVR.SMORegression.error_of.
    rewrite Hap, Han, Hmem, Herr. simpl.
    unfold SVR.SMORegression.check_optimality. rewrite Hmem.
    unfold shifted_error in Hlow, Hup.
    destruct (inside (SVR.SMORegression.C s) ap).
    + simpl. unfold SVR.SMORegression.two_sided.
      apply ltb_ge in Hlow, Hup. by rewrite Hlow, Hup.
    + destruct (inside (SVR.SMORegression.C s) an); [|done].
      simpl. unfold SVR.SMORegression.two_sided.
      apply ltb_ge in Hlow, Hup. by rewrite Hlow, Hup.
Qed.

(** After training, re-examining a support vector changes nothing, for the
    classifier as for the regression. *)
Lemma C6_reexamination_is_noop_witness :
  (exists s, Samples.svc_trained = Ok s /\
     SVC.SMOClassifier._examine_example s 2 = Ok (false, s)) /\
  (exists s, Samples.svr_trained = Ok s /\
     SVR.SMORegression._examine_example s 1 = Ok (false, s)).
Proof.
  destruct C6_reexamination_is_noop as [Hsvc Hsvr]. split.
  - eexists. split; [vm_compute; reflexivity|].
    match goal with
    | |- SVC.SMOClassifier._examine_example ?s _ = _ => set (s0 := s)
    end.
    eapply (Hsvc s0 2%Z).
    + vm_compute; reflexivity.
    + vm_compute; reflexivity.
    + vm_compute; discriminate.
    + vm_compute; discriminate.
  - eexists. split; [vm_compute; reflexivity|].
    match goal with
    | |- SVR.SMORegression._examine_example ?s _ = _ => set (s0 := s)
    end.
    eapply (Hsvr s0 1%Z).
    + vm_compute; reflexivity.
    + vm_compute; reflexivity.
    + vm_compute; reflexivity.
    + vm_compute; reflexivity.
    + vm_compute; discriminate.
    + vm_compute; discriminate.
Defined.

End Reexamination.

(** ** The case loop of the regression step *)

Section RegressionLoop.
Import SVR.SMORegression.

Lemma pick_bounds (eta x L H lo hi : Q) :
  L < H -> L <= pick eta x L H lo hi <= H.
Proof.
  intros HLH. unfold pick. destruct (ltb 0 eta).
  - apply clip_bounds. lra.
  - destruct (ltb hi lo); lra.
Qed.

(** What a guard tells about the multipliers it does not update. *)
Lemma guard_side (a z d1 d2 : Q) :
  (a == 0 \/ z == 0) -> 0 <= a ->
  ltb 0 a || (eqb z 0 && ltb d1 d2) = true -> z == 0.
Proof.
  intros Hc Ha [G | G]%orb_true_iff.
  - apply ltb_lt in G. destruct Hc; [lra | done].
  - apply andb_true_iff in G as [G _]. by apply eqb_eq in G.
Qed.

Lemma guard1_zero (f : frame) (c : cases) :
  pair_ok f c -> guard1 f c = true ->
  case1 c = false /\ alpha1_n c == 0 /\ alpha2_n c == 0.
Proof.
  intros (Hp1 & Hn1 & Hp2 & Hn2 & Hc1 & Hc2 & Hg) Hguard.
  unfold guard1 in Hguard.
  apply andb_true_iff in Hguard as [Hguard G2].
  apply andb_true_iff in Hguard as [G0 G1].
  apply negb_true_iff in G0. repeat split; [done | |].
  - eapply (guard_side (alpha1_p c)); [exact Hc1 | lra | exact G1].
  - eapply (guard_side (alpha2_p c)); [exact Hc2 | lra | exact G2].
Qed.

Lemma guard2_zero (f : frame) (c : cases) :
  pair_ok f c -> guard2 f c = true ->
  case2 c = false /\ alpha1_n c == 0 /\ alpha2_p c == 0.
Proof.
  intros (Hp1 & Hn1 & Hp2 & Hn2 & Hc1 & Hc2 & Hg) Hguard.
  unfold guard2 in Hguard.
  apply andb_true_iff in Hguard as [Hguard G2].
  apply andb_true_iff in Hguard as [G0 G1].
  apply negb_true_iff in G0. repeat split; [done | |].
  - eapply (guard_side (alpha1_p c)); [exact Hc1 | lra | exact G1].
  - eapply (guard_side (alpha2_n c)); [tauto | lra | exact G2].
Qed.

Lemma guard3_zero (f : frame) (c : cases) :
  pair_ok f c -> guard3 f c = true ->
  case3 c = false /\ alpha1_p c == 0 /\ alpha2_n c == 0.
Proof.
  intros (Hp1 & Hn1 & Hp2 & Hn2 & Hc1 & Hc2 & Hg) Hguard.
  unfold guard3 in Hguard.
  apply andb_true_iff in Hguard as [Hguard G2].
  apply andb_true_iff in Hguard as [G0 G1].
  apply negb_true_iff in G0. repeat split; [done | |].
  - eapply (guard_side (alpha1_n c)); [tauto | lra | exact G1].
  - eapply (guard_side (alpha2_p c)); [exact Hc2 | lra | exact G2].
Qed.

Lemma guard4_zero (f : frame) (c : cases) :
  pair_ok f c -> guard4 f c = true ->
  case4 c = false /\ alpha1_p c == 0 /\ alpha2_p c == 0.
Proof.
  intros (Hp1 & Hn1 & Hp2 & Hn2 & Hc1 & Hc2 & Hg) Hguard.
  unfold guard4 in Hguard.
  apply andb_true_iff in Hguard as [Hguard G2].
  apply andb_true_iff in Hguard as [G0 G1].
  apply negb_true_iff in G0. repeat split; [done | |].
  - eapply (guard_side (alpha1_n c)); [tauto | lra | exact G1].
  - eapply (guard_side (alpha2_n c)); [tauto | lra | exact G2].
Qed.

(** Each case keeps the pair in the box, complementary, and on the line
    [gamma]. *)
Ltac case_ok L H a2 Ha2 HLH :=
  unfold pair_ok; simpl; subst L H;
  match type of HLH with
  | py_max ?a ?b < py_min ?c ?d =>
      destruct (py_max_cases a b) as [[? ?E1] | [? ?E1]];
      destruct (py_min_cases c d) as [[? ?E2] | [? ?E2]];
      rewrite E1, E2 in Ha2, HLH
  end;
  repeat split; try lra; auto.

Lemma do_case1_ok (f : frame) (c : cases) :
  0 <= f_C f -> pair_ok f c -> guard1 f c = true -> pair_ok f (do_case1 f c).
Proof.
  intros HC Hok Hguard.
  destruct (guard1_zero f c Hok Hguard) as (_ & Hz1 & Hz2).
  destruct Hok as (Hp1 & Hn1 & Hp2 & Hn2 & Hc1 & Hc2 & Hg).
  unfold do_case1.
  set (L := py_max 0 (f_gamma f - f_C f)).
  set (H := py_min (f_C f) (f_gamma f)).
  destruct (ltb L H) eqn:HLH; [|unfold pair_ok; simpl; tauto].
  apply ltb_lt in HLH.
  set (a2 := pick _ _ L H _ _).
  pose proof (pick_bounds (f_eta f) (alpha2_p c - delta_E c / f_eta f) L H
                (- L * delta_E c) (- H * delta_E c) HLH) as Ha2.
  fold a2 in Ha2.
  destruct (moved _ _ _ _); [|unfold pair_ok; simpl; tauto].
  case_ok L H a2 Ha2 HLH.
Qed.

Lemma do_case2_ok (f : frame) (c : cases) :
  0 <= f_C f -> pair_ok f c -> guard2 f c = true -> pair_ok f (do_case2 f c).
Proof.
  intros HC Hok Hguard.
  destruct (guard2_zero f c Hok Hguard) as (_ & Hz1 & Hz2).
  destruct Hok as (Hp1 & Hn1 & Hp2 & Hn2 & Hc1 & Hc2 & Hg).
  unfold do_case2.
  set (L := py_max 0 (- f_gamma f)).
  set (H := py_min (f_C f) (- f_gamma f + f_C f)).
  destruct (ltb L H) eqn:HLH; [|unfold pair_ok; simpl; tauto].
  apply ltb_lt in HLH.
  set (a2 := pick _ _ L H _ _).
  pose proof (pick_bounds (f_eta f)
                (alpha2_n c + (delta_E c - 2 * f_epsilon f) / f_eta f) L H
                (L * (-2 * f_epsilon f + delta_E c))
                (H * (-2 * f_epsilon f + delta_E c)) HLH) as Ha2.
  fold a2 in Ha2.
  destruct (moved _ _ _ _); [|unfold pair_ok; simpl; tauto].
  case_ok L H a2 Ha2 HLH.
Qed.

Lemma do_case3_ok (f : frame) (c : cases) :
  0 <= f_C f -> pair_ok f c -> guard3 f c = true -> pair_ok f (do_case3 f c).
Proof.
  intros HC Hok Hguard.
  destruct (guard3_zero f c Hok Hguard) as (_ & Hz1 & Hz2).
  destruct Hok as (Hp1 & Hn1 & Hp2 & Hn2 & Hc1 & Hc2 & Hg).
  unfold do_case3.
  set (L := py_max 0 (f_gamma f)).
  set (H := py_min (f_C f) (f_C f + f_gamma f)).
  destruct (ltb L H) eqn:HLH; [|unfold pair_ok; simpl; tauto].
  apply ltb_lt in HLH.
  set (a2 := pick _ _ L H _ _).
  pose proof (pick_bounds (f_eta f)
                (alpha2_p c - (delta_E c + 2 * f_epsilon f) / f_eta f) L H
                (- L * (2 * f_epsilon f + delta_E c))
                (- H * (2 * f_epsilon f + delta_E c)) HLH) as Ha2.
  fold a2 in Ha2.
  destruct (moved _ _ _ _); [|unfold pair_ok; simpl; tauto].
  case_ok L H a2 Ha2 HLH.
Qed.

Lemma do_case4_ok (f : frame) (c : cases) :
  0 <= f_C f -> pair_ok f c -> guard4 f c = true -> pair_ok f (do_case4 f c).
Proof.
  intros HC Hok Hguard.
  destruct (guard4_zero f c Hok Hguard) as (_ & Hz1 & Hz2).
  destruct Hok as (Hp1 & Hn1 & Hp2 & Hn2 & Hc1 & Hc2 & Hg).
  unfold do_case4.
  set (L := py_max 0 (- f_gamma f - f_C f)).
  set (H := py_min (f_C f) (- f_gamma f)).
  destruct (ltb L H) eqn:HLH; [|unfold pair_ok; simpl; tauto].
  apply ltb_lt in HLH.
  set (a2 := pick _ _ L H _ _).
  pose proof (pick_bounds (f_eta f) (alpha2_n c + delta_E c / f_eta f) L H
                (L * delta_E c) (H * delta_E c) HLH) as Ha2.
  fold a2 in Ha2.
  destruct (moved _ _ _ _); [|unfold pair_ok; simpl; tauto].
  case_ok L H a2 Ha2 HLH.
Qed.

Lemma branch_ok (f : frame) (c : cases) :
  0 <= f_C f -> pair_ok f c -> pair_ok f (branch f c).
Proof.
  intros HC Hok. unfold branch.
  destruct (guard1 f c) eqn:G1; [by apply do_case1_ok|].
  destruct (guard2 f c) eqn:G2; [by apply do_case2_ok|].
  destruct (guard3 f c) eqn:G3; [by apply do_case3_ok|].
  destruct (guard4 f c) eqn:G4; [by apply do_case4_ok|].
  exact Hok.
Qed.

Lemma case_step_ok (f : frame) (c : cases) :
  0 <= f_C f -> pair_ok f c -> pair_ok f (case_step f c).
Proof. intros HC Hok. exact (branch_ok f c HC Hok). Qed.

(** *** Flags and termination *)

Ltac split_chain :=
  unfold branch, do_case1, do_case2, do_case3, do_case4;
  repeat match goal with
  | |- context [if ?b then _ else _] => destruct b eqn:?
  end; simpl.

Lemma guard_flag (f : frame) (c : cases) :
  (guard1 f c = true -> case1 c = false) /\
  (guard2 f c = true -> case2 c = false) /\
  (guard3 f c = true -> case3 c = false) /\
  (guard4 f c = true -> case4 c = false).
Proof.
  unfold guard1, guard2, guard3, guard4.
  repeat split; intros G;
    apply andb_true_iff in G as [G _]; apply andb_true_iff in G as [G _];
    by apply negb_true_iff in G.
Qed.

(** A flag that is set stays set. *)
Lemma case_step_keeps_flag (k : nat) (f : frame) (c : cases) :
  flag k c = true -> flag k (case_step f c) = true.
Proof.
  destruct (guard_flag f c) as (F1 & F2 & F3 & F4).
  destruct k as [|[|[|[|[|k]]]]]; simpl; try discriminate; intros Hk;
    split_chain; auto.
Qed.

(** The case the chain selects had not fired, and has fired afterwards. *)
Lemma fires_sets_flag (k : nat) (f : frame) (c : cases) :
  fires k f c = true -> flag k c = false /\ flag k (case_step f c) = true.
Proof.
  destruct (guard_flag f c) as (F1 & F2 & F3 & F4).
  destruct k as [|[|[|[|[|k]]]]]; simpl; try discriminate; intros Hk.
  - split; [auto|]. unfold branch. rewrite Hk. unfold do_case1.
    by repeat match goal with
       | |- context [if ?b then _ else _] => destruct b
       end.
  - apply andb_true_iff in Hk as [G1 G2]. apply negb_true_iff in G1.
    split; [auto|]. unfold branch. rewrite G1, G2. unfold do_case2.
    by repeat match goal with
       | |- context [if ?b then _ else _] => destruct b
       end.
  - apply andb_true_iff in Hk as [Hk G3].
    apply andb_true_iff in Hk as [G1 G2].
    apply negb_true_iff in G1, G2.
    split; [auto|]. unfold branch. rewrite G1, G2, G3. unfold do_case3.
    by repeat match goal with
       | |- context [if ?b then _ else _] => destruct b
       end.
  - apply andb_true_iff in Hk as [Hk G4].
    apply andb_true_iff in Hk as [Hk G3].
    apply andb_true_iff in Hk as [G1 G2].
    apply negb_true_iff in G1, G2, G3.
    split; [auto|]. unfold branch. rewrite G1, G2, G3, G4. unfold do_case4.
    by repeat match goal with
       | |- context [if ?b then _ else _] => destruct b
       end.
Qed.

(** An iteration ends the loop or makes one more case fire. *)
Lemma case_step_progress (f : frame) (c : cases) :
  finished (case_step f c) = true \/
  flags_set (case_step f c) = S (flags_set c).
Proof.
  destruct (guard_flag f c) as (F1 & F2 & F3 & F4).
  unfold flags_set. simpl. unfold branch.
  destruct (guard1 f c) eqn:G1.
  { rewrite (F1 eq_refl). unfold do_case1.
    repeat match goal with
    | |- context [if ?b then _ else _] => destruct b
    end; simpl; auto. }
  destruct (guard2 f c) eqn:G2.
  { rewrite (F2 eq_refl). unfold do_case2.
    repeat match goal with
    | |- context [if ?b then _ else _] => destruct b
    end; simpl; auto; right; lia. }
  destruct (guard3 f c) eqn:G3.
  { rewrite (F3 eq_refl). unfold do_case3.
    repeat match goal with
    | |- context [if ?b then _ else _] => destruct b
    end; simpl; auto; right; lia. }
  destruct (guard4 f c) eqn:G4.
  { rewrite (F4 eq_refl). unfold do_case4.
    repeat match goal with
    | |- context [if ?b then _ else _] => destruct b
    end; simpl; auto; right; lia. }
  simpl. auto.
Qed.

Lemma flags_set_le_4 (c : cases) : (flags_set c <= 4)%nat.
Proof.
  unfold flags_set.
  destruct (case1 c), (case2 c), (case3 c), (case4 c); simpl; lia.
Qed.

Lemma case_loop_returns (n : nat) (f : frame) (c : cases) :
  (4 - flags_set c < n)%nat ->
  exists c', case_loop n f c = Ok c' /\ finished c' = true.
Proof.
  revert c. induction n as [|n IH]; intros c Hn; [lia|].
  cbn [case_loop]. destruct (finished c) eqn:Hfin; [eauto|].
  destruct (case_step_progress f c) as [Hdone | Hmore].
  - destruct n; cbn [case_loop]; rewrite Hdone; eauto.
  - apply IH. pose proof (flags_set_le_4 (case_step f c)). lia.
Qed.

Lemma case_loop_more_fuel (n m : nat) (f : frame) (c c' : cases) :
  case_loop n f c = Ok c' -> (n <= m)%nat -> case_loop m f c = Ok c'.
Proof.
  revert m c. induction n as [|n IH]; intros m c Hrun Hle.
  - simpl in Hrun. destruct (finished c) eqn:Hfin; [|discriminate].
    destruct m; simpl; by rewrite Hfin.
  - destruct m as [|m]; [lia|]. simpl in *.
    destruct (finished c); [done|]. apply IH; [done | lia].
Qed.

(** *** At most three cases *)

Lemma case1_empty_box (C gamma : Q) :
  0 <= C -> gamma == 0 ->
  ltb (py_max 0 (gamma - C)) (py_min C gamma) = false.
Proof.
  intros HC Hg. apply ltb_ge.
  destruct (py_max_cases 0 (gamma - C)) as [[? ->] | [? ->]];
    destruct (py_min_cases C gamma) as [[? ->] | [? ->]]; lra.
Qed.

Lemma case4_empty_box (C gamma : Q) :
  0 <= C -> gamma == 0 ->
  ltb (py_max 0 (- gamma - C)) (py_min C (- gamma)) = false.
Proof.
  intros HC Hg. apply ltb_ge.
  destruct (py_max_cases 0 (- gamma - C)) as [[? ->] | [? ->]];
    destruct (py_min_cases C (- gamma)) as [[? ->] | [? ->]]; lra.
Qed.

Lemma case_step_loop_inv (f : frame) (c : cases) :
  0 <= f_C f -> finished c = false -> loop_inv f c ->
  loop_inv f (case_step f c).
Proof.
  intros HC Hfin (Hok & Hx & H1 & H4).
  split; [by apply case_step_ok|].
  destruct Hok as (Hp1 & Hn1 & Hp2 & Hn2 & Hc1 & Hc2 & Hg).
  assert (Hok : pair_ok f c) by (unfold pair_ok; tauto).
  assert (case1 c = true -> 0 <= f_gamma f /\ ~ f_gamma f == 0) as H1'.
  { intros Hk. destruct (H1 Hk) as [? Hz]. split; [done|].
    intros Hzero. apply Hz in Hzero. congruence. }
  assert (case4 c = true -> f_gamma f <= 0 /\ ~ f_gamma f == 0) as H4'.
  { intros Hk. destruct (H4 Hk) as [? Hz]. split; [done|].
    intros Hzero. apply Hz in Hzero. congruence. }
  clear H1 H4. rename H1' into H1. rename H4' into H4.
  simpl. unfold branch.
  destruct (guard1 f c) eqn:G1.
  { destruct (guard1_zero f c Hok G1) as (Hf1 & Hz1 & Hz2).
    assert (0 <= f_gamma f) as Hpos by lra.
    assert (case4 c = false) as Hf4.
    { destruct (case4 c); [|done].
      destruct (H4 eq_refl) as [Hneg Hzero]. lra. }
    unfold do_case1.
    destruct (ltb _ _) eqn:HLH.
    - assert (~ f_gamma f == 0) as Hnz.
      { intros Hz. by rewrite case1_empty_box in HLH. }
      destruct (moved _ _ _ _); simpl; rewrite Hf4;
        repeat split; try done; tauto.
    - simpl. rewrite Hf4. repeat split; done. }
  destruct (guard2 f c) eqn:G2.
  { unfold do_case2.
    repeat match goal with
    | |- context [if ?b then _ else _] => destruct b
    end; simpl; repeat split; try tauto;
      intros Hk; try (destruct (H1 Hk)); try (destruct (H4 Hk)); tauto. }
  destruct (guard3 f c) eqn:G3.
  { unfold do_case3.
    repeat match goal with
    | |- context [if ?b then _ else _] => destruct b
    end; simpl; repeat split; try tauto;
      intros Hk; try (destruct (H1 Hk)); try (destruct (H4 Hk)); tauto. }
  destruct (guard4 f c) eqn:G4.
  { destruct (guard4_zero f c Hok G4) as (Hf4 & Hz1 & Hz2).
    assert (f_gamma f <= 0) as Hneg by lra.
    assert (case1 c = false) as Hf1.
    { destruct (case1 c); [|done].
      destruct (H1 eq_refl) as [Hpos Hzero]. lra. }
    unfold do_case4.
    destruct (ltb _ _) eqn:HLH.
    - assert (~ f_gamma f == 0) as Hnz.
      { intros Hz. by rewrite case4_empty_box in HLH. }
      destruct (moved _ _ _ _); simpl; rewrite Hf1;
        repeat split; try done; tauto.
    - simpl. rewrite Hf1. repeat split; done. }
  simpl. repeat split; try tauto;
    intros Hk; try (destruct (H1 Hk)); try (destruct (H4 Hk)); tauto.
Qed.

Lemma case_loop_inv (n : nat) (f : frame) (c c' : cases) :
  0 <= f_C f -> loop_inv f c -> case_loop n f c = Ok c' -> loop_inv f c'.
Proof.
  intros HC. revert c. induction n as [|n IH]; intros c Hinv Hrun; simpl in Hrun.
  - destruct (finished c); [by injection Hrun as <- | discriminate].
  - destruct (finished c) eqn:Hfin; [by injection Hrun as <-|].
    eapply IH; [|exact Hrun]. by apply case_step_loop_inv.
Qed.

Lemma loop_inv_three (f : frame) (c : cases) :
  loop_inv f c -> (flags_set c <= 3)%nat.
Proof.
  intros (_ & Hx & _). unfold flags_set.
  destruct (case1 c), (case4 c), (case2 c), (case3 c); simpl; try lia.
  all: exfalso; by apply Hx.
Qed.

End RegressionLoop.

(** ** What a regression step changes *)

Section RegressionCommit.
Import SVR.SMORegression.

Lemma getitem_fuel {A : Type} (l : list A) (i : Z) : getitem l i <> OutOfFuel.
Proof.
  unfold getitem. destruct (norm_index _ _); [|discriminate].
  destruct (l !! _); discriminate.
Qed.

Lemma getitem2_fuel (K : list (list Q)) (i j : Z) : getitem2 K i j <> OutOfFuel.
Proof.
  unfold getitem2. destruct (getitem K i) eqn:E; simpl.
  - apply getitem_fuel.
  - discriminate.
  - by apply getitem_fuel in E.
Qed.

Lemma update_weight_frame (s s' : state) (i1 i2 : Z) (d1 d2 : Q) :
  update_weight s i1 i2 d1 d2 = Ok s' ->
  C s' = C s /\ alphas_p s' = alphas_p s /\ alphas_n s' = alphas_n s /\
  errors s' = errors s /\ I0 s' = I0 s /\ K s' = K s.
Proof.
  unfold update_weight. intros Hu.
  destruct (String.eqb _ _); [|by injection Hu as <-].
  inv_bind Hu. inv_bind Hu. inv_bind Hu.
  destruct (w s); [|discriminate]. inv_bind Hu. by injection Hu as <-.
Qed.

Lemma update_errors_frame (s s' : state) (i1 i2 : Z) (p : plan) (d1 d2 : Q) :
  update_errors s i1 i2 p d1 d2 = Ok s' ->
  C s' = C s /\ alphas_p s' = alphas_p s /\ alphas_n s' = alphas_n s.
Proof.
  unfold update_errors. intros Hu.
  inv_bind Hu. inv_bind Hu. inv_bind Hu. inv_bind Hu. inv_bind Hu.
  by injection Hu as <-.
Qed.

Lemma update_sets_frame (s s' : state) (i : Z) :
  update_sets s i = Ok s' ->
  C s' = C s /\ alphas_p s' = alphas_p s /\ alphas_n s' = alphas_n s.
Proof.
  unfold update_sets. intros Hu.
  inv_bind Hu. inv_bind Hu. inv_bind Hu. inv_bind Hu.
  by injection Hu as <-.
Qed.

Lemma update_thresholds_frame (s s' : state) (i1 i2 : Z) :
  update_thresholds s i1 i2 = Ok s' ->
  C s' = C s /\ alphas_p s' = alphas_p s /\ alphas_n s' = alphas_n s.
Proof.
  unfold update_thresholds. intros Hu.
  inv_bind Hu. inv_bind Hu. inv_bind Hu.
  by injection Hu as <-.
Qed.

(** A successful [commit] returns [True]; it leaves [C] alone and writes
    the four snapped multipliers at [i1] and then [i2]. *)
Lemma commit_alphas (s s' : state) (i1 i2 : Z) (p : plan) (r : bool) :
  commit s i1 i2 p = Ok (r, s') ->
  r = true /\ C s' = C s /\
  exists ap an,
    setitem (alphas_p s) i1 (snap (C s) (alpha1_p (final p))) = Ok ap /\
    setitem ap i2 (snap (C s) (alpha2_p (final p))) = Ok (alphas_p s') /\
    setitem (alphas_n s) i1 (snap (C s) (alpha1_n (final p))) = Ok an /\
    setitem an i2 (snap (C s) (alpha2_n (final p))) = Ok (alphas_n s').
Proof.
  unfold commit. intros Hc.
  inv_bind_as Hc s1 Hw. apply update_weight_frame in Hw as (HC1 & Hp1 & Hn1 & _).
  inv_bind_as Hc s2 He. apply update_errors_frame in He as (HC2 & Hp2 & Hn2).
  inv_bind_as Hc s3 Hal.
  inv_bind_as Hc s4 Hs1. apply update_sets_frame in Hs1 as (HC4 & Hp4 & Hn4).
  inv_bind_as Hc s5 Hs2. apply update_sets_frame in Hs2 as (HC5 & Hp5 & Hn5).
  inv_bind_as Hc s6 Ht. apply update_thresholds_frame in Ht as (HC6 & Hp6 & Hn6).
  destruct (_ || _); [discriminate|]. injection Hc as <- <-.
  unfold update_alphas in Hal.
  inv_bind_as Hal ap Hap1. inv_bind_as Hal ap' Hap2.
  inv_bind_as Hal an Han1. inv_bind_as Hal an' Han2.
  injection Hal as <-. simpl in *.
  rewrite HC2, HC1 in *. rewrite Hp2, Hp1 in *. rewrite Hn2, Hn1 in *.
  split; [done|]. split; [congruence|].
  exists ap, an. repeat split; congruence.
Qed.

End RegressionCommit.

(** ** The invariant of the regression engine *)

Section RegressionInvariant.
Import SVR.SMORegression.

Lemma Forall2_getitem {A B : Type} (P : A -> B -> Prop)
    (l1 : list A) (l2 : list B) (i : Z) (a : A) (b : B) :
  Forall2 P l1 l2 -> getitem l1 i = Ok a -> getitem l2 i = Ok b -> P a b.
Proof.
  intros HF (k1 & Hk1 & Ha)%getitem_Ok (k2 & Hk2 & Hb)%getitem_Ok.
  rewrite (Forall2_length _ _ _ HF) in Hk1.
  assert (k1 = k2) as -> by congruence.
  eapply Forall2_lookup_lr; eauto.
Qed.

Lemma Forall2_setitem {A B : Type} (P : A -> B -> Prop)
    (l1 l1' : list A) (l2 l2' : list B) (i : Z) (a : A) (b : B) :
  Forall2 P l1 l2 -> P a b ->
  setitem l1 i a = Ok l1' -> setitem l2 i b = Ok l2' -> Forall2 P l1' l2'.
Proof.
  intros HF Hab (k1 & Hk1 & ->)%setitem_Ok (k2 & Hk2 & ->)%setitem_Ok.
  rewrite (Forall2_length _ _ _ HF) in Hk1.
  assert (k1 = k2) as -> by congruence.
  by apply Forall2_insert.
Qed.

Lemma snap_entry (C p n : Q) :
  0 <= C -> reg_entry C p n -> reg_entry C (snap C p) (snap C n).
Proof.
  intros HC (Hp & Hn & Hz). unfold reg_entry, snap.
  assert (e_10 == 1 # 10000000000) as He by reflexivity.
  cmp; simpl; repeat split; try lra.
  all: destruct Hz as [Hz | Hz]; try (left; lra); try (right; lra);
    exfalso; nra.
Qed.

(** The loop of [_take_step] starts from a pair that satisfies its
    invariant, and ends with one. *)
Lemma solve_final (s : state) (i1 i2 : Z) (p : plan) :
  reg_inv s -> solve s i1 i2 = Ok p ->
  exists f,
    f_C f = C s /\ f_gamma f == old1 p + old2 p /\
    loop_inv f (final p) /\ finished (final p) = true.
Proof.
  intros [HC HF] Hs. unfold solve in Hs.
  inv_bind_as Hs a1p H1p. inv_bind_as Hs a1n H1n. inv_bind_as Hs e1 He1.
  inv_bind_as Hs a2p H2p. inv_bind_as Hs a2n H2n. inv_bind_as Hs e2 He2.
  inv_bind_as Hs k11 Hk11. inv_bind_as Hs k22 Hk22. inv_bind_as Hs k12 Hk12.
  inv_bind_as Hs c Hloop. injection Hs as <-. simpl.
  pose proof (Forall2_getitem _ _ _ _ _ _ HF H1p H1n) as (? & ? & ?).
  pose proof (Forall2_getitem _ _ _ _ _ _ HF H2p H2n) as (? & ? & ?).
  match type of Hloop with case_loop _ ?fr ?c0 = _ =>
    set (f := fr) in *; set (c0' := c0) in *
  end.
  assert (loop_inv f c0') as Hinv.
  { unfold loop_inv, pair_ok. subst f c0'. simpl.
    repeat split; try done; try lra. }
  exists f. split; [reflexivity|]. split; [|split].
  - simpl. lra.
  - apply (case_loop_inv case_fuel f c0' c HC Hinv Hloop).
  - destruct (case_loop_returns case_fuel f c0') as (c' & Hc' & Hfin).
    + unfold case_fuel. pose proof (flags_set_le_4 c0'). lia.
    + congruence.
Qed.

Lemma take_step_inv (s s' : state) (i1 i2 : Z) (r : bool) :
  reg_inv s -> _take_step s i1 i2 = Ok (r, s') -> reg_inv s'.
Proof.
  intros Hinv Hstep. unfold _take_step in Hstep.
  destruct (i1 =? i2)%Z; [by injection Hstep as <- <-|].
  inv_bind_as Hstep p Hsolve.
  destruct (negb _); [by injection Hstep as <- <-|].
  destruct (solve_final s i1 i2 p Hinv Hsolve)
    as (f & HfC & _ & (Hok & _) & _).
  destruct Hinv as [HC HF].
  apply commit_alphas in Hstep as (_ & HC' & ap & an & Hp1 & Hp2 & Hn1 & Hn2).
  destruct Hok as (B1p & B1n & B2p & B2n & Z1 & Z2 & _).
  rewrite HfC in *.
  split; [by rewrite HC'|]. rewrite HC'.
  eapply Forall2_setitem; [| |exact Hp2 | exact Hn2].
  - eapply Forall2_setitem; [exact HF| |exact Hp1 | exact Hn1].
    apply snap_entry; [done|]. unfold reg_entry. tauto.
  - apply snap_entry; [done|]. unfold reg_entry. tauto.
Qed.

Lemma error_of_frame (s s' : state) (i2 : Z) (E : Q) :
  error_of s i2 = Ok (E, s') ->
  C s' = C s /\ alphas_p s' = alphas_p s /\ alphas_n s' = alphas_n s.
Proof.
  unfold error_of. intros He.
  destruct (mem i2 (I0 s)).
  - inv_bind He. by injection He as <- <-.
  - inv_bind He. inv_bind He. inv_bind He. inv_bind He. inv_bind He.
    simpl in He.
    repeat match type of He with
    | (if ?b then _ else _) = _ => destruct b
    end; by injection He as <- <-.
Qed.

Lemma examine_example_inv (s s' : state) (i2 : Z) (r : bool) :
  reg_inv s -> _examine_example s i2 = Ok (r, s') -> reg_inv s'.
Proof.
  intros Hinv Hex. unfold _examine_example in Hex.
  inv_bind Hex. inv_bind Hex.
  inv_bind_as Hex es Herr. destruct es as [E s1].
  apply error_of_frame in Herr as (HC & Hp & Hn).
  assert (reg_inv s1) as Hinv1.
  { unfold reg_inv. by rewrite HC, Hp, Hn. }
  inv_bind_as Hex oi Hopt. destruct oi as [optimal i1].
  destruct optimal; [by injection Hex as <- <-|].
  by eapply take_step_inv.
Qed.

End RegressionInvariant.

(** ** The engines between two pair updates *)

Section Reachable.

Lemma Forall2_replicate_same {A B : Type} (P : A -> B -> Prop)
    (n : nat) (a : A) (b : B) :
  P a b -> Forall2 P (replicate n a) (replicate n b).
Proof. intros Hab. induction n; simpl; constructor; auto. Qed.

Lemma svr_init_inv (X : list (list Q)) (y : list Q) (K : list (list Q))
    (kernel : string) (C epsilon tol : Q) (s0 : SVR.SMORegression.state) :
  0 <= C ->
  SVR.SMORegression.__init__ X y K kernel C epsilon tol = Ok s0 ->
  reg_inv s0.
Proof.
  intros HC Hinit. unfold SVR.SMORegression.__init__ in Hinit.
  inv_bind Hinit. injection Hinit as <-.
  split; simpl; [done|].
  apply Forall2_replicate_same. unfold reg_entry.
  repeat split; lra.
Qed.

Lemma svr_reach_inv (s0 s : SVR.SMORegression.state) :
  reg_inv s0 -> svr_reach s0 s -> reg_inv s.
Proof.
  intros Hinv Hreach. induction Hreach as [|s s' i1 i2 r _ IH Hstep|s s' i2 r _ IH Hex].
  - done.
  - by eapply take_step_inv.
  - by eapply examine_example_inv.
Qed.

(** The sweeps and the loop of the regression driver only go through
    such engines. *)
Lemma svr_sweep_all_reach (s0 : SVR.SMORegression.state) (idxs : list Z)
    (s s' : SVR.SMORegression.state) (n n' : nat) :
  svr_reach s0 s ->
  for_each idxs
    (fun '(n, s) i =>
       do '(r, s) <- SVR.SMORegression._examine_example s i ;
       Ok ((n + Nat.b2n r)%nat, s))
    (n, s) = Ok (n', s') ->
  svr_reach s0 s'.
Proof.
  revert s n. induction idxs as [|i idxs IH]; intros s n Hreach Hrun; simpl in Hrun.
  - by injection Hrun as <- <-.
  - inv_bind_as Hrun ns Hbody. inv_bind_as Hbody rs Hex.
    destruct rs as [r s1]. injection Hbody as <-.
    eapply IH; [|exact Hrun]. by eapply svr_reach_examine.
Qed.

Lemma svr_sweep_active_reach (s0 : SVR.SMORegression.state) (idxs : list Z)
    (s s' : SVR.SMORegression.state) (n n' : nat) :
  svr_reach s0 s ->
  SVR.SMORegression.sweep_active idxs s n = Ok (n', s') ->
  svr_reach s0 s'.
Proof.
  revert s n. induction idxs as [|i idxs IH]; intros s n Hreach Hrun; simpl in Hrun.
  - by injection Hrun as <- <-.
  - inv_bind_as Hrun free Hfree. destruct free; [|by eapply IH].
    inv_bind_as Hrun rs Hex. destruct rs as [r s1].
    assert (svr_reach s0 s1) by (by eapply svr_reach_examine).
    destruct (ltb _ _); [by injection Hrun as <- <-|]. by eapply IH.
Qed.

Lemma svr_loop_reach (fuel : nat) (s0 : SVR.SMORegression.state)
    (d d' : SVR.SMORegression.driver) :
  svr_reach s0 (SVR.SMORegression.engine d) ->
  SVR.SMORegression.loop fuel d = Ok d' ->
  svr_reach s0 (SVR.SMORegression.engine d').
Proof.
  revert d. induction fuel as [|fuel IH]; intros d Hreach Hrun; simpl in Hrun.
  - destruct (SVR.SMORegression.running d); [discriminate|].
    by injection Hrun as <-.
  - destruct (SVR.SMORegression.running d); [|by injection Hrun as <-].
    inv_bind_as Hrun d1 Hit. eapply IH; [|exact Hrun].
    unfold SVR.SMORegression.iteration in Hit.
    inv_bind_as Hit ns Hsweep. destruct ns as [n s1].
    injection Hit as <-. simpl.
    destruct (SVR.SMORegression.examine_all d).
    + by eapply svr_sweep_all_reach.
    + by eapply svr_sweep_active_reach.
Qed.

End Reachable.

(** ** Termination of the case loop *)

Section CaseLoop.
Import SVR.SMORegression.

Lemma bind_fuel {A B : Type} (m : res A) (k : A -> res B) :
  m <> OutOfFuel -> (forall a, k a <> OutOfFuel) -> bind m k <> OutOfFuel.
Proof. destruct m; simpl; [auto | discriminate | done]. Qed.

Lemma solve_terminates (s : state) (i1 i2 : Z) : solve s i1 i2 <> OutOfFuel.
Proof.
  unfold solve.
  repeat (apply bind_fuel;
          [first [apply getitem_fuel | apply getitem2_fuel] | intros ?]).
  apply bind_fuel; [|discriminate].
  match goal with
  | |- case_loop _ ?f ?c <> _ =>
      destruct (case_loop_returns case_fuel f c) as (c' & -> & _);
      [|discriminate]
  end.
  unfold case_fuel. simpl. lia.
Qed.

Lemma fires_branch (f : frame) (c : cases) :
  (fires 1 f c = true -> branch f c = do_case1 f c) /\
  (fires 2 f c = true -> branch f c = do_case2 f c) /\
  (fires 3 f c = true -> branch f c = do_case3 f c) /\
  (fires 4 f c = true -> branch f c = do_case4 f c) /\
  (fires 1 f c = false -> fires 2 f c = false ->
   fires 3 f c = false -> fires 4 f c = false ->
   finished (branch f c) = true).
Proof.
  unfold fires, branch.
  destruct (guard1 f c), (guard2 f c), (guard3 f c), (guard4 f c);
    simpl; repeat split; try discriminate; auto.
Qed.

Lemma fired_for_good (k n : nat) (f : frame) (c : cases) :
  flag k c = true ->
  flag k (Nat.iter n (case_step f) c) = true /\
  fires k f (Nat.iter n (case_step f) c) = false.
Proof.
  intros Hk.
  assert (flag k (Nat.iter n (case_step f) c) = true) as Hn.
  { induction n as [|n IH]; [done|]. cbn [Nat.iter].
    by apply case_step_keeps_flag. }
  split; [done|].
  destruct (fires k f (Nat.iter n (case_step f) c)) eqn:Hf; [|done].
  apply fires_sets_flag in Hf as [Hf _]. congruence.
Qed.

(** C9: the [while] loop of the regression [_take_step] ends, so that the
    read-only part of [_take_step] never runs out of the iterations the
    model allows it.  The chain of the loop body takes the first case whose
    guard holds, or sets [finished] when none does.  A case that fires had
    not fired before and never fires again.  In every engine a run can go
    through, the loop is over with at most three of the four cases
    fired. *)
Theorem C9_case_loop_terminates :
  (forall f c,
     exists c', case_loop case_fuel f c = Ok c' /\ finished c' = true) /\
  (forall s i1 i2, solve s i1 i2 <> OutOfFuel) /\
  (forall f c,
     (fires 1 f c = true -> branch f c = do_case1 f c) /\
     (fires 2 f c = true -> branch f c = do_case2 f c) /\
     (fires 3 f c = true -> branch f c = do_case3 f c) /\
     (fires 4 f c = true -> branch f c = do_case4 f c) /\
     (fires 1 f c = false -> fires 2 f c = false ->
      fires 3 f c = false -> fires 4 f c = false ->
      finished (branch f c) = true)) /\
  (forall k f c,
     fires k f c = true ->
     flag k c = false /\
     forall n,
       flag k (Nat.iter (S n) (case_step f) c) = true /\
       fires k f (Nat.iter (S n) (case_step f) c) = false) /\
  (forall X y K kernel C epsilon tol s0 s i1 i2 p,
     0 <= C ->
     __init__ X y K kernel C epsilon tol = Ok s0 ->
     svr_reach s0 s ->
     solve s i1 i2 = Ok p ->
     finished (final p) = true /\ (flags_set (final p) <= 3)%nat).
Proof.
  split; [|split; [|split; [|split]]].
  - intros f c. apply case_loop_returns. unfold case_fuel.
    pose proof (flags_set_le_4 c). lia.
  - apply solve_terminates.
  - apply fires_branch.
  - intros k f c Hf. apply fires_sets_flag in Hf as [Hbefore Hafter].
    split; [done|]. intros n.
    rewrite Nat.iter_succ_r. by apply fired_for_good.
  - intros X y K kernel C epsilon tol s0 s i1 i2 p HC Hinit Hreach Hsolve.
    assert (reg_inv s) as Hinv.
    { eapply svr_reach_inv; [|exact Hreach]. by eapply svr_init_inv. }
    destruct (solve_final s i1 i2 p Hinv Hsolve) as (f & _ & _ & Hloop & Hfin).
    split; [done|]. by eapply loop_inv_three.
Qed.

(** On the trained regression sample a further step on the pair [(0, 1)]
    goes through case 3 only. *)
Lemma C9_case_loop_terminates_witness :
  exists s0 d p,
    Samples.svr_init = Ok s0 /\
    loop 10 (start s0) = Ok d /\
    solve (engine d) 0 1 = Ok p /\
    flags_set (final p) = 1%nat /\
    finished (final p) = true /\ (flags_set (final p) <= 3)%nat.
Proof.
  eexists. eexists. eexists.
  split; [vm_compute; reflexivity|].
  match goal with |- loop _ (start ?s) = _ /\ _ => set (s0 := s) end.
  split; [vm_compute; reflexivity|].
  match goal with |- solve (engine ?d) _ _ = _ /\ _ => set (d0 := d) end.
  split; [vm_compute; reflexivity|].
  split; [vm_compute; reflexivity|].
  match goal with |- finished (final ?p) = _ /\ _ => set (p0 := p) end.
  assert (Hloop : loop 10 (start s0) = Ok d0) by (vm_compute; reflexivity).
  assert (Hinit : __init__ Samples.svr_X Samples.svr_y Samples.svr_K
            "linear"%string 1 (1 # 10) (1 # 1000) = Ok s0)
    by (vm_compute; reflexivity).
  assert (Hsolve : solve (engine d0) 0 1 = Ok p0) by (vm_compute; reflexivity).
  assert (HC : 0 <= 1) by discriminate.
  exact (proj2 (proj2 (proj2 (proj2 C9_case_loop_terminates)))
           Samples.svr_X Samples.svr_y Samples.svr_K "linear"%string
           1 (1 # 10) (1 # 1000) s0 (engine d0) 0%Z 1%Z p0 HC Hinit
           (svr_loop_reach 10 s0 (start s0) d0 (svr_reach_init s0) Hloop)
           Hsolve).
Defined.

End CaseLoop.

(** ** What a classification step changes *)

Section ClassificationCommit.
Import SVC.SMOClassifier.

Lemma svc_update_weight_frame (s s' : state) (i1 i2 : Z) (d1 d2 : Q) :
  update_weight s i1 i2 d1 d2 = Ok s' ->
  C s' = C s /\ alphas s' = alphas s /\ y s' = y s.
Proof.
  unfold update_weight. intros Hu.
  destruct (String.eqb _ _); [|by injection Hu as <-].
  inv_bind Hu. inv_bind Hu. inv_bind Hu.
  destruct (w s); [|discriminate]. inv_bind Hu. by injection Hu as <-.
Qed.

Lemma svc_update_errors_frame (s s' : state) (i1 i2 : Z) (p : plan) (d1 d2 : Q) :
  update_errors s i1 i2 p d1 d2 = Ok s' ->
  C s' = C s /\ alphas s' = alphas s /\ y s' = y s.
Proof.
  unfold update_errors. intros Hu.
  inv_bind Hu. inv_bind Hu. inv_bind Hu. inv_bind Hu. inv_bind Hu.
  by injection Hu as <-.
Qed.

Lemma svc_update_sets_frame (s s' : state) (i : Z) :
  update_sets s i = Ok s' ->
  C s' = C s /\ alphas s' = alphas s /\ y s' = y s.
Proof.
  unfold update_sets. intros Hu. inv_bind Hu. inv_bind Hu.
  by injection Hu as <-.
Qed.

Lemma svc_update_thresholds_frame (s s' : state) (i1 i2 : Z) :
  update_thresholds s i1 i2 = Ok s' ->
  C s' = C s /\ alphas s' = alphas s /\ y s' = y s.
Proof.
  unfold update_thresholds. intros Hu.
  inv_bind Hu. inv_bind Hu. inv_bind Hu.
  by injection Hu as <-.
Qed.

(** A successful [commit] returns [True]; it leaves [C] and the labels
    alone and writes the snapped [a1] at [i1], then the snapped [a2] at
    [i2]. *)
Lemma svc_commit_alphas (s s' : state) (i1 i2 : Z) (p : plan) (r : bool) :
  commit s i1 i2 p = Ok (r, s') ->
  r = true /\ C s' = C s /\ y s' = y s /\
  exists al,
    setitem (alphas s) i1 (snap (C s) (new_alpha1 p)) = Ok al /\
    setitem al i2 (snap (C s) (a2 p)) = Ok (alphas s').
Proof.
  unfold commit. intros Hc.
  inv_bind_as Hc s1 Hw. apply svc_update_weight_frame in Hw as (HC1 & Ha1 & Hy1).
  inv_bind_as Hc s2 He. apply svc_update_errors_frame in He as (HC2 & Ha2 & Hy2).
  inv_bind_as Hc s3 Hal.
  inv_bind_as Hc s4 Hs1. apply svc_update_sets_frame in Hs1 as (HC4 & Ha4 & Hy4).
  inv_bind_as Hc s5 Hs2. apply svc_update_sets_frame in Hs2 as (HC5 & Ha5 & Hy5).
  inv_bind_as Hc s6 Ht.
  apply svc_update_thresholds_frame in Ht as (HC6 & Ha6 & Hy6).
  destruct (_ || _); [discriminate|]. injection Hc as <- <-.
  unfold update_alphas in Hal.
  inv_bind_as Hal al Hal1. inv_bind_as Hal al' Hal2.
  injection Hal as <-. simpl in *.
  rewrite HC2, HC1 in *. rewrite Ha2, Ha1 in *.
  split; [done|]. split; [congruence|]. split; [congruence|].
  exists al. split; congruence.
Qed.

End ClassificationCommit.

(** ** The invariant of the classification engine *)

Section ClassificationInvariant.
Import SVC.SMOClassifier.

Lemma Forall_getitem {A : Type} (P : A -> Prop) (l : list A) (i : Z) (a : A) :
  Forall P l -> getitem l i = Ok a -> P a.
Proof.
  intros HF (k & _ & Ha)%getitem_Ok.
  eapply Forall_lookup_1; eauto.
Qed.

Lemma Forall_setitem {A : Type} (P : A -> Prop) (l l' : list A) (i : Z) (a : A) :
  Forall P l -> P a -> setitem l i a = Ok l' -> Forall P l'.
Proof.
  intros HF Ha (k & _ & ->)%setitem_Ok. by apply Forall_insert.
Qed.

Lemma svc_snap_box (C a : Q) : 0 <= C -> in_box C a -> in_box C (snap C a).
Proof.
  intros HC [? ?]. unfold in_box, snap. cmp; lra.
Qed.

(** The product of the two labels, as [bounds] tells them apart. *)
Lemma label_product (u v : Q) :
  is_label u -> is_label v ->
  (eqb u v = false /\ u * v == -1) \/ (eqb u v = true /\ u * v == 1).
Proof.
  intros [Hu | Hu] [Hv | Hv].
  - right. split; [apply eqb_eq; lra | rewrite Hu, Hv; reflexivity].
  - left. split; [apply eqb_neq; lra | rewrite Hu, Hv; reflexivity].
  - left. split; [apply eqb_neq; lra | rewrite Hu, Hv; reflexivity].
  - right. split; [apply eqb_eq; lra | rewrite Hu, Hv; reflexivity].
Qed.

(** The new pair is in the box, and on the line the old pair was on. *)
Lemma plan_new_pair (s : state) (i1 i2 : Z) (p : plan) :
  cls_inv s -> plan_of s i1 i2 p ->
  in_box (C s) (new_alpha1 p) /\ in_box (C s) (a2 p) /\
  y1 p * new_alpha1 p + y2 p * a2 p == y1 p * alpha1 p + y2 p * alpha2 p.
Proof.
  intros (HC & Hbox & Hlab)
    (H1 & Hy1 & _ & H2 & Hy2 & _ & Hb & _ & _ & _ & _ & _ & Ha2).
  pose proof (Forall_getitem _ _ _ _ Hbox H1) as [? ?].
  pose proof (Forall_getitem _ _ _ _ Hbox H2) as [? ?].
  pose proof (Forall_getitem _ _ _ _ Hlab Hy1) as L1.
  pose proof (Forall_getitem _ _ _ _ Hlab Hy2) as L2.
  assert (L p <= alpha2 p <= H p /\ L p <= H p /\
          ((y1 p * y2 p == -1 /\ alpha2 p - alpha1 p <= L p /\
            H p <= C s + alpha2 p - alpha1 p)
           \/ (y1 p * y2 p == 1 /\ alpha2 p + alpha1 p - C s <= L p /\
               H p <= alpha2 p + alpha1 p)) /\
          0 <= L p /\ H p <= C s) as (Hin & HLH & Hline & HL & HH).
  { unfold bounds in Hb.
    destruct (label_product _ _ L1 L2) as [[E Hs] | [E Hs]];
      rewrite E in Hb; simpl in Hb; injection Hb as <- <-.
    - destruct (py_max_cases 0 (alpha2 p - alpha1 p)) as [[? ->] | [? ->]];
        destruct (py_min_cases (C s) (C s + alpha2 p - alpha1 p))
          as [[? ->] | [? ->]];
        (split; [lra|]); (split; [lra|]); (split; [left|]); repeat split; lra.
    - destruct (py_max_cases 0 (alpha2 p + alpha1 p - C s)) as [[? ->] | [? ->]];
        destruct (py_min_cases (C s) (alpha2 p + alpha1 p))
          as [[? ->] | [? ->]];
        (split; [lra|]); (split; [lra|]); (split; [right|]); repeat split; lra. }
  assert (L p <= a2 p <= H p) as Hnew.
  { rewrite Ha2. unfold new_alpha2. destruct (ltb 0 (eta p)).
    - by apply clip_bounds.
    - repeat match goal with
      | |- context [if ?b then _ else _] => destruct b
      end; lra. }
  unfold in_box, new_alpha1.
  assert (is_label (y1 p)) as [Hu | Hu] by done;
    destruct Hline as [(Hs & ? & ?) | (Hs & ? & ?)];
    rewrite Hs; rewrite ?Hu; repeat split; try lra.
  all: assert (y2 p == -1 \/ y2 p == 1) as [Hv | Hv]
         by (destruct L2; [right | left]; done);
       rewrite Hv in *; lra.
Qed.

End ClassificationInvariant.

Section ClassificationReachable.
Import SVC.SMOClassifier.

Lemma svc_take_step_inv (s s' : state) (i1 i2 : Z) (r : bool) :
  cls_inv s -> _take_step s i1 i2 = Ok (r, s') -> cls_inv s'.
Proof.
  intros Hinv Hstep. unfold _take_step in Hstep.
  destruct (i1 =? i2)%Z; [by injection Hstep as <- <-|].
  inv_bind_as Hstep op Hsolve.
  destruct op as [p|]; [|by injection Hstep as <- <-].
  destruct (negligible _ _); [by injection Hstep as <- <-|].
  apply solve_Some in Hsolve.
  destruct (plan_new_pair s i1 i2 p Hinv Hsolve) as (B1 & B2 & _).
  destruct Hinv as (HC & Hbox & Hlab).
  apply svc_commit_alphas in Hstep as (_ & HC' & Hy' & al & Hw1 & Hw2).
  unfold cls_inv. rewrite HC', Hy'. repeat split; try done.
  eapply Forall_setitem; [| |exact Hw2].
  - eapply Forall_setitem; [exact Hbox| |exact Hw1]. by apply svc_snap_box.
  - by apply svc_snap_box.
Qed.

Lemma svc_error_of_frame (s s' : state) (i2 : Z) (E : Q) :
  error_of s i2 = Ok (E, s') ->
  C s' = C s /\ alphas s' = alphas s /\ y s' = y s.
Proof.
  unfold error_of. intros He.
  destruct (mem i2 (I0 s)).
  - inv_bind He. by injection He as <- <-.
  - inv_bind He. inv_bind He. inv_bind He. inv_bind He. inv_bind He.
    simpl in He.
    repeat match type of He with
    | (if ?b then _ else _) = _ => destruct b
    end; by injection He as <- <-.
Qed.

Lemma svc_examine_example_inv (s s' : state) (i2 : Z) (r : bool) :
  cls_inv s -> _examine_example s i2 = Ok (r, s') -> cls_inv s'.
Proof.
  intros Hinv Hex. unfold _examine_example in Hex.
  inv_bind_as Hex es Herr. destruct es as [E s1].
  apply svc_error_of_frame in Herr as (HC & Ha & Hy).
  assert (cls_inv s1) as Hinv1.
  { unfold cls_inv. by rewrite HC, Ha, Hy. }
  destruct (check_optimality s1 i2 E) as [optimal i1].
  destruct optimal; [by injection Hex as <- <-|].
  destruct (_ =? -1)%Z; [discriminate|].
  by eapply svc_take_step_inv.
Qed.

Lemma svc_init_inv (X : list (list Q)) (y : list Q) (K : list (list Q))
    (kernel : string) (C tol : Q) (s0 : state) :
  0 <= C -> Forall is_label y ->
  __init__ X y K kernel C tol = Ok s0 -> cls_inv s0.
Proof.
  intros HC Hlab Hinit. unfold __init__ in Hinit.
  inv_bind Hinit. inv_bind Hinit. inv_bind Hinit. inv_bind Hinit.
  inv_bind Hinit. inv_bind Hinit. injection Hinit as <-.
  unfold cls_inv. simpl. repeat split; try done.
  apply Forall_replicate. unfold in_box. lra.
Qed.

Lemma svc_reach_inv (s0 s : state) :
  cls_inv s0 -> svc_reach s0 s -> cls_inv s.
Proof.
  intros Hinv Hreach.
  induction Hreach as [|s s' i1 i2 r _ IH Hstep|s s' i2 r _ IH Hex].
  - done.
  - by eapply svc_take_step_inv.
  - by eapply svc_examine_example_inv.
Qed.

Lemma svc_sweep_all_reach (s0 : state) (idxs : list Z)
    (s s' : state) (n n' : nat) :
  svc_reach s0 s ->
  for_each idxs
    (fun '(n, s) i =>
       do '(r, s) <- _examine_example s i ;
       Ok ((n + Nat.b2n r)%nat, s))
    (n, s) = Ok (n', s') ->
  svc_reach s0 s'.
Proof.
  revert s n. induction idxs as [|i idxs IH]; intros s n Hreach Hrun; simpl in Hrun.
  - by injection Hrun as <- <-.
  - inv_bind_as Hrun ns Hbody. inv_bind_as Hbody rs Hex.
    destruct rs as [r s1]. injection Hbody as <-.
    eapply IH; [|exact Hrun]. by eapply svc_reach_examine.
Qed.

Lemma svc_sweep_active_reach (s0 : state) (idxs : list Z)
    (s s' : state) (n n' : nat) :
  svc_reach s0 s ->
  sweep_active idxs s n = Ok (n', s') ->
  svc_reach s0 s'.
Proof.
  revert s n. induction idxs as [|i idxs IH]; intros s n Hreach Hrun; simpl in Hrun.
  - by injection Hrun as <- <-.
  - inv_bind_as Hrun a Ha. destruct (inside _ _); [|by eapply IH].
    inv_bind_as Hrun rs Hex. destruct rs as [r s1].
    assert (svc_reach s0 s1) by (by eapply svc_reach_examine).
    destruct (ltb _ _); [by injection Hrun as <- <-|]. by eapply IH.
Qed.

Lemma svc_loop_reach (fuel : nat) (s0 : state) (d d' : driver) :
  svc_reach s0 (engine d) -> loop fuel d = Ok d' -> svc_reach s0 (engine d').
Proof.
  revert d. induction fuel as [|fuel IH]; intros d Hreach Hrun; simpl in Hrun.
  - destruct (running d); [discriminate|]. by injection Hrun as <-.
  - destruct (running d); [|by injection Hrun as <-].
    inv_bind_as Hrun d1 Hit. eapply IH; [|exact Hrun].
    unfold iteration in Hit.
    inv_bind_as Hit ns Hsweep. destruct ns as [n s1].
    injection Hit as <-. simpl.
    destruct (examine_all d).
    + by eapply svc_sweep_all_reach.
    + by eapply svc_sweep_active_reach.
Qed.

End ClassificationReachable.

(** ** The box invariant *)

Section BoxInvariant.

Lemma svc_step_C (s s' : SVC.SMOClassifier.state) (i1 i2 : Z) (r : bool) :
  SVC.SMOClassifier._take_step s i1 i2 = Ok (r, s') ->
  SVC.SMOClassifier.C s' = SVC.SMOClassifier.C s.
Proof.
  intros Hstep. unfold SVC.SMOClassifier._take_step in Hstep.
  destruct (i1 =? i2)%Z; [by injection Hstep as <- <-|].
  inv_bind_as Hstep op Hsolve.
  destruct op as [p|]; [|by injection Hstep as <- <-].
  destruct (SVC.SMOClassifier.negligible _ _); [by injection Hstep as <- <-|].
  by apply svc_commit_alphas in Hstep as (_ & HC' & _).
Qed.

Lemma svc_examine_C (s s' : SVC.SMOClassifier.state) (i2 : Z) (r : bool) :
  SVC.SMOClassifier._examine_example s i2 = Ok (r, s') ->
  SVC.SMOClassifier.C s' = SVC.SMOClassifier.C s.
Proof.
  intros Hex. unfold SVC.SMOClassifier._examine_example in Hex.
  inv_bind_as Hex es Herr. destruct es as [E s1].
  apply svc_error_of_frame in Herr as (HC & _).
  destruct (SVC.SMOClassifier.check_optimality s1 i2 E) as [optimal i1].
  destruct optimal; [injection Hex as <- <-; done|].
  destruct (_ =? -1)%Z; [discriminate|].
  apply svc_step_C in Hex. congruence.
Qed.

Lemma svc_reach_C (s0 s : SVC.SMOClassifier.state) :
  svc_reach s0 s -> SVC.SMOClassifier.C s = SVC.SMOClassifier.C s0.
Proof.
  induction 1 as [|s s' i1 i2 r _ IH Hstep|s s' i2 r _ IH Hex].
  - done.
  - apply svc_step_C in Hstep. congruence.
  - apply svc_examine_C in Hex. congruence.
Qed.

Lemma svr_step_C (s s' : SVR.SMORegression.state) (i1 i2 : Z) (r : bool) :
  SVR.SMORegression._take_step s i1 i2 = Ok (r, s') ->
  SVR.SMORegression.C s' = SVR.SMORegression.C s.
Proof.
  intros Hstep. unfold SVR.SMORegression._take_step in Hstep.
  destruct (i1 =? i2)%Z; [by injection Hstep as <- <-|].
  inv_bind_as Hstep p Hsolve.
  destruct (negb _); [by injection Hstep as <- <-|].
  by apply commit_alphas in Hstep as (_ & HC' & _).
Qed.

Lemma svr_examine_C (s s' : SVR.SMORegression.state) (i2 : Z) (r : bool) :
  SVR.SMORegression._examine_example s i2 = Ok (r, s') ->
  SVR.SMORegression.C s' = SVR.SMORegression.C s.
Proof.
  intros Hex. unfold SVR.SMORegression._examine_example in Hex.
  inv_bind Hex. inv_bind Hex.
  inv_bind_as Hex es Herr. destruct es as [E s1].
  apply error_of_frame in Herr as (HC & _).
  inv_bind_as Hex oi Hopt. destruct oi as [optimal i1].
  destruct optimal; [injection Hex as <- <-; done|].
  apply svr_step_C in Hex. congruence.
Qed.

Lemma svr_reach_C (s0 s : SVR.SMORegression.state) :
  svr_reach s0 s -> SVR.SMORegression.C s = SVR.SMORegression.C s0.
Proof.
  induction 1 as [|s s' i1 i2 r _ IH Hstep|s s' i2 r _ IH Hex].
  - done.
  - apply svr_step_C in Hstep. congruence.
  - apply svr_examine_C in Hex. congruence.
Qed.

Lemma reg_entries_box (C : Q) (ps ns : list Q) :
  Forall2 (reg_entry C) ps ns ->
  Forall (in_box C) ps /\ Forall (in_box C) ns.
Proof.
  induction 1 as [|p n ps ns (Hp & Hn & _) _ [IHp IHn]].
  - split; constructor.
  - split; constructor; done.
Qed.

(** C1: in every engine a training run goes through (the one [__init__]
    builds, and the one returned by any call of [_take_step] or
    [_examine_example] made from such an engine), and in the engine [smo]
    returns, every multiplier is in [[0, C]]: [alphas] for classification
    with labels [+1]/[-1], [alphas_p] and [alphas_n] for regression; the
    bound [C >= 0] is the one the engine was built with. *)
Theorem C1_box_invariant :
  (forall X y K kernel C tol s0 s,
     0 <= C -> Forall is_label y ->
     SVC.SMOClassifier.__init__ X y K kernel C tol = Ok s0 ->
     (svc_reach s0 s \/ exists fuel, SVC.SMOClassifier.smo fuel s0 = Ok s) ->
     SVC.SMOClassifier.C s = C /\
     Forall (in_box C) (SVC.SMOClassifier.alphas s)) /\
  (forall X y K kernel C epsilon tol s0 s,
     0 <= C ->
     SVR.SMORegression.__init__ X y K kernel C epsilon tol = Ok s0 ->
     (svr_reach s0 s \/ exists fuel, SVR.SMORegression.smo fuel s0 = Ok s) ->
     SVR.SMORegression.C s = C /\
     Forall (in_box C) (SVR.SMORegression.alphas_p s) /\
     Forall (in_box C) (SVR.SMORegression.alphas_n s)).
Proof.
  split.
  - intros X y K kernel C tol s0 s HC Hlab Hinit Hrun.
    pose proof (svc_init_inv _ _ _ _ _ _ _ HC Hlab Hinit) as Hinv0.
    assert (SVC.SMOClassifier.C s0 = C) as HC0.
    { unfold SVC.SMOClassifier.__init__ in Hinit.
      inv_bind Hinit. inv_bind Hinit. inv_bind Hinit. inv_bind Hinit.
      inv_bind Hinit. inv_bind Hinit. by injection Hinit as <-. }
    assert (exists s1, svc_reach s0 s1 /\
              SVC.SMOClassifier.C s = SVC.SMOClassifier.C s1 /\
              SVC.SMOClassifier.alphas s = SVC.SMOClassifier.alphas s1)
      as (s1 & Hreach & -> & ->).
    { destruct Hrun as [Hreach | [fuel Hsmo]]; [by exists s|].
      unfold SVC.SMOClassifier.smo in Hsmo.
      inv_bind_as Hsmo d Hloop. injection Hsmo as <-.
      exists (SVC.SMOClassifier.engine d). split; [|done].
      eapply svc_loop_reach; [|exact Hloop]. apply svc_reach_init. }
    pose proof (svc_reach_inv _ _ Hinv0 Hreach) as (_ & Hbox & _).
    rewrite (svc_reach_C _ _ Hreach), HC0 in *. done.
  - intros X y K kernel C epsilon tol s0 s HC Hinit Hrun.
    pose proof (svr_init_inv _ _ _ _ _ _ _ _ HC Hinit) as Hinv0.
    assert (SVR.SMORegression.C s0 = C) as HC0.
    { unfold SVR.SMORegression.__init__ in Hinit.
      inv_bind Hinit. by injection Hinit as <-. }
    assert (exists s1, svr_reach s0 s1 /\
              SVR.SMORegression.C s = SVR.SMORegression.C s1 /\
              SVR.SMORegression.alphas_p s = SVR.SMORegression.alphas_p s1 /\
              SVR.SMORegression.alphas_n s = SVR.SMORegression.alphas_n s1)
      as (s1 & Hreach & -> & -> & ->).
    { destruct Hrun as [Hreach | [fuel Hsmo]]; [by exists s|].
      unfold SVR.SMORegression.smo in Hsmo.
      inv_bind_as Hsmo d Hloop. injection Hsmo as <-.
      exists (SVR.SMORegression.engine d). split; [|done].
      eapply svr_loop_reach; [|exact Hloop]. apply svr_reach_init. }
    pose proof (svr_reach_inv _ _ Hinv0 Hreach) as (_ & Hent).
    rewrite (svr_reach_C _ _ Hreach), HC0 in *.
    split; [done|]. by apply reg_entries_box.
Qed.

(** Both trained samples have their multipliers in the box [[0, 1]]. *)
Lemma C1_box_invariant_witness :
  (exists s, Samples.svc_trained = Ok s /\
     Forall (in_box 1) (SVC.SMOClassifier.alphas s)) /\
  (exists s, Samples.svr_trained = Ok s /\
     Forall (in_box 1) (SVR.SMORegression.alphas_p s) /\
     Forall (in_box 1) (SVR.SMORegression.alphas_n s)).
Proof.
  destruct C1_box_invariant as [Hsvc Hsvr]. split.
  - eexists. split; [vm_compute; reflexivity|].
    match goal with
    | |- Forall _ (SVC.SMOClassifier.alphas ?s) => set (s1 := s)
    end.
    match eval vm_compute in Samples.svc_init with
    | Ok ?s =>
        refine (proj2 (Hsvc Samples.svc_X Samples.svc_y Samples.svc_K
                         "linear"%string 1 (1 # 1000) s s1 _ _ _ _))
    end.
    + discriminate.
    + unfold Samples.svc_y, is_label.
      repeat constructor; (by left) || (by right).
    + vm_compute; reflexivity.
    + right. exists 10%nat. vm_compute; reflexivity.
  - eexists. split; [vm_compute; reflexivity|].
    match goal with
    | |- Forall _ (SVR.SMORegression.alphas_p ?s) /\ _ => set (s1 := s)
    end.
    match eval vm_compute in Samples.svr_init with
    | Ok ?s =>
        refine (proj2 (Hsvr Samples.svr_X Samples.svr_y Samples.svr_K
                         "linear"%string 1 (1 # 10) (1 # 1000) s s1 _ _ _))
    end.
    + discriminate.
    + vm_compute; reflexivity.
    + right. exists 10%nat. vm_compute; reflexivity.
Defined.

End BoxInvariant.

(** ** Precision snapping *)

Section Snapping.

Lemma getitem_setitem_eq {A : Type} (l l' : list A) (i : Z) (v : A) :
  setitem l i v = Ok l' -> getitem l' i = Ok v.
Proof.
  intros (k & Hk & ->)%setitem_Ok. unfold getitem.
  rewrite length_insert, Hk.
  rewrite list_lookup_insert_eq; [done|]. by eapply norm_index_lt.
Qed.

Lemma getitem_setitem_ne {A : Type} (l l' : list A) (i j : Z) (v : A) :
  setitem l i v = Ok l' ->
  norm_index (length l) j <> norm_index (length l) i ->
  getitem l' j = getitem l j.
Proof.
  intros (k & Hk & ->)%setitem_Ok Hne. unfold getitem.
  rewrite length_insert.
  destruct (norm_index (length l) j) as [k'|]; [|done].
  rewrite list_lookup_insert_ne; [done|]. congruence.
Qed.

Lemma svc_snap_spec (C a : Q) :
  0 < C -> snapped_to (e_8 * C) C a (SVC.SMOClassifier.snap C a).
Proof.
  intros HC. unfold snapped_to, SVC.SMOClassifier.snap, e_8.
  repeat split; intros; cmp; try reflexivity; exfalso; lra.
Qed.

Lemma svr_snap_spec (C a : Q) :
  0 < C -> snapped_to (e_10 * C) C a (SVR.SMORegression.snap C a).
Proof.
  intros HC. unfold snapped_to, SVR.SMORegression.snap, e_10.
  repeat split; intros; cmp; simpl; try reflexivity; exfalso; lra.
Qed.

Lemma svc_step_true (s s' : SVC.SMOClassifier.state) (i1 i2 : Z) :
  SVC.SMOClassifier._take_step s i1 i2 = Ok (true, s') ->
  exists p,
    SVC.SMOClassifier.solve s i1 i2 = Ok (Some p) /\
    SVC.SMOClassifier.negligible
      (SVC.SMOClassifier.a2 p) (SVC.SMOClassifier.alpha2 p) = false /\
    SVC.SMOClassifier.commit s i1 i2 p = Ok (true, s').
Proof.
  intros Hstep. unfold SVC.SMOClassifier._take_step in Hstep.
  destruct (i1 =? i2)%Z; [discriminate|].
  inv_bind_as Hstep op Hsolve.
  destruct op as [p|]; [|discriminate].
  destruct (SVC.SMOClassifier.negligible _ _) eqn:Hneg; [discriminate|].
  eauto.
Qed.

Lemma svr_step_true (s s' : SVR.SMORegression.state) (i1 i2 : Z) :
  SVR.SMORegression._take_step s i1 i2 = Ok (true, s') ->
  exists p,
    SVR.SMORegression.solve s i1 i2 = Ok p /\
    SVR.SMORegression.changed (SVR.SMORegression.final p) = true /\
    SVR.SMORegression.commit s i1 i2 p = Ok (true, s').
Proof.
  intros Hstep. unfold SVR.SMORegression._take_step in Hstep.
  destruct (i1 =? i2)%Z; [discriminate|].
  inv_bind_as Hstep p Hsolve.
  destruct (SVR.SMORegression.changed _) eqn:Hch; [|discriminate].
  eauto.
Qed.

(** Reading back the two writes of a pair update. *)
Lemma read_pair (l l1 l2 : list Q) (i1 i2 : Z) (v1 v2 : Q) :
  setitem l i1 v1 = Ok l1 -> setitem l1 i2 v2 = Ok l2 ->
  getitem l2 i2 = Ok v2 /\
  (norm_index (length l) i1 <> norm_index (length l) i2 ->
   getitem l2 i1 = Ok v1).
Proof.
  intros Hw1 Hw2. split; [by eapply getitem_setitem_eq|].
  intros Hne. rewrite (getitem_setitem_ne _ _ _ _ _ Hw2).
  - by eapply getitem_setitem_eq.
  - by rewrite (setitem_length _ _ _ _ Hw1).
Qed.

(** C8: after a pair update that returns [True], the multipliers of the two
    examples are the values the step computed, passed through the precision
    guard: a value within the tolerance of [C] is exactly [C], a value
    within the tolerance of [0] is exactly [0], and a value further than
    the tolerance from both is stored as it is.  The tolerance is
    [1e-8 * C] for classification and [1e-10 * C] for regression.  ([i1]
    and [i2] must be different positions for the value written at [i1] to
    be read back.) *)
Theorem C8_snapping :
  (forall (s s' : SVC.SMOClassifier.state) (i1 i2 : Z),
     0 < SVC.SMOClassifier.C s ->
     SVC.SMOClassifier._take_step s i1 i2 = Ok (true, s') ->
     exists p a1' a2',
       SVC.SMOClassifier.solve s i1 i2 = Ok (Some p) /\
       getitem (SVC.SMOClassifier.alphas s') i2 = Ok a2' /\
       snapped_to (e_8 * SVC.SMOClassifier.C s) (SVC.SMOClassifier.C s)
                  (SVC.SMOClassifier.a2 p) a2' /\
       snapped_to (e_8 * SVC.SMOClassifier.C s) (SVC.SMOClassifier.C s)
                  (SVC.SMOClassifier.new_alpha1 p) a1' /\
       (norm_index (length (SVC.SMOClassifier.alphas s)) i1
        <> norm_index (length (SVC.SMOClassifier.alphas s)) i2 ->
        getitem (SVC.SMOClassifier.alphas s') i1 = Ok a1')) /\
  (forall (s s' : SVR.SMORegression.state) (i1 i2 : Z),
     0 < SVR.SMORegression.C s ->
     SVR.SMORegression._take_step s i1 i2 = Ok (true, s') ->
     exists p a1p' a1n' a2p' a2n',
       let c := SVR.SMORegression.final p in
       let C := SVR.SMORegression.C s in
       SVR.SMORegression.solve s i1 i2 = Ok p /\
       getitem (SVR.SMORegression.alphas_p s') i2 = Ok a2p' /\
       getitem (SVR.SMORegression.alphas_n s') i2 = Ok a2n' /\
       snapped_to (e_10 * C) C (SVR.SMORegression.alpha2_p c) a2p' /\
       snapped_to (e_10 * C) C (SVR.SMORegression.alpha2_n c) a2n' /\
       snapped_to (e_10 * C) C (SVR.SMORegression.alpha1_p c) a1p' /\
       snapped_to (e_10 * C) C (SVR.SMORegression.alpha1_n c) a1n' /\
       (norm_index (length (SVR.SMORegression.alphas_p s)) i1
        <> norm_index (length (SVR.SMORegression.alphas_p s)) i2 ->
        norm_index (length (SVR.SMORegression.alphas_n s)) i1
        <> norm_index (length (SVR.SMORegression.alphas_n s)) i2 ->
        getitem (SVR.SMORegression.alphas_p s') i1 = Ok a1p' /\
        getitem (SVR.SMORegression.alphas_n s') i1 = Ok a1n')).
Proof.
  split.
  - intros s s' i1 i2 HC Hstep.
    apply svc_step_true in Hstep as (p & Hsolve & _ & Hcommit).
    apply svc_commit_alphas in Hcommit as (_ & _ & _ & al & Hw1 & Hw2).
    destruct (read_pair _ _ _ _ _ _ _ Hw1 Hw2) as [Hr2 Hr1].
    exists p, (SVC.SMOClassifier.snap (SVC.SMOClassifier.C s)
                 (SVC.SMOClassifier.new_alpha1 p)),
      (SVC.SMOClassifier.snap (SVC.SMOClassifier.C s) (SVC.SMOClassifier.a2 p)).
    split; [done|]. split; [done|].
    split; [by apply svc_snap_spec|]. split; [by apply svc_snap_spec|]. done.
  - intros s s' i1 i2 HC Hstep.
    apply svr_step_true in Hstep as (p & Hsolve & _ & Hcommit).
    apply commit_alphas in Hcommit
      as (_ & _ & ap & an & Hp1 & Hp2 & Hn1 & Hn2).
    destruct (read_pair _ _ _ _ _ _ _ Hp1 Hp2) as [Hrp2 Hrp1].
    destruct (read_pair _ _ _ _ _ _ _ Hn1 Hn2) as [Hrn2 Hrn1].
    eexists p, _, _, _, _. cbn zeta.
    split; [done|]. split; [exact Hrp2|]. split; [exact Hrn2|].
    split; [by apply svr_snap_spec|]. split; [by apply svr_snap_spec|].
    split; [by apply svr_snap_spec|]. split; [by apply svr_snap_spec|].
    intros Hp Hn. split; [by apply Hrp1 | by apply Hrn1].
Qed.

(** On the hard-margin sample the step on the pair [(0, 2)] computes
    [a2 = 1/2], within [1e-8 * C = 1] of zero: the multiplier stored for
    index [2] is exactly [0]. *)
Lemma C8_snapping_witness :
  exists s s' p,
    Samples.hard_ready = Ok s /\
    SVC.SMOClassifier._take_step s 0 2 = Ok (true, s') /\
    SVC.SMOClassifier.solve s 0 2 = Ok (Some p) /\
    SVC.SMOClassifier.a2 p == 1 # 2 /\
    getitem (SVC.SMOClassifier.alphas s') 2 = Ok 0.
Proof.
  eexists. eexists. eexists.
  split; [vm_compute; reflexivity|].
  match goal with
  | |- SVC.SMOClassifier._take_step ?s _ _ = _ /\ _ => set (s1 := s)
  end.
  split; [vm_compute; reflexivity|].
  match goal with
  | |- _ /\ _ /\ getitem (SVC.SMOClassifier.alphas ?s) _ = _ => set (s2 := s)
  end.
  split; [vm_compute; reflexivity|].
  match goal with
  | |- SVC.SMOClassifier.a2 ?p == _ /\ _ => set (p1 := p)
  end.
  split; [vm_compute; reflexivity|].
  assert (Hstep : SVC.SMOClassifier._take_step s1 0 2 = Ok (true, s2))
    by (vm_compute; reflexivity).
  assert (HC : 0 < SVC.SMOClassifier.C s1) by (vm_compute; reflexivity).
  destruct (proj1 C8_snapping s1 s2 0%Z 2%Z HC Hstep)
    as (p & a1' & a2' & Hsolve & Hread & (_ & Hzero & _) & _).
  rewrite Hread. f_equal. apply Hzero.
  vm_compute in Hsolve. injection Hsolve as <-.
  vm_compute; reflexivity.
Defined.

End Snapping.

(** ** The equality constraint *)

Section EqualityConstraint.












End EqualityConstraint.

(** * Further properties of the engines and of the estimators *)

Section Unreported.

Lemma svc_step_false (s s' : SVC.SMOClassifier.state) (i1 i2 : Z) :
  SVC.SMOClassifier._take_step s i1 i2 = Ok (false, s') -> s' = s.
Proof.
  intros Hstep. unfold SVC.SMOClassifier._take_step in Hstep.
  destruct (i1 =? i2)%Z; [by injection Hstep as <-|].
  inv_bind_as Hstep op Hsolve.
  destruct op as [p|]; [|by injection Hstep as <-].
  destruct (SVC.SMOClassifier.negligible _ _); [by injection Hstep as <-|].
  by apply svc_commit_alphas in Hstep as (? & _).
Qed.

Lemma svr_step_false (s s' : SVR.SMORegression.state) (i1 i2 : Z) :
  SVR.SMORegression._take_step s i1 i2 = Ok (false, s') -> s' = s.
Proof.
  intros Hstep. unfold SVR.SMORegression._take_step in Hstep.
  destruct (i1 =? i2)%Z; [by injection Hstep as <-|].
  inv_bind_as Hstep p Hsolve.
  destruct (negb _); [by injection Hstep as <-|].
  by apply commit_alphas in Hstep as (? & _).
Qed.

Lemma svc_error_of_same (s s' : SVC.SMOClassifier.state) (i2 : Z) (E : Q) :
  SVC.SMOClassifier.error_of s i2 = Ok (E, s') ->
  svc_same_model s s' /\
  cache_but i2 (SVC.SMOClassifier.errors s) (SVC.SMOClassifier.errors s').
Proof.
  unfold SVC.SMOClassifier.error_of, svc_same_model, cache_but. intros He.
  destruct (mem i2 (SVC.SMOClassifier.I0 s)).
  - inv_bind He. injection He as <- <-. repeat split; auto.
  - inv_bind He. inv_bind He. inv_bind He. inv_bind He.
    inv_bind_as He errs Hset.
    simpl in He.
    repeat match type of He with
    | (if ?b then _ else _) = _ => destruct b
    end; injection He as <- <-; simpl; repeat split; eauto.
Qed.

Lemma svr_error_of_same (s s' : SVR.SMORegression.state) (i2 : Z) (E : Q) :
  SVR.SMORegression.error_of s i2 = Ok (E, s') ->
  svr_same_model s s' /\
  cache_but i2 (SVR.SMORegression.errors s) (SVR.SMORegression.errors s').
Proof.
  unfold SVR.SMORegression.error_of, svr_same_model, cache_but. intros He.
  destruct (mem i2 (SVR.SMORegression.I0 s)).
  - inv_bind He. injection He as <- <-. repeat split; auto.
  - inv_bind He. inv_bind He. inv_bind He. inv_bind He.
    inv_bind_as He errs Hset.
    simpl in He.
    repeat match type of He with
    | (if ?b then _ else _) = _ => destruct b
    end; injection He as <- <-; simpl; repeat split; eauto.
Qed.

Lemma svc_examine_false (s s' : SVC.SMOClassifier.state) (i2 : Z) :
  SVC.SMOClassifier._examine_example s i2 = Ok (false, s') ->
  svc_same_model s s' /\
  cache_but i2 (SVC.SMOClassifier.errors s) (SVC.SMOClassifier.errors s').
Proof.
  intros Hex. unfold SVC.SMOClassifier._examine_example in Hex.
  inv_bind_as Hex es Herr. destruct es as [E s1].
  apply svc_error_of_same in Herr.
  destruct (SVC.SMOClassifier.check_optimality s1 i2 E) as [optimal i1].
  destruct optimal; [by injection Hex as <-|].
  destruct (_ =? -1)%Z; [discriminate|].
  by apply svc_step_false in Hex as ->.
Qed.

Lemma svr_examine_false (s s' : SVR.SMORegression.state) (i2 : Z) :
  SVR.SMORegression._examine_example s i2 = Ok (false, s') ->
  svr_same_model s s' /\
  cache_but i2 (SVR.SMORegression.errors s) (SVR.SMORegression.errors s').
Proof.
  intros Hex. unfold SVR.SMORegression._examine_example in Hex.
  inv_bind Hex. inv_bind Hex.
  inv_bind_as Hex es Herr. destruct es as [E s1].
  apply svr_error_of_same in Herr.
  inv_bind_as Hex oi Hopt. destruct oi as [optimal i1].
  destruct optimal; [by injection Hex as <-|].
  by apply svr_step_false in Hex as ->.
Qed.

(** X1: a pair update that reports no progress ([_take_step] returns
    [False]) has changed nothing: the engine it leaves is the engine it was
    given, for classification and for regression. *)
Theorem X1_step_false_changes_nothing :
  (forall (s s' : SVC.SMOClassifier.state) (i1 i2 : Z),
     SVC.SMOClassifier._take_step s i1 i2 = Ok (false, s') -> s' = s) /\
  (forall (s s' : SVR.SMORegression.state) (i1 i2 : Z),
     SVR.SMORegression._take_step s i1 i2 = Ok (false, s') -> s' = s).
Proof. split; [apply svc_step_false | apply svr_step_false]. Qed.

End Unreported.

Section UnreportedW.

(** After training on the sample the step on the two support vectors
    returns [False]: the engine is the same. *)
Lemma X1_step_false_changes_nothing_witness :
  exists s s',
    Samples.svc_trained = Ok s /\
    SVC.SMOClassifier._take_step s 2 0 = Ok (false, s') /\ s' = s.
Proof.
  eexists. eexists.
  split; [vm_compute; reflexivity|].
  match goal with
  | |- SVC.SMOClassifier._take_step ?s _ _ = _ /\ _ => set (s1 := s)
  end.
  assert (Hstep : SVC.SMOClassifier._take_step s1 2 0 = Ok (false, s1))
    by (vm_compute; reflexivity).
  split; [exact Hstep|].
  exact (proj1 X1_step_false_changes_nothing s1 s1 2%Z 0%Z Hstep).
Defined.

(** X2: an examination that reports no update ([_examine_example] returns
    [False]) leaves the multipliers, the index sets, the weight vector, the
    bias and the training data as they were; of the error cache only the
    entry of the examined index may differ (the thresholds may have been
    tightened).  For classification and for regression. *)
Theorem X2_examine_false_keeps_model :
  (forall (s s' : SVC.SMOClassifier.state) (i2 : Z),
     SVC.SMOClassifier._examine_example s i2 = Ok (false, s') ->
     svc_same_model s s' /\
     cache_but i2 (SVC.SMOClassifier.errors s) (SVC.SMOClassifier.errors s')) /\
  (forall (s s' : SVR.SMORegression.state) (i2 : Z),
     SVR.SMORegression._examine_example s i2 = Ok (false, s') ->
     svr_same_model s s' /\
     cache_but i2 (SVR.SMORegression.errors s) (SVR.SMORegression.errors s')).
Proof. split; [apply svc_examine_false | apply svr_examine_false]. Qed.

(** On the fresh classification sample, index [1] is examined after the
    first update: its error is computed and cached, nothing else moves. *)
Lemma X2_examine_false_keeps_model_witness :
  exists s0 s s',
    Samples.svc_init = Ok s0 /\
    SVC.SMOClassifier._examine_example s0 0 = Ok (true, s) /\
    SVC.SMOClassifier._examine_example s 1 = Ok (false, s') /\
    svc_same_model s s' /\
    cache_but 1 (SVC.SMOClassifier.errors s) (SVC.SMOClassifier.errors s') /\
    SVC.SMOClassifier.errors s' <> SVC.SMOClassifier.errors s.
Proof.
  eexists. eexists. eexists.
  split; [vm_compute; reflexivity|].
  split; [vm_compute; reflexivity|].
  match goal with
  | |- SVC.SMOClassifier._examine_example ?s _ = _ /\ _ => set (s1 := s)
  end.
  split; [vm_compute; reflexivity|].
  match goal with
  | |- svc_same_model _ ?s /\ _ => set (s2 := s)
  end.
  assert (Hex : SVC.SMOClassifier._examine_example s1 1 = Ok (false, s2))
    by (vm_compute; reflexivity).
  destruct (proj1 X2_examine_false_keeps_model s1 s2 1%Z Hex) as [Hm Hc].
  split; [exact Hm|]. split; [exact Hc|].
  vm_compute. discriminate.
Defined.

End UnreportedW.

Section LastSweep.

Lemma svc_sweep_count (idxs : list Z) (s s' : SVC.SMOClassifier.state)
    (n n' : nat) :
  for_each idxs
    (fun '(n, s) i =>
       do '(r, s) <- SVC.SMOClassifier._examine_example s i ;
       Ok ((n + Nat.b2n r)%nat, s))
    (n, s) = Ok (n', s') ->
  (n <= n')%nat /\ (n' = n -> svc_same_model s s').
Proof.
  revert s n. induction idxs as [|i idxs IH]; intros s n Hrun; simpl in Hrun.
  - injection Hrun as <- <-. split; [lia|]. intros _.
    unfold svc_same_model. repeat split.
  - inv_bind_as Hrun ns Hbody. inv_bind_as Hbody rs Hex.
    destruct rs as [r s1]. injection Hbody as <-.
    apply IH in Hrun as [Hle Hsame]. split; [lia|].
    intros ->. destruct r; simpl in Hle; [lia|].
    apply svc_examine_false in Hex as [Hm _].
    rewrite Nat.add_0_r in Hsame. specialize (Hsame eq_refl).
    unfold svc_same_model in *.
    repeat match goal with H : _ /\ _ |- _ => destruct H end.
    repeat split; congruence.
Qed.

Lemma svr_sweep_count (idxs : list Z) (s s' : SVR.SMORegression.state)
    (n n' : nat) :
  for_each idxs
    (fun '(n, s) i =>
       do '(r, s) <- SVR.SMORegression._examine_example s i ;
       Ok ((n + Nat.b2n r)%nat, s))
    (n, s) = Ok (n', s') ->
  (n <= n')%nat /\ (n' = n -> svr_same_model s s').
Proof.
  revert s n. induction idxs as [|i idxs IH]; intros s n Hrun; simpl in Hrun.
  - injection Hrun as <- <-. split; [lia|]. intros _.
    unfold svr_same_model. repeat split.
  - inv_bind_as Hrun ns Hbody. inv_bind_as Hbody rs Hex.
    destruct rs as [r s1]. injection Hbody as <-.
    apply IH in Hrun as [Hle Hsame]. split; [lia|].
    intros ->. destruct r; simpl in Hle; [lia|].
    apply svr_examine_false in Hex as [Hm _].
    rewrite Nat.add_0_r in Hsame. specialize (Hsame eq_refl).
    unfold svr_same_model in *.
    repeat match goal with H : _ /\ _ |- _ => destruct H end.
    repeat split; congruence.
Qed.

Lemma svc_iteration_reach (s0 : SVC.SMOClassifier.state)
    (d d' : SVC.SMOClassifier.driver) :
  svc_reach s0 (SVC.SMOClassifier.engine d) ->
  SVC.SMOClassifier.iteration d = Ok d' ->
  svc_reach s0 (SVC.SMOClassifier.engine d').
Proof.
  intros Hreach Hit. unfold SVC.SMOClassifier.iteration in Hit.
  inv_bind_as Hit ns Hsweep. destruct ns as [n s1].
  injection Hit as <-. simpl.
  destruct (SVC.SMOClassifier.examine_all d).
  - by eapply svc_sweep_all_reach.
  - by eapply svc_sweep_active_reach.
Qed.

Lemma svr_iteration_reach (s0 : SVR.SMORegression.state)
    (d d' : SVR.SMORegression.driver) :
  svr_reach s0 (SVR.SMORegression.engine d) ->
  SVR.SMORegression.iteration d = Ok d' ->
  svr_reach s0 (SVR.SMORegression.engine d').
Proof.
  intros Hreach Hit. unfold SVR.SMORegression.iteration in Hit.
  inv_bind_as Hit ns Hsweep. destruct ns as [n s1].
  injection Hit as <-. simpl.
  destruct (SVR.SMORegression.examine_all d).
  - by eapply svr_sweep_all_reach.
  - by eapply svr_sweep_active_reach.
Qed.

(** The loop of [smo] is left right after a full sweep that counted no
    update. *)
Lemma svc_loop_exit (fuel : nat) (s0 : SVC.SMOClassifier.state)
    (d d' : SVC.SMOClassifier.driver) :
  svc_reach s0 (SVC.SMOClassifier.engine d) ->
  SVC.SMOClassifier.running d = true ->
  SVC.SMOClassifier.loop fuel d = Ok d' ->
  exists s1,
    svc_reach s0 s1 /\
    SVC.SMOClassifier.sweep_all s1 0 = Ok (0%nat, SVC.SMOClassifier.engine d').
Proof.
  revert d. induction fuel as [|fuel IH]; intros d Hreach Hrun Hloop;
    simpl in Hloop; rewrite Hrun in Hloop; [discriminate|].
  inv_bind_as Hloop d1 Hit.
  pose proof (svc_iteration_reach s0 d d1 Hreach Hit) as Hreach1.
  destruct (SVC.SMOClassifier.running d1) eqn:Hrun1; [by eapply IH|].
  assert (d' = d1) as ->.
  { destruct fuel; simpl in Hloop; rewrite Hrun1 in Hloop; congruence. }
  unfold SVC.SMOClassifier.iteration in Hit.
  inv_bind_as Hit ns Hsweep. destruct ns as [n s1]. injection Hit as <-.
  unfold SVC.SMOClassifier.running in Hrun1. simpl in *.
  apply orb_false_iff in Hrun1 as [Hn Hea].
  apply Nat.ltb_ge in Hn. assert (n = 0%nat) as -> by lia.
  destruct (SVC.SMOClassifier.examine_all d); [|discriminate].
  by exists (SVC.SMOClassifier.engine d).
Qed.

Lemma svr_loop_exit (fuel : nat) (s0 : SVR.SMORegression.state)
    (d d' : SVR.SMORegression.driver) :
  svr_reach s0 (SVR.SMORegression.engine d) ->
  SVR.SMORegression.running d = true ->
  SVR.SMORegression.loop fuel d = Ok d' ->
  exists s1,
    svr_reach s0 s1 /\
    SVR.SMORegression.sweep_all s1 0 = Ok (0%nat, SVR.SMORegression.engine d').
Proof.
  revert d. induction fuel as [|fuel IH]; intros d Hreach Hrun Hloop;
    simpl in Hloop; rewrite Hrun in Hloop; [discriminate|].
  inv_bind_as Hloop d1 Hit.
  pose proof (svr_iteration_reach s0 d d1 Hreach Hit) as Hreach1.
  destruct (SVR.SMORegression.running d1) eqn:Hrun1; [by eapply IH|].
  assert (d' = d1) as ->.
  { destruct fuel; simpl in Hloop; rewrite Hrun1 in Hloop; congruence. }
  unfold SVR.SMORegression.iteration in Hit.
  inv_bind_as Hit ns Hsweep. destruct ns as [n s1]. injection Hit as <-.
  unfold SVR.SMORegression.running in Hrun1. simpl in *.
  apply orb_false_iff in Hrun1 as [Hn Hea].
  apply Nat.ltb_ge in Hn. assert (n = 0%nat) as -> by lia.
  destruct (SVR.SMORegression.examine_all d); [|discriminate].
  by exists (SVR.SMORegression.engine d).
Qed.

(** X3: when [smo] returns, the last thing its loop did was a sweep over
    all the examples in which no call of [_examine_example] reported an
    update: the multipliers, index sets and weight vector it returns are the
    ones that sweep started from, and the engine differs from the one the
    sweep left only by the bias.  For classification and for regression. *)
Theorem X3_smo_ends_after_clean_full_sweep :
  (forall (fuel : nat) (s0 s' : SVC.SMOClassifier.state),
     SVC.SMOClassifier.smo fuel s0 = Ok s' ->
     exists s1 s2,
       svc_reach s0 s1 /\
       SVC.SMOClassifier.sweep_all s1 0 = Ok (0%nat, s2) /\
       svc_same_model s1 s2 /\
       s' = SVC.SMOClassifier.set_b s2
              (- (SVC.SMOClassifier.b_low s2 + SVC.SMOClassifier.b_up s2) / 2)) /\
  (forall (fuel : nat) (s0 s' : SVR.SMORegression.state),
     SVR.SMORegression.smo fuel s0 = Ok s' ->
     exists s1 s2,
       svr_reach s0 s1 /\
       SVR.SMORegression.sweep_all s1 0 = Ok (0%nat, s2) /\
       svr_same_model s1 s2 /\
       s' = SVR.SMORegression.set_b s2
              ((SVR.SMORegression.b_low s2 + SVR.SMORegression.b_up s2) / 2)).
Proof.
  split.
  - intros fuel s0 s' Hsmo. unfold SVC.SMOClassifier.smo in Hsmo.
    inv_bind_as Hsmo d Hloop. injection Hsmo as <-.
    destruct (svc_loop_exit fuel s0 (SVC.SMOClassifier.start s0) d)
      as (s1 & Hreach & Hsweep); [apply svc_reach_init | done | done |].
    exists s1, (SVC.SMOClassifier.engine d).
    split; [done|]. split; [done|]. split; [|done].
    unfold SVC.SMOClassifier.sweep_all in Hsweep.
    apply svc_sweep_count in Hsweep as [_ Hsame]. by apply Hsame.
  - intros fuel s0 s' Hsmo. unfold SVR.SMORegression.smo in Hsmo.
    inv_bind_as Hsmo d Hloop. injection Hsmo as <-.
    destruct (svr_loop_exit fuel s0 (SVR.SMORegression.start s0) d)
      as (s1 & Hreach & Hsweep); [apply svr_reach_init | done | done |].
    exists s1, (SVR.SMORegression.engine d).
    split; [done|]. split; [done|]. split; [|done].
    unfold SVR.SMORegression.sweep_all in Hsweep.
    apply svr_sweep_count in Hsweep as [_ Hsame]. by apply Hsame.
Qed.

End LastSweep.

Section LastSweepW.

(** Training the classification sample: the run ends with a sweep that
    changes no multiplier. *)
Lemma X3_smo_ends_after_clean_full_sweep_witness :
  exists s0 s' s1 s2,
    Samples.svc_init = Ok s0 /\
    SVC.SMOClassifier.smo 10 s0 = Ok s' /\
    SVC.SMOClassifier.sweep_all s1 0 = Ok (0%nat, s2) /\
    svc_same_model s1 s2 /\
    SVC.SMOClassifier.alphas s' = SVC.SMOClassifier.alphas s1.
Proof.
  assert (exists s0 s',
            Samples.svc_init = Ok s0 /\ SVC.SMOClassifier.smo 10 s0 = Ok s')
    as (s0 & s' & Hinit & Hsmo).
  { eexists. eexists. split; [vm_compute; reflexivity|].
    vm_compute; reflexivity. }
  destruct (proj1 X3_smo_ends_after_clean_full_sweep 10%nat s0 s' Hsmo)
    as (s1 & s2 & _ & Hsweep & Hsame & ->).
  exists s0. eexists. exists s1, s2.
  split; [exact Hinit|]. split; [exact Hsmo|]. split; [exact Hsweep|].
  split; [exact Hsame|]. apply Hsame.
Defined.

End LastSweepW.

Section IndexErrors.

Lemma getitem_None {A : Type} (l : list A) (i : Z) :
  norm_index (length l) i = None -> getitem l i = Raise IndexError.
Proof. unfold getitem. by intros ->. Qed.

(** A read either returns or raises [IndexError]. *)
Lemma getitem_outcome {A : Type} (l : list A) (i : Z) :
  (exists v, getitem l i = Ok v) \/ getitem l i = Raise IndexError.
Proof.
  unfold getitem. destruct (norm_index _ _); [|by right].
  destruct (l !! _); [left; eauto | by right].
Qed.

Lemma vmul_same_length (u v : list Q) :
  length u = length v -> exists r, vmul u v = Ok r.
Proof.
  revert v. induction u as [|a u IH]; intros [|b v] Hlen; simpl in *;
    try discriminate; [eauto|].
  destruct (IH v) as [r ->]; [lia|]. simpl. eauto.
Qed.


Lemma svc_step_index_error (s : SVC.SMOClassifier.state) (i1 i2 : Z) :
  i1 <> i2 ->
  norm_index (length (SVC.SMOClassifier.alphas s)) i1 = None \/
  norm_index (length (SVC.SMOClassifier.alphas s)) i2 = None ->
  SVC.SMOClassifier._take_step s i1 i2 = Raise IndexError.
Proof.
  intros Hne Hout. unfold SVC.SMOClassifier._take_step.
  destruct (Z.eqb_spec i1 i2); [done|].
  unfold SVC.SMOClassifier.solve.
  destruct (norm_index (length (SVC.SMOClassifier.alphas s)) i1) eqn:E1.
  - destruct Hout as [? | Hout]; [done|].
    destruct (getitem_outcome (SVC.SMOClassifier.alphas s) i1) as [[a1 ->] | ->];
      [cbn [bind] | done].
    destruct (getitem_outcome (SVC.SMOClassifier.y s) i1) as [[y1 ->] | ->];
      [cbn [bind] | done].
    destruct (getitem_outcome (SVC.SMOClassifier.errors s) i1) as [[e1 ->] | ->];
      [cbn [bind] | done].
    by rewrite (getitem_None _ _ Hout).
  - by rewrite (getitem_None _ _ E1).
Qed.

Lemma svr_step_index_error (s : SVR.SMORegression.state) (i1 i2 : Z) :
  i1 <> i2 ->
  norm_index (length (SVR.SMORegression.alphas_p s)) i1 = None \/
  norm_index (length (SVR.SMORegression.alphas_p s)) i2 = None ->
  SVR.SMORegression._take_step s i1 i2 = Raise IndexError.
Proof.
  intros Hne Hout. unfold SVR.SMORegression._take_step.
  destruct (Z.eqb_spec i1 i2); [done|].
  unfold SVR.SMORegression.solve.
  destruct (norm_index (length (SVR.SMORegression.alphas_p s)) i1) eqn:E1.
  - destruct Hout as [? | Hout]; [done|].
    destruct (getitem_outcome (SVR.SMORegression.alphas_p s) i1)
      as [[a1 ->] | ->]; [cbn [bind] | done].
    destruct (getitem_outcome (SVR.SMORegression.alphas_n s) i1)
      as [[a1' ->] | ->]; [cbn [bind] | done].
    destruct (getitem_outcome (SVR.SMORegression.errors s) i1)
      as [[e1 ->] | ->]; [cbn [bind] | done].
    by rewrite (getitem_None _ _ Hout).
  - by rewrite (getitem_None _ _ E1).
Qed.

(** X4: the indices of a pair update.  Two equal indices make
    [_take_step] return [False] at once, whatever they are; two different
    indices of which one is outside the multiplier array ([-n .. n-1] for
    [n] examples) make it raise [IndexError], before anything is written.
    For classification and for regression. *)
Theorem X4_step_indices :
  (forall (s : SVC.SMOClassifier.state) (i : Z),
     SVC.SMOClassifier._take_step s i i = Ok (false, s)) /\
  (forall (s : SVC.SMOClassifier.state) (i1 i2 : Z),
     i1 <> i2 ->
     norm_index (length (SVC.SMOClassifier.alphas s)) i1 = None \/
     norm_index (length (SVC.SMOClassifier.alphas s)) i2 = None ->
     SVC.SMOClassifier._take_step s i1 i2 = Raise IndexError) /\
  (forall (s : SVR.SMORegression.state) (i : Z),
     SVR.SMORegression._take_step s i i = Ok (false, s)) /\
  (forall (s : SVR.SMORegression.state) (i1 i2 : Z),
     i1 <> i2 ->
     norm_index (length (SVR.SMORegression.alphas_p s)) i1 = None \/
     norm_index (length (SVR.SMORegression.alphas_p s)) i2 = None ->
     SVR.SMORegression._take_step s i1 i2 = Raise IndexError).
Proof.
  split; [|split; [|split]].
  - intros s i. unfold SVC.SMOClassifier._take_step. by rewrite Z.eqb_refl.
  - apply svc_step_index_error.
  - intros s i. unfold SVR.SMORegression._take_step. by rewrite Z.eqb_refl.
  - apply svr_step_index_error.
Qed.

(** On the classification sample of four examples: index [4] with index
    [0] raises, index [7] with itself does not. *)
Lemma X4_step_indices_witness :
  exists s,
    Samples.svc_init = Ok s /\
    SVC.SMOClassifier._take_step s 4 0 = Raise IndexError /\
    SVC.SMOClassifier._take_step s 7 7 = Ok (false, s).
Proof.
  eexists. split; [vm_compute; reflexivity|].
  match goal with
  | |- SVC.SMOClassifier._take_step ?s _ _ = _ /\ _ => set (s1 := s)
  end.
  destruct X4_step_indices as (Hsame & Hout & _).
  split; [|apply Hsame].
  apply Hout; [discriminate|]. left. vm_compute. reflexivity.
Defined.

(** X5: examining an index outside [-n .. n-1] raises [IndexError].  The
    classification engine is taken with its arrays of one length [n]
    (labels, multipliers, error cache, rows of the kernel matrix), as
    [__init__] builds them. *)
Theorem X5_examine_out_of_range :
  (forall (s : SVC.SMOClassifier.state) (i2 : Z),
     length (SVC.SMOClassifier.y s) = length (SVC.SMOClassifier.alphas s) ->
     length (SVC.SMOClassifier.errors s) = length (SVC.SMOClassifier.alphas s) ->
     length (SVC.SMOClassifier.K s) = length (SVC.SMOClassifier.alphas s) ->
     norm_index (length (SVC.SMOClassifier.alphas s)) i2 = None ->
     SVC.SMOClassifier._examine_example s i2 = Raise IndexError) /\
  (forall (s : SVR.SMORegression.state) (i2 : Z),
     norm_index (length (SVR.SMORegression.alphas_p s)) i2 = None ->
     SVR.SMORegression._examine_example s i2 = Raise IndexError).
Proof.
  split.
  - intros s i2 Hy He HK Hout.
    unfold SVC.SMOClassifier._examine_example, SVC.SMOClassifier.error_of.
    destruct (mem i2 (SVC.SMOClassifier.I0 s)).
    + rewrite getitem_None; [done | by rewrite He].
    + destruct (vmul_same_length (SVC.SMOClassifier.alphas s)
                  (SVC.SMOClassifier.y s)) as [ay ->]; [done|]. simpl.
      rewrite getitem_None; [done | by rewrite HK].
  - intros s i2 Hout. unfold SVR.SMORegression._examine_example.
    by rewrite getitem_None.
Qed.

Lemma X5_examine_out_of_range_witness :
  exists s,
    Samples.svc_init = Ok s /\
    SVC.SMOClassifier._examine_example s 4 = Raise IndexError /\
    SVC.SMOClassifier._examine_example s (-5) = Raise IndexError.
Proof.
  eexists. split; [vm_compute; reflexivity|].
  match goal with
  | |- SVC.SMOClassifier._examine_example ?s _ = _ /\ _ => set (s1 := s)
  end.
  split; apply (proj1 X5_examine_out_of_range); reflexivity.
Defined.

End IndexErrors.

Section Exclusive.

(** X6: in every engine a regression run goes through, and in the one
    [smo] returns, no example has both its multipliers non-zero:
    [alphas_p[i] == 0] or [alphas_n[i] == 0] for every [i]. *)
Theorem X6_regression_multipliers_exclusive :
  forall X y K kernel C epsilon tol s0 s,
    0 <= C ->
    SVR.SMORegression.__init__ X y K kernel C epsilon tol = Ok s0 ->
    (svr_reach s0 s \/ exists fuel, SVR.SMORegression.smo fuel s0 = Ok s) ->
    Forall2 (fun p n => p == 0 \/ n == 0)
      (SVR.SMORegression.alphas_p s) (SVR.SMORegression.alphas_n s).
Proof.
  intros X y K kernel C epsilon tol s0 s HC Hinit Hrun.
  pose proof (svr_init_inv _ _ _ _ _ _ _ _ HC Hinit) as Hinv0.
  assert (exists s1, svr_reach s0 s1 /\
            SVR.SMORegression.alphas_p s = SVR.SMORegression.alphas_p s1 /\
            SVR.SMORegression.alphas_n s = SVR.SMORegression.alphas_n s1)
    as (s1 & Hreach & -> & ->).
  { destruct Hrun as [Hreach | [fuel Hsmo]]; [by exists s|].
    unfold SVR.SMORegression.smo in Hsmo.
    inv_bind_as Hsmo d Hloop. injection Hsmo as <-.
    exists (SVR.SMORegression.engine d). split; [|done].
    eapply svr_loop_reach; [|exact Hloop]. apply svr_reach_init. }
  pose proof (svr_reach_inv _ _ Hinv0 Hreach) as (_ & Hent).
  eapply Forall2_impl; [exact Hent|].
  intros p n (_ & _ & Hz). exact Hz.
Qed.

(** The trained regression sample. *)
Lemma X6_regression_multipliers_exclusive_witness :
  exists s,
    Samples.svr_trained = Ok s /\
    Forall2 (fun p n => p == 0 \/ n == 0)
      (SVR.SMORegression.alphas_p s) (SVR.SMORegression.alphas_n s).
Proof.
  eexists. split; [vm_compute; reflexivity|].
  match goal with
  | |- Forall2 _ (SVR.SMORegression.alphas_p ?s) _ => set (s1 := s)
  end.
  match eval vm_compute in Samples.svr_init with
  | Ok ?s =>
      refine (X6_regression_multipliers_exclusive
                Samples.svr_X Samples.svr_y Samples.svr_K
                "linear"%string 1 (1 # 10) (1 # 1000) s s1 _ _ _)
  end.
  - discriminate.
  - vm_compute; reflexivity.
  - right. exists 10%nat. vm_compute; reflexivity.
Defined.

End Exclusive.

Section LinearKernel.

















End LinearKernel.

Section LinearEta.




End LinearEta.

Section Thresholds.
Import SVC.SMOClassifier.

Lemma mem_members (i : Z) (S : gset Z) : i ∈ members S <-> mem i S = true.
Proof.
  unfold members, mem. rewrite merge_sort_Permutation, elem_of_elements.
  by rewrite bool_decide_eq_true.
Qed.

Lemma raise_low_spec (e : Q) (i : Z) (t : thresholds) :
  let t' := raise_low e i t in
  t_up t' = t_up t /\ t_up_idx t' = t_up_idx t /\
  t_low t <= t_low t' /\ e <= t_low t' /\
  ((t_low t' = t_low t /\ t_low_idx t' = t_low_idx t) \/
   (t_low t' = e /\ t_low_idx t' = i)).
Proof.
  unfold raise_low. cmp; simpl; repeat split; auto; lra.
Qed.

Lemma lower_up_spec (e : Q) (i : Z) (t : thresholds) :
  let t' := lower_up e i t in
  t_low t' = t_low t /\ t_low_idx t' = t_low_idx t /\
  t_up t' <= t_up t /\ t_up t' <= e /\
  ((t_up t' = t_up t /\ t_up_idx t' = t_up_idx t) \/
   (t_up t' = e /\ t_up_idx t' = i)).
Proof.
  unfold lower_up. cmp; simpl; repeat split; auto; lra.
Qed.

(** The scan of [I0]. *)
Lemma scan_I0 (errs : list Q) (l seen : list Z) (t t' : thresholds) :
  for_each l
    (fun t i => do e <- getitem errs i ; Ok (lower_up e i (raise_low e i t)))
    t = Ok t' ->
  attained errs t -> between errs seen t -> drawn_from seen t ->
  attained errs t' /\ between errs (seen ++ l) t' /\ drawn_from (seen ++ l) t'.
Proof.
  revert seen t. induction l as [|i l IH]; intros seen t Hrun Ha Hb Hd;
    simpl in Hrun.
  - injection Hrun as <-. by rewrite app_nil_r.
  - inv_bind_as Hrun t1 Hbody. inv_bind_as Hbody e He. injection Hbody as <-.
    replace (seen ++ i :: l) with ((seen ++ [i]) ++ l)
      by (by rewrite <- app_assoc).
    pose proof (raise_low_spec e i t) as (R1 & R2 & R3 & R4 & R5).
    pose proof (lower_up_spec e i (raise_low e i t)) as (L1 & L2 & L3 & L4 & L5).
    cbv zeta in *.
    eapply IH; [exact Hrun| | |].
    + destruct Ha as [Hup Hlow]. split.
      * destruct L5 as [[-> ->] | [-> ->]]; [|by right].
        rewrite R1, R2. done.
      * rewrite L1, L2.
        destruct R5 as [[-> ->] | [-> ->]]; [done | by right].
    + intros j ej Hj Hej. rewrite L1. rewrite R1 in L3.
      apply elem_of_app in Hj as [Hj | Hj].
      * specialize (Hb j ej Hj Hej). lra.
      * apply list_elem_of_singleton in Hj as ->.
        assert (ej = e) as -> by congruence. lra.
    + destruct Hd as [Hup Hlow]. split.
      * destruct L5 as [[_ ->] | [_ ->]].
        -- rewrite R2. destruct Hup; [by left | right; set_solver].
        -- right. set_solver.
      * rewrite L2. destruct R5 as [[_ ->] | [_ ->]].
        -- destruct Hlow; [by left | right; set_solver].
        -- right. set_solver.
Qed.

Lemma rescan_bound_spec (s : state) (i : Z) (l seen : list Z)
    (t t' : thresholds) :
  rescan_bound s i t = Ok t' ->
  attained (errors s) t -> between (errors s) l t -> drawn_from seen t ->
  attained (errors s) t' /\ between (errors s) l t' /\
  drawn_from (seen ++ [i]) t'.
Proof.
  unfold rescan_bound. intros Hr Ha Hb Hd.
  assert (drawn_from (seen ++ [i]) t) as Hd'.
  { destruct Hd as [[Hup | Hup] [Hlow | Hlow]];
      split; auto; right; set_solver. }
  destruct (negb _); [|by injection Hr as <-].
  destruct (_ || _).
  - inv_bind_as Hr e He. injection Hr as <-.
    pose proof (raise_low_spec e i t) as (R1 & R2 & R3 & R4 & R5).
    cbv zeta in *. destruct Ha as [Hup Hlow], Hd' as [Dup Dlow].
    split; [|split].
    + split; [by rewrite R1, R2|].
      destruct R5 as [[-> ->] | [-> ->]]; [done | by right].
    + intros j ej Hj Hej. specialize (Hb j ej Hj Hej). rewrite R1. lra.
    + split; [by rewrite R2|].
      destruct R5 as [[_ ->] | [_ ->]]; [done | right; set_solver].
  - inv_bind_as Hr e He. injection Hr as <-.
    pose proof (lower_up_spec e i t) as (L1 & L2 & L3 & L4 & L5).
    cbv zeta in *. destruct Ha as [Hup Hlow], Hd' as [Dup Dlow].
    split; [|split].
    + split; [|by rewrite L1, L2].
      destruct L5 as [[-> ->] | [-> ->]]; [done | by right].
    + intros j ej Hj Hej. specialize (Hb j ej Hj Hej). rewrite L1. lra.
    + split; [|by rewrite L2].
      destruct L5 as [[_ ->] | [_ ->]]; [done | right; set_solver].
Qed.

Lemma svc_update_thresholds_spec (s s' : state) (i1 i2 : Z) :
  update_thresholds s i1 i2 = Ok s' ->
  errors s' = errors s /\ I0 s' = I0 s /\
  attained (errors s) (get_thresholds s') /\
  between (errors s) (members (I0 s)) (get_thresholds s') /\
  drawn_from (members (I0 s) ++ [i1; i2]) (get_thresholds s').
Proof.
  unfold update_thresholds. intros Hu.
  inv_bind_as Hu t1 Hscan. inv_bind_as Hu t2 Hr1. inv_bind_as Hu t3 Hr2.
  injection Hu as <-. simpl.
  split; [done|]. split; [done|].
  apply (scan_I0 _ _ []) in Hscan as (A1 & B1 & D1).
  - simpl in B1, D1.
    destruct (rescan_bound_spec _ _ _ _ _ _ Hr1 A1 B1 D1) as (A2 & B2 & D2).
    destruct (rescan_bound_spec _ _ _ _ _ _ Hr2 A2 B2 D2) as (A3 & B3 & D3).
    rewrite <- app_assoc in D3. simpl in D3.
    by destruct t3.
  - split; by left.
  - intros j ej Hj. by apply elem_of_nil in Hj.
  - split; by left.
Qed.

Lemma svc_commit_last (s s' : state) (i1 i2 : Z) (p : plan) (r : bool) :
  commit s i1 i2 p = Ok (r, s') ->
  exists s5,
    update_thresholds s5 i1 i2 = Ok s' /\
    b_low_idx s' <> (-1)%Z /\ b_up_idx s' <> (-1)%Z.
Proof.
  unfold commit. intros Hc.
  inv_bind_as Hc s1 Hw. inv_bind_as Hc s2 He. inv_bind_as Hc s3 Hal.
  inv_bind_as Hc s4 Hs1. inv_bind_as Hc s5 Hs2. inv_bind_as Hc s6 Ht.
  destruct (_ || _) eqn:E; [discriminate|]. injection Hc as <- <-.
  apply orb_false_iff in E as [E1 E2].
  exists s5. split; [done|]. split; by apply Z.eqb_neq.
Qed.

Lemma svc_step_true_commit (s s' : state) (i1 i2 : Z) :
  _take_step s i1 i2 = Ok (true, s') ->
  exists p, solve s i1 i2 = Ok (Some p) /\ commit s i1 i2 p = Ok (true, s').
Proof.
  unfold _take_step. intros Hstep.
  destruct (i1 =? i2)%Z; [discriminate|].
  inv_bind_as Hstep op Hsolve.
  destruct op as [p|]; [|discriminate].
  destruct (negligible _ _); [discriminate|]. eauto.
Qed.

(** X9: after a pair update of the classification engine, the thresholds
    are attained and bracket the free examples: the cached error of
    [b_up_idx] is [b_up], the one of [b_low_idx] is [b_low], each of the two
    indices is a member of [I0] or one of the pair, and the cached error of
    every member of [I0] lies in [[b_up, b_low]]. *)
Theorem X9_thresholds_after_step :
  forall (s s' : state) (i1 i2 : Z),
    _take_step s i1 i2 = Ok (true, s') ->
    getitem (errors s') (b_up_idx s') = Ok (b_up s') /\
    getitem (errors s') (b_low_idx s') = Ok (b_low s') /\
    (mem (b_up_idx s') (I0 s') = true \/ b_up_idx s' = i1 \/ b_up_idx s' = i2) /\
    (mem (b_low_idx s') (I0 s') = true \/ b_low_idx s' = i1
     \/ b_low_idx s' = i2) /\
    (forall (i : Z) (e : Q),
       mem i (I0 s') = true -> getitem (errors s') i = Ok e ->
       b_up s' <= e <= b_low s').
Proof.
  intros s s' i1 i2 Hstep.
  apply svc_step_true_commit in Hstep as (p & _ & Hc).
  apply svc_commit_last in Hc as (s5 & Ht & Hlow & Hup).
  apply svc_update_thresholds_spec in Ht as (He & HI & Ha & Hb & Hd).
  rewrite He, HI. unfold attained, between, drawn_from in *. simpl in *.
  destruct Ha as [[? | Ha1] [? | Ha2]]; try done.
  destruct Hd as [[? | Hd1] [? | Hd2]]; try done.
  split; [done|]. split; [done|].
  split; [|split].
  - apply elem_of_app in Hd1 as [Hd1 | Hd1].
    + left. by apply mem_members.
    + right. set_solver.
  - apply elem_of_app in Hd2 as [Hd2 | Hd2].
    + left. by apply mem_members.
    + right. set_solver.
  - intros i e Hi. apply Hb. by apply mem_members.
Qed.

(** The first update on the classification sample leaves both thresholds
    at [0], attained by the cached error of index [0]. *)
Lemma X9_thresholds_after_step_witness :
  exists s s',
    Samples.svc_init = Ok s /\
    _take_step s 2 0 = Ok (true, s') /\
    getitem (errors s') (b_up_idx s') = Ok (b_up s') /\
    getitem (errors s') (b_low_idx s') = Ok (b_low s') /\
    b_up_idx s' = 0%Z.
Proof.
  eexists. eexists.
  split; [vm_compute; reflexivity|].
  match goal with
  | |- _take_step ?s _ _ = _ /\ _ => set (s1 := s)
  end.
  split; [vm_compute; reflexivity|].
  match goal with
  | |- getitem (errors ?s) _ = _ /\ _ => set (s2 := s)
  end.
  assert (Hstep : _take_step s1 2 0 = Ok (true, s2)) by (vm_compute; reflexivity).
  destruct (X9_thresholds_after_step s1 s2 2%Z 0%Z Hstep) as (Hu & Hl & _).
  split; [exact Hu|]. split; [exact Hl|]. reflexivity.
Defined.

End Thresholds.

Section Partition.
Import SVC.SMOClassifier.

Lemma in_range_norm (n : nat) (i : Z) :
  in_range n i -> norm_index n i = Some (Z.to_nat i) /\ i = Z.of_nat (Z.to_nat i).
Proof.
  unfold in_range, norm_index. intros Hi.
  replace ((0 <=? i) && (i <? Z.of_nat n))%Z with true
    by (symmetry; apply andb_true_iff; lia).
  split; [done | lia].
Qed.

Lemma getitem_in_range {A : Type} (l : list A) (i : Z) (v : A) :
  (0 <= i)%Z -> getitem l i = Ok v ->
  in_range (length l) i /\ l !! (Z.to_nat i) = Some v.
Proof.
  intros Hi (k & Hk & Hv)%getitem_Ok. unfold norm_index in Hk.
  destruct ((0 <=? i) && (i <? Z.of_nat (length l)))%Z eqn:E.
  - injection Hk as <-. apply andb_true_iff in E. unfold in_range.
    split; [lia | done].
  - destruct ((- Z.of_nat (length l) <=? i) && (i <? 0))%Z eqn:E';
      [|discriminate].
    apply andb_true_iff in E'. lia.
Qed.

Lemma mem_put (c : bool) (i j : Z) (S : gset Z) :
  mem j (put c i S) = if (j =? i)%Z then c else mem j S.
Proof.
  unfold mem, put, add, discard.
  destruct (Z.eqb_spec j i) as [-> | Hne]; destruct c.
  - apply bool_decide_eq_true. set_solver.
  - apply bool_decide_eq_false. set_solver.
  - apply bool_decide_ext. set_solver.
  - apply bool_decide_ext. set_solver.
Qed.

Lemma svc_update_weight_same (s s' : state) (i1 i2 : Z) (d1 d2 : Q) :
  update_weight s i1 i2 d1 d2 = Ok s' ->
  svc_same_data s s' /\ alphas s' = alphas s /\ errors s' = errors s /\
  svc_same_sets s s'.
Proof.
  unfold update_weight, svc_same_data, svc_same_sets. intros Hu.
  destruct (String.eqb _ _); [|by injection Hu as <-].
  inv_bind Hu. inv_bind Hu. inv_bind Hu.
  destruct (w s); [|discriminate]. inv_bind Hu. by injection Hu as <-.
Qed.

Lemma svc_update_errors_same (s s' : state) (i1 i2 : Z) (p : plan) (d1 d2 : Q) :
  update_errors s i1 i2 p d1 d2 = Ok s' ->
  svc_same_data s s' /\ alphas s' = alphas s /\ w s' = w s /\
  svc_same_sets s s'.
Proof.
  unfold update_errors, svc_same_data, svc_same_sets. intros Hu.
  inv_bind Hu. inv_bind Hu. inv_bind Hu. inv_bind Hu. inv_bind Hu.
  by injection Hu as <-.
Qed.

Lemma svc_update_alphas_same (s s' : state) (i1 i2 : Z) (a1 a2 : Q) :
  update_alphas s i1 i2 a1 a2 = Ok s' ->
  svc_same_data s s' /\
  svc_same_sets s s' /\
  exists al, setitem (alphas s) i1 a1 = Ok al /\ setitem al i2 a2 = Ok (alphas s').
Proof.
  unfold update_alphas, svc_same_data, svc_same_sets. intros Hu.
  inv_bind_as Hu al Hal. inv_bind_as Hu al' Hal'. injection Hu as <-. simpl.
  repeat split; eauto.
Qed.

Lemma svc_update_sets_same (s s' : state) (i : Z) :
  update_sets s i = Ok s' ->
  svc_same_data s s' /\ alphas s' = alphas s /\
  exists a yi,
    getitem (alphas s) i = Ok a /\ getitem (y s) i = Ok yi /\
    svc_sets_at s' i a yi /\
    forall j, j <> i ->
      mem j (I0 s') = mem j (I0 s) /\ mem j (I1 s') = mem j (I1 s) /\
      mem j (I2 s') = mem j (I2 s) /\ mem j (I3 s') = mem j (I3 s) /\
      mem j (I4 s') = mem j (I4 s).
Proof.
  unfold update_sets, svc_same_data. intros Hu.
  inv_bind_as Hu a Ha. inv_bind_as Hu yi Hy. injection Hu as <-. simpl.
  split; [done|]. split; [done|]. exists a, yi.
  split; [done|]. split; [done|]. split.
  - unfold svc_sets_at. simpl. rewrite !mem_put, Z.eqb_refl. done.
  - intros j Hj. rewrite !mem_put.
    destruct (Z.eqb_spec j i); [done|]. done.
Qed.

Lemma svc_update_thresholds_same (s s' : state) (i1 i2 : Z) :
  update_thresholds s i1 i2 = Ok s' ->
  svc_same_data s s' /\ alphas s' = alphas s /\
  svc_same_sets s s'.
Proof.
  unfold update_thresholds, svc_same_data, svc_same_sets. intros Hu.
  inv_bind Hu. inv_bind Hu. inv_bind Hu.
  by injection Hu as <-.
Qed.

Lemma svc_same_data_trans (s1 s2 s3 : state) :
  svc_same_data s1 s2 -> svc_same_data s2 s3 -> svc_same_data s1 s3.
Proof.
  unfold svc_same_data. intros (?&?&?&?&?&?) (?&?&?&?&?&?).
  repeat split; congruence.
Qed.

Lemma svc_sets_at_ext (s s' : state) (i : Z) (a yi : Q) :
  C s' = C s ->
  mem i (I0 s') = mem i (I0 s) -> mem i (I1 s') = mem i (I1 s) ->
  mem i (I2 s') = mem i (I2 s) -> mem i (I3 s') = mem i (I3 s) ->
  mem i (I4 s') = mem i (I4 s) ->
  svc_sets_at s i a yi -> svc_sets_at s' i a yi.
Proof.
  unfold svc_sets_at. intros -> -> -> -> -> ->. done.
Qed.

Lemma svc_sets_at_keep (s s' : state) (j i : Z) (a yi : Q) :
  C s' = C s ->
  (forall j, j <> i ->
     mem j (I0 s') = mem j (I0 s) /\ mem j (I1 s') = mem j (I1 s) /\
     mem j (I2 s') = mem j (I2 s) /\ mem j (I3 s') = mem j (I3 s) /\
     mem j (I4 s') = mem j (I4 s)) ->
  j <> i -> svc_sets_at s j a yi -> svc_sets_at s' j a yi.
Proof.
  intros HC Hkeep Hne. destruct (Hkeep j Hne) as (?&?&?&?&?).
  by apply svc_sets_at_ext.
Qed.

(** The steps of [commit], one after the other. *)
Lemma svc_commit_chain (s s' : state) (i1 i2 : Z) (p : plan) (r : bool) :
  commit s i1 i2 p = Ok (r, s') ->
  exists s2 s3 s4 s5,
    (svc_same_data s s2 /\ alphas s2 = alphas s /\
     svc_same_sets s s2) /\
    update_alphas s2 i1 i2 (snap (C s2) (new_alpha1 p)) (snap (C s2) (a2 p))
    = Ok s3 /\
    update_sets s3 i1 = Ok s4 /\
    update_sets s4 i2 = Ok s5 /\
    update_thresholds s5 i1 i2 = Ok s' /\
    b_low_idx s' <> (-1)%Z /\ b_up_idx s' <> (-1)%Z.
Proof.
  unfold commit. intros Hc.
  inv_bind_as Hc s1 Hw. inv_bind_as Hc s2 He. inv_bind_as Hc s3 Hal.
  inv_bind_as Hc s4 Hs1. inv_bind_as Hc s5 Hs2. inv_bind_as Hc s6 Ht.
  destruct (_ || _) eqn:E; [discriminate|]. injection Hc as <- <-.
  apply orb_false_iff in E as [E1 E2].
  exists s2, s3, s4, s5.
  apply svc_update_weight_same in Hw as (D1 & A1 & _ & S1).
  apply svc_update_errors_same in He as (D2 & A2 & _ & S2).
  split.
  { split; [by eapply svc_same_data_trans|]. split; [congruence|].
    destruct S1 as (?&?&?&?&?), S2 as (?&?&?&?&?). repeat split; congruence. }
  repeat split; try done; by apply Z.eqb_neq.
Qed.

Lemma svc_commit_wf (s s' : state) (i1 i2 : Z) (p : plan) (r : bool) :
  svc_wf s ->
  in_range (length (X s)) i1 -> in_range (length (X s)) i2 -> i1 <> i2 ->
  commit s i1 i2 p = Ok (r, s') ->
  svc_wf s' /\ svc_same_data s s'.
Proof.
  intros (Hlen & Hup & Hlow & HI0 & Hsets) Hi1 Hi2 Hne Hc.
  apply svc_commit_chain in Hc
    as (s2 & s3 & s4 & s5 & (D2 & A2 & S2) & Hal & Hs1 & Hs2 & Ht & Nl & Nu).
  apply svc_update_alphas_same in Hal as (D3 & S3 & al & Hal1 & Hal2).
  apply svc_update_sets_same in Hs1
    as (D4 & A4 & a1' & y1' & G1 & Gy1 & At1 & Keep1).
  apply svc_update_sets_same in Hs2
    as (D5 & A5 & a2' & y2' & G2 & Gy2 & At2 & Keep2).
  pose proof (svc_update_thresholds_same _ _ _ _ Ht) as (D6 & A6 & S6).
  apply svc_update_thresholds_spec in Ht as (_ & _ & _ & _ & Hd).
  assert (svc_same_data s s') as Hdata.
  { repeat (eapply svc_same_data_trans; [|eassumption]). done. }
  split; [|done].
  destruct Hdata as (HX & Hy & HK & Hker & HC & Htol).
  destruct (in_range_norm _ _ Hi1) as [N1 Z1].
  destruct (in_range_norm _ _ Hi2) as [N2 Z2].
  set (k1 := Z.to_nat i1) in *. set (k2 := Z.to_nat i2) in *.
  assert (k1 <> k2) as Hk by lia.
  rewrite A2 in Hal1.
  apply setitem_Ok in Hal1 as (k1' & Hk1' & ->).
  apply setitem_Ok in Hal2 as (k2' & Hk2' & Hal2).
  rewrite Hlen in Hk1'. rewrite length_insert, Hlen in Hk2'.
  assert (k1' = k1) as -> by congruence.
  assert (k2' = k2) as -> by congruence.
  assert (alphas s' = alphas s3) as Hal' by congruence.
  assert (forall j, mem j (I0 s5) = true -> in_range (length (X s)) j) as HI5.
  { intros j Hj. destruct (Z.eq_dec j i2) as [-> | Hj2]; [done|].
    destruct (Keep2 j Hj2) as (E0 & _). rewrite E0 in Hj.
    destruct (Z.eq_dec j i1) as [-> | Hj1]; [done|].
    destruct (Keep1 j Hj1) as (E0' & _). rewrite E0' in Hj.
    destruct S3 as (E3 & _). destruct S2 as (E2 & _).
    apply HI0. by rewrite <- E2, <- E3. }
  destruct S6 as (E60 & E61 & E62 & E63 & E64).
  unfold svc_wf. cbv zeta. rewrite HX.
  refine (conj _ (conj _ (conj _ (conj _ _)))).
  - rewrite Hal', Hal2, !length_insert. done.
  - destruct Hd as [[? | Hd] _]; [done|]. simpl in Hd.
    apply elem_of_app in Hd as [Hd | Hd].
    + apply HI5. by apply mem_members.
    + apply elem_of_cons in Hd as [-> | Hd]; [done|].
      apply list_elem_of_singleton in Hd as ->. done.
  - destruct Hd as [_ [? | Hd]]; [done|]. simpl in Hd.
    apply elem_of_app in Hd as [Hd | Hd].
    + apply HI5. by apply mem_members.
    + apply elem_of_cons in Hd as [-> | Hd]; [done|].
      apply list_elem_of_singleton in Hd as ->. done.
  - intros j Hj. rewrite E60 in Hj. by apply HI5.
  - intros k a yk Ha Hyk. rewrite Hal', Hal2 in Ha. rewrite Hy in Hyk.
    assert (C s5 = C s) as HC5.
    { destruct D2 as (_&_&_&_&c2&_), D3 as (_&_&_&_&c3&_),
        D4 as (_&_&_&_&c4&_), D5 as (_&_&_&_&c5&_). congruence. }
    assert (y s4 = y s /\ y s3 = y s) as [Hy4 Hy3].
    { destruct D2 as (_&y2&_), D3 as (_&y3&_), D4 as (_&y4&_).
      split; congruence. }
    apply (svc_sets_at_ext s5);
      [congruence | by rewrite E60 | by rewrite E61 | by rewrite E62
      | by rewrite E63 | by rewrite E64 |].
    destruct (decide (k = k2)) as [-> | Hk2].
    + (* the second index *)
      rewrite A4, Hal2 in G2. rewrite Hy4 in Gy2.
      apply getitem_in_range in G2 as [_ G2]; [|unfold in_range in Hi2; lia].
      apply getitem_in_range in Gy2 as [_ Gy2]; [|unfold in_range in Hi2; lia].
      fold k2 in G2, Gy2.
      assert (a2' = a) as -> by congruence.
      assert (y2' = yk) as -> by congruence.
      by rewrite <- Z2.
    + rewrite list_lookup_insert_ne in Ha by done.
      destruct (decide (k = k1)) as [-> | Hk1].
      * (* the first index *)
        rewrite Hal2 in G1. rewrite Hy3 in Gy1.
        apply getitem_in_range in G1 as [_ G1]; [|unfold in_range in Hi1; lia].
        apply getitem_in_range in Gy1 as [_ Gy1]; [|unfold in_range in Hi1; lia].
        fold k1 in G1, Gy1.
        rewrite list_lookup_insert_ne in G1 by done.
        assert (a1' = a) as -> by congruence.
        assert (y1' = yk) as -> by congruence.
        rewrite <- Z1.
        eapply (svc_sets_at_keep s4 s5 _ i2); [|exact Keep2|lia|].
        -- by destruct D5 as (_&_&_&_&c5&_).
        -- exact At1.
      * rewrite list_lookup_insert_ne in Ha by done.
        specialize (Hsets k a yk Ha Hyk).
        eapply (svc_sets_at_keep s4 s5 _ i2); [|exact Keep2|lia|].
        { by destruct D5 as (_&_&_&_&c5&_). }
        eapply (svc_sets_at_keep s3 s4 _ i1); [|exact Keep1|lia|].
        { by destruct D4 as (_&_&_&_&c4&_). }
        destruct S3 as (?&?&?&?&?), S2 as (?&?&?&?&?).
        apply (svc_sets_at_ext s); try congruence.
        destruct D2 as (_&_&_&_&c2&_), D3 as (_&_&_&_&c3&_). congruence.
Qed.

End Partition.

Section PartitionRun.
Import SVC.SMOClassifier.

Lemma svc_same_data_refl (s : state) : svc_same_data s s.
Proof. unfold svc_same_data. repeat split. Qed.

Lemma svc_take_step_wf (s s' : state) (i1 i2 : Z) (r : bool) :
  svc_wf s ->
  in_range (length (X s)) i1 -> in_range (length (X s)) i2 ->
  _take_step s i1 i2 = Ok (r, s') ->
  svc_wf s' /\ svc_same_data s s'.
Proof.
  intros Hwf Hi1 Hi2 Hstep. unfold _take_step in Hstep.
  destruct (i1 =? i2)%Z eqn:Hne.
  { injection Hstep as <- <-. split; [done | apply svc_same_data_refl]. }
  apply Z.eqb_neq in Hne.
  inv_bind_as Hstep op Hsolve.
  destruct op as [p|].
  2: { injection Hstep as <- <-. split; [done | apply svc_same_data_refl]. }
  destruct (negligible _ _).
  { injection Hstep as <- <-. split; [done | apply svc_same_data_refl]. }
  exact (svc_commit_wf s s' i1 i2 p r Hwf Hi1 Hi2 Hne Hstep).
Qed.

Lemma svc_wf_ext (s s' : state) :
  svc_wf s ->
  X s' = X s -> alphas s' = alphas s -> y s' = y s -> C s' = C s ->
  svc_same_sets s s' ->
  in_range (length (X s)) (b_up_idx s') ->
  in_range (length (X s)) (b_low_idx s') ->
  svc_wf s'.
Proof.
  intros (Hlen & _ & _ & HI0 & Hsets) HX Hal Hy HC (E0 & E1 & E2 & E3 & E4)
    Hup Hlow.
  unfold svc_wf. cbv zeta. rewrite HX, Hal.
  refine (conj Hlen (conj Hup (conj Hlow (conj _ _)))).
  - intros i. rewrite E0. apply HI0.
  - intros k q yk Hq Hyk. rewrite Hal in Hq. rewrite Hy in Hyk.
    specialize (Hsets k q yk Hq Hyk).
    apply (svc_sets_at_ext s); congruence.
Qed.

Lemma svc_error_of_wf (s s' : state) (i2 : Z) (E : Q) :
  svc_wf s -> in_range (length (X s)) i2 ->
  error_of s i2 = Ok (E, s') ->
  svc_wf s' /\ svc_same_data s s'.
Proof.
  intros Hwf Hi2 He. pose proof Hwf as (_ & Hup & Hlow & _).
  unfold error_of in He.
  destruct (mem i2 (I0 s)).
  { inv_bind He. injection He as <- <-.
    split; [done | apply svc_same_data_refl]. }
  inv_bind He. inv_bind He. inv_bind He. inv_bind He. inv_bind He.
  simpl in He.
  repeat match type of He with
  | (if ?b then _ else _) = _ => destruct b
  end; injection He as <- <-;
    (split; [|unfold svc_same_data; repeat split]);
    apply (svc_wf_ext s); try done; unfold svc_same_sets; repeat split.
Qed.

Lemma check_optimality_index (s : state) (i2 : Z) (E : Q) (i1 : Z) :
  check_optimality s i2 E = (false, i1) ->
  i1 = b_low_idx s \/ i1 = b_up_idx s.
Proof.
  unfold check_optimality.
  repeat match goal with
  | |- context [if ?b then _ else _] => destruct b
  end; intros [= <-]; auto.
Qed.

Lemma svc_examine_wf (s s' : state) (i2 : Z) (r : bool) :
  svc_wf s -> in_range (length (X s)) i2 ->
  _examine_example s i2 = Ok (r, s') ->
  svc_wf s' /\ svc_same_data s s'.
Proof.
  intros Hwf Hi2 Hex. unfold _examine_example in Hex.
  inv_bind_as Hex es Herr. destruct es as [E s1].
  destruct (svc_error_of_wf _ _ _ _ Hwf Hi2 Herr) as [Hwf1 Hd1].
  assert (X s1 = X s) as HX by apply Hd1.
  destruct (check_optimality s1 i2 E) as [optimal i1] eqn:Hopt.
  destruct optimal; [by injection Hex as <- <-|].
  apply check_optimality_index in Hopt.
  destruct (_ =? -1)%Z; [discriminate|].
  pose proof Hwf1 as (_ & Hup & Hlow & _).
  eapply svc_take_step_wf in Hex as [Hwf' Hd']; [| done | | by rewrite HX].
  - split; [done | by eapply svc_same_data_trans].
  - destruct (mem i2 (I0 s1)); [destruct (ltb _ _); done|].
    destruct Hopt as [-> | ->]; done.
Qed.

(** The indices [where_eq] gathers. *)
Lemma where_eq_members (m a : nat) (y : list Q) (v : Q) (acc l : list Z) :
  for_each (Z.of_nat <$> seq a m)
    (fun acc i => do yi <- getitem y i ; Ok (if eqb yi v then acc ++ [i] else acc))
    acc = Ok l ->
  forall k : nat,
    Z.of_nat k ∈ l <->
    Z.of_nat k ∈ acc \/
    ((a <= k < a + m)%nat /\ exists q, y !! k = Some q /\ eqb q v = true).
Proof.
  revert a acc. induction m as [|m IH]; intros a acc Hrun k; simpl in Hrun.
  - injection Hrun as <-. split; [by left|]. intros [? | [? _]]; [done | lia].
  - inv_bind_as Hrun acc1 Hbody. inv_bind_as Hbody q Hq. injection Hbody as <-.
    rewrite getitem_of_nat in Hq.
    destruct (y !! a) as [q'|] eqn:Hya; [|discriminate]. injection Hq as ->.
    rewrite (IH _ _ Hrun k). split.
    + intros [Hin | (Hk & q' & Hq' & Hv)].
      * destruct (eqb q v) eqn:Ev; [|by left].
        apply elem_of_app in Hin as [Hin | Hin]; [by left|].
        apply list_elem_of_singleton in Hin. assert (k = a) as -> by lia.
        right. split; [lia|]. eauto.
      * right. split; [lia|]. eauto.
    + intros [Hin | (Hk & q' & Hq' & Hv)].
      * left. destruct (eqb q v); [|done]. apply elem_of_app. by left.
      * destruct (decide (k = a)) as [-> | Hne].
        -- left. assert (q' = q) as -> by congruence. rewrite Hv.
           apply elem_of_app. right. by apply list_elem_of_singleton.
        -- right. split; [lia|]. eauto.
Qed.

Lemma mem_list_to_set (i : Z) (l : list Z) :
  mem i (list_to_set l) = bool_decide (i ∈ l).
Proof. unfold mem. apply bool_decide_ext. set_solver. Qed.

Lemma mem_empty (i : Z) : mem i ∅ = false.
Proof. unfold mem. apply bool_decide_eq_false. set_solver. Qed.

Lemma svc_init_wf (X : list (list Q)) (y : list Q) (K : list (list Q))
    (kernel : string) (C tol : Q) (s0 : state) :
  ~ C == 0 ->
  __init__ X y K kernel C tol = Ok s0 ->
  svc_wf s0 /\ SVC.SMOClassifier.X s0 = X.
Proof.
  intros HC Hinit. unfold __init__ in Hinit.
  inv_bind_as Hinit pos Hpos. inv_bind_as Hinit neg Hneg.
  inv_bind_as Hinit iu Hiu. inv_bind_as Hinit il Hil.
  inv_bind_as Hinit e1 He1. inv_bind_as Hinit e2 He2.
  injection Hinit as <-. split; [|done].
  apply next_where_found in Hiu as (ku & qu & -> & _).
  apply next_where_found in Hil as (kl & ql & -> & _).
  apply setitem_Ok in He1 as (ku' & Hku & ->).
  apply setitem_Ok in He2 as (kl' & Hkl & _).
  rewrite length_replicate in Hku. rewrite length_insert, length_replicate in Hkl.
  apply norm_index_lt in Hku as Hku'. apply norm_index_lt in Hkl as Hkl'.
  rewrite norm_index_of_nat in Hku, Hkl.
  case_decide; [|discriminate]. case_decide; [|discriminate].
  unfold svc_wf. simpl.
  refine (conj _ (conj _ (conj _ (conj _ _)))).
  - apply length_replicate.
  - unfold in_range. lia.
  - unfold in_range. lia.
  - intros i. by rewrite mem_empty.
  - intros k a yk Ha Hyk. simpl in *.
    apply lookup_replicate in Ha as [-> Hk].
    unfold svc_sets_at. simpl. rewrite !mem_empty, !mem_list_to_set.
    unfold where_eq, range in Hpos, Hneg.
    assert (inside C 0 = false) as ->.
    { unfold inside. cmp; simpl; done || (exfalso; lra). }
    assert (eqb 0 C = false) as -> by (apply eqb_neq; lra).
    assert (eqb 0 0 = true) as -> by (by apply eqb_eq).
    rewrite !andb_false_r, !andb_true_r.
    split; [done|]. split; [|split; [done|split; [done|]]].
    + destruct (eqb yk 1) eqn:Ev.
      * apply bool_decide_eq_true. apply (where_eq_members _ _ _ _ _ _ Hpos).
        right. split; [lia|]. eauto.
      * apply bool_decide_eq_false. intros Hin.
        apply (where_eq_members _ _ _ _ _ _ Hpos) in Hin
          as [Hin | (_ & q & Hq & Hv)]; [by apply elem_of_nil in Hin|].
        congruence.
    + destruct (eqb yk (-1)) eqn:Ev.
      * apply bool_decide_eq_true. apply (where_eq_members _ _ _ _ _ _ Hneg).
        right. split; [lia|]. eauto.
      * apply bool_decide_eq_false. intros Hin.
        apply (where_eq_members _ _ _ _ _ _ Hneg) in Hin
          as [Hin | (_ & q & Hq & Hv)]; [by apply elem_of_nil in Hin|].
        congruence.
Qed.

Lemma svc_run_wf (s0 s : state) :
  svc_wf s0 -> svc_run s0 s -> svc_wf s /\ svc_same_data s0 s.
Proof.
  intros Hwf0. induction 1 as [|s s' i2 r _ [IH Hd] Hi Hex
                                |s s' i1 i2 r _ [IH Hd] Hi1 Hi2 Hstep].
  - split; [done | apply svc_same_data_refl].
  - destruct (svc_examine_wf _ _ _ _ IH Hi Hex) as [Hwf' Hd'].
    split; [done | by eapply svc_same_data_trans].
  - destruct (svc_take_step_wf _ _ _ _ _ IH Hi1 Hi2 Hstep) as [Hwf' Hd'].
    split; [done | by eapply svc_same_data_trans].
Qed.

Lemma in_range_range (n : nat) : Forall (in_range n) (range n).
Proof.
  unfold range. apply Forall_fmap, Forall_forall. intros k Hk.
  apply elem_of_seq in Hk. unfold in_range. simpl. lia.
Qed.

Lemma svc_sweep_all_run (s0 : state) (idxs : list Z)
    (s s' : state) (n n' : nat) :
  svc_wf s0 -> svc_run s0 s ->
  Forall (in_range (length (X s0))) idxs ->
  for_each idxs
    (fun '(n, s) i =>
       do '(r, s) <- _examine_example s i ;
       Ok ((n + Nat.b2n r)%nat, s))
    (n, s) = Ok (n', s') ->
  svc_run s0 s'.
Proof.
  intros Hwf0. revert s n.
  induction idxs as [|i idxs IH]; intros s n Hrun Hidx Hsweep; simpl in Hsweep.
  - by injection Hsweep as <- <-.
  - inv_bind_as Hsweep ns Hbody. inv_bind_as Hbody rs Hex.
    destruct rs as [r s1]. injection Hbody as <-.
    apply Forall_cons in Hidx as [Hi Hidx].
    eapply IH; [|done|exact Hsweep].
    eapply svc_run_examine; [exact Hrun| |exact Hex].
    destruct (svc_run_wf _ _ Hwf0 Hrun) as [_ Hd].
    destruct Hd as (-> & _). done.
Qed.

Lemma svc_sweep_active_run (s0 : state) (idxs : list Z)
    (s s' : state) (n n' : nat) :
  svc_wf s0 -> svc_run s0 s ->
  Forall (in_range (length (X s0))) idxs ->
  sweep_active idxs s n = Ok (n', s') ->
  svc_run s0 s'.
Proof.
  intros Hwf0. revert s n.
  induction idxs as [|i idxs IH]; intros s n Hrun Hidx Hsweep; simpl in Hsweep.
  - by injection Hsweep as <- <-.
  - apply Forall_cons in Hidx as [Hi Hidx].
    inv_bind_as Hsweep a Ha. destruct (inside _ _); [|by eapply IH].
    inv_bind_as Hsweep rs Hex. destruct rs as [r s1].
    assert (svc_run s0 s1) as Hrun1.
    { eapply svc_run_examine; [exact Hrun| |exact Hex].
      destruct (svc_run_wf _ _ Hwf0 Hrun) as [_ Hd].
      destruct Hd as (-> & _). done. }
    destruct (ltb _ _); [by injection Hsweep as <- <-|]. by eapply IH.
Qed.

Lemma svc_loop_run (fuel : nat) (s0 : state) (d d' : driver) :
  svc_wf s0 -> svc_run s0 (engine d) -> loop fuel d = Ok d' ->
  svc_run s0 (engine d').
Proof.
  intros Hwf0. revert d.
  induction fuel as [|fuel IH]; intros d Hrun Hloop; simpl in Hloop.
  - destruct (running d); [discriminate|]. by injection Hloop as <-.
  - destruct (running d); [|by injection Hloop as <-].
    inv_bind_as Hloop d1 Hit. eapply IH; [|exact Hloop].
    unfold iteration in Hit.
    inv_bind_as Hit ns Hsweep. destruct ns as [n s1].
    injection Hit as <-. simpl.
    assert (length (X (engine d)) = length (X s0)) as HX.
    { destruct (svc_run_wf _ _ Hwf0 Hrun) as [_ (-> & _)]. done. }
    destruct (examine_all d).
    + eapply svc_sweep_all_run; [done|exact Hrun| |exact Hsweep].
      rewrite HX. apply in_range_range.
    + eapply svc_sweep_active_run; [done|exact Hrun| |exact Hsweep].
      rewrite HX. apply in_range_range.
Qed.

End PartitionRun.

Section PartitionTheorem.
Import SVC.SMOClassifier.

Lemma svc_run_reach (s0 s : state) : svc_run s0 s -> svc_reach s0 s.
Proof.
  induction 1 as [|s s' i2 r _ IH Hi Hex|s s' i1 i2 r _ IH Hi1 Hi2 Hstep].
  - apply svc_reach_init.
  - by eapply svc_reach_examine.
  - by eapply svc_reach_step.
Qed.

(** [where_eq] reads every label below [n]. *)
Lemma where_eq_covers (m b : nat) (y : list Q) (v : Q) (acc l : list Z) :
  for_each (Z.of_nat <$> seq b m)
    (fun acc i => do yi <- getitem y i ; Ok (if eqb yi v then acc ++ [i] else acc))
    acc = Ok l ->
  (m = 0 \/ b + m <= length y)%nat.
Proof.
  revert b acc. induction m as [|m IH]; intros b acc Hrun; [by left|].
  right. simpl in Hrun. inv_bind_as Hrun acc1 Hbody. inv_bind_as Hbody q Hq.
  injection Hbody as <-. rewrite getitem_of_nat in Hq.
  destruct (y !! b) eqn:Hyb; [|discriminate].
  apply lookup_lt_Some in Hyb.
  destruct (IH _ _ Hrun) as [-> | Hle]; lia.
Qed.

(** A multiplier of the box and a label meet exactly one of the five
    conditions. *)
Lemma svc_one_condition (C a yk : Q) :
  0 < C -> in_box C a -> is_label yk ->
  (Nat.b2n (inside C a) + Nat.b2n (eqb yk 1 && eqb a 0)
   + Nat.b2n (eqb yk (-1) && eqb a C) + Nat.b2n (eqb yk 1 && eqb a C)
   + Nat.b2n (eqb yk (-1) && eqb a 0))%nat = 1%nat.
Proof.
  intros HC [Ha0 HaC] Hlab. unfold inside.
  destruct Hlab as [Hy | Hy]; cmp; simpl; try reflexivity; exfalso; lra.
Qed.

(** X10: the index sets of the classification engine.  In every engine of
    a run started by [__init__] with [C] not zero, and in the engine [smo]
    returns, each example [k] is in [I0] exactly when [0 < alphas[k] < C],
    in [I1] exactly when [y[k] == 1 and alphas[k] == 0], in [I2] exactly
    when [y[k] == -1 and alphas[k] == C], in [I3] exactly when
    [y[k] == 1 and alphas[k] == C] and in [I4] exactly when
    [y[k] == -1 and alphas[k] == 0]; the threshold indices and the members
    of [I0] are among [0 .. n-1].  With labels [+1]/[-1] and [C > 0] the
    five sets partition the examples: each one is in exactly one set. *)
Theorem X10_classification_index_sets :
  forall X y K kernel C tol s0 s,
    ~ C == 0 ->
    __init__ X y K kernel C tol = Ok s0 ->
    (svc_run s0 s \/ exists fuel, smo fuel s0 = Ok s) ->
    (svc_sets_ok s /\
     length (alphas s) = length X /\
     in_range (length X) (b_up_idx s) /\
     in_range (length X) (b_low_idx s) /\
     (forall i, mem i (I0 s) = true -> in_range (length X) i)) /\
    (0 < C -> Forall is_label y ->
     forall k : nat, (k < length X)%nat -> svc_count s (Z.of_nat k) = 1%nat).
Proof.
  intros X y K kernel C tol s0 s HC Hinit Hrun.
  destruct (svc_init_wf _ _ _ _ _ _ _ HC Hinit) as [Hwf0 HX0].
  assert (SVC.SMOClassifier.C s0 = C /\ SVC.SMOClassifier.y s0 = y)
    as [HC0 Hy0].
  { unfold __init__ in Hinit.
    inv_bind Hinit. inv_bind Hinit. inv_bind Hinit. inv_bind Hinit.
    inv_bind Hinit. inv_bind Hinit. by injection Hinit as <-. }
  assert (exists s1, svc_run s0 s1 /\
            (alphas s = alphas s1 /\ SVC.SMOClassifier.X s = SVC.SMOClassifier.X s1 /\
             SVC.SMOClassifier.y s = SVC.SMOClassifier.y s1 /\
             SVC.SMOClassifier.C s = SVC.SMOClassifier.C s1) /\
            svc_same_sets s1 s /\
            b_up_idx s = b_up_idx s1 /\ b_low_idx s = b_low_idx s1)
    as (s1 & Hrun1 & (Ea & EX & Ey & EC) & Hsets1 & Hbu & Hbl).
  { destruct Hrun as [Hrun | [fuel Hsmo]].
    - exists s. unfold svc_same_sets. by repeat split.
    - unfold smo in Hsmo. inv_bind_as Hsmo d Hloop. injection Hsmo as <-.
      exists (engine d). split.
      + apply (svc_loop_run fuel s0 (start s0) d Hwf0); [|exact Hloop].
        apply svc_run_init.
      + unfold svc_same_sets. by repeat split. }
  destruct (svc_run_wf _ _ Hwf0 Hrun1) as [Hwf1 Hd1].
  assert (svc_wf s) as Hwf.
  { apply (svc_wf_ext s1); try done.
    - pose proof Hwf1 as (_ & Hu & _). by rewrite Hbu.
    - pose proof Hwf1 as (_ & _ & Hl & _). by rewrite Hbl. }
  assert (SVC.SMOClassifier.X s = X) as HXs.
  { destruct Hd1 as (HX1 & _). congruence. }
  pose proof Hwf as (Hlen & Hup & Hlow & HI0 & Hsets).
  rewrite HXs in Hlen, Hup, Hlow, HI0.
  split; [done|].
  intros HCpos Hlab k Hk.
  assert (cls_inv s1) as (_ & Hbox & Hlab1).
  { eapply svc_reach_inv; [|by apply svc_run_reach].
    eapply svc_init_inv; [|exact Hlab|exact Hinit]. lra. }
  assert (SVC.SMOClassifier.C s = C) as HCs.
  { destruct Hd1 as (_&_&_&_&c1&_). congruence. }
  rewrite <- Ea in Hbox. rewrite <- Ey in Hlab1.
  assert (SVC.SMOClassifier.C s1 = C) as HC1 by congruence.
  rewrite HC1 in Hbox.
  destruct (lookup_lt_is_Some_2 (alphas s) k) as [a Ha]; [lia|].
  assert (exists yk, SVC.SMOClassifier.y s !! k = Some yk) as [yk Hyk].
  { (* the labels cover the examples, or [__init__] would have failed *)
    assert (SVC.SMOClassifier.y s = y) as ->.
    { destruct Hd1 as (_ & y1 & _). congruence. }
    unfold __init__ in Hinit. inv_bind_as Hinit pos Hpos.
    unfold where_eq, range in Hpos. apply where_eq_covers in Hpos.
    apply lookup_lt_is_Some. lia. }
  specialize (Hsets k a yk Ha Hyk) as (M0 & M1 & M2 & M3 & M4).
  unfold svc_count. rewrite M0, M1, M2, M3, M4, HCs.
  apply svc_one_condition; [done | |].
  - eapply Forall_lookup_1; [exact Hbox | exact Ha].
  - eapply Forall_lookup_1; [exact Hlab1 | exact Hyk].
Qed.

End PartitionTheorem.

Section PartitionWitness.
Import SVC.SMOClassifier.

(** The trained classification sample: the two support vectors [0] and
    [2] are the members of [I0], and every example is in one set. *)
Lemma X10_classification_index_sets_witness :
  exists s,
    Samples.svc_trained = Ok s /\
    svc_sets_ok s /\
    mem 0 (I0 s) = true /\ mem 1 (I1 s) = true /\
    svc_count s 0 = 1%nat /\ svc_count s 1 = 1%nat.
Proof.
  eexists. split; [vm_compute; reflexivity|].
  match goal with
  | |- svc_sets_ok ?s /\ _ => set (s1 := s)
  end.
  assert (exists s0, Samples.svc_init = Ok s0 /\ smo 10 s0 = Ok s1)
    as (s0 & Hinit & Hsmo).
  { eexists. split; [vm_compute; reflexivity|]. vm_compute; reflexivity. }
  destruct (X10_classification_index_sets
              Samples.svc_X Samples.svc_y Samples.svc_K "linear"%string
              1 (1 # 1000) s0 s1) as [(Hsets & _) Hone].
  - discriminate.
  - exact Hinit.
  - right. by exists 10%nat.
  - split; [exact Hsets|].
    split; [vm_compute; reflexivity|]. split; [vm_compute; reflexivity|].
    assert (Forall is_label Samples.svc_y) as Hlab.
    { unfold Samples.svc_y, is_label. repeat constructor; (by left) || (by right). }
    split.
    + apply (Hone ltac:(reflexivity) Hlab 0%nat). simpl. lia.
    + apply (Hone ltac:(reflexivity) Hlab 1%nat). simpl. lia.
Defined.

End PartitionWitness.

Section RegressionPartition.
Import SVR.SMORegression.

Lemma svr_same_data_refl (s : state) : svr_same_data s s.
Proof. unfold svr_same_data. repeat split. Qed.

Lemma svr_same_data_trans (s1 s2 s3 : state) :
  svr_same_data s1 s2 -> svr_same_data s2 s3 -> svr_same_data s1 s3.
Proof.
  unfold svr_same_data. intros (?&?&?&?&?&?&?) (?&?&?&?&?&?&?).
  repeat split; congruence.
Qed.

Lemma svr_update_weight_same (s s' : state) (i1 i2 : Z) (d1 d2 : Q) :
  update_weight s i1 i2 d1 d2 = Ok s' ->
  svr_same_data s s' /\ alphas_p s' = alphas_p s /\ alphas_n s' = alphas_n s /\
  errors s' = errors s /\ svr_same_sets s s'.
Proof.
  unfold update_weight, svr_same_data, svr_same_sets. intros Hu.
  destruct (String.eqb _ _); [|by injection Hu as <-].
  inv_bind Hu. inv_bind Hu. inv_bind Hu.
  destruct (w s); [|discriminate]. inv_bind Hu. by injection Hu as <-.
Qed.

Lemma svr_update_errors_same (s s' : state) (i1 i2 : Z) (p : plan) (d1 d2 : Q) :
  update_errors s i1 i2 p d1 d2 = Ok s' ->
  svr_same_data s s' /\ alphas_p s' = alphas_p s /\ alphas_n s' = alphas_n s /\
  w s' = w s /\ svr_same_sets s s'.
Proof.
  unfold update_errors, svr_same_data, svr_same_sets. intros Hu.
  inv_bind Hu. inv_bind Hu. inv_bind Hu. inv_bind Hu. inv_bind Hu.
  by injection Hu as <-.
Qed.

Lemma svr_update_alphas_same (s s' : state) (i1 i2 : Z) (a1p a1n a2p a2n : Q) :
  update_alphas s i1 i2 a1p a1n a2p a2n = Ok s' ->
  svr_same_data s s' /\ svr_same_sets s s' /\
  exists ap an,
    setitem (alphas_p s) i1 a1p = Ok ap /\
    setitem ap i2 a2p = Ok (alphas_p s') /\
    setitem (alphas_n s) i1 a1n = Ok an /\
    setitem an i2 a2n = Ok (alphas_n s').
Proof.
  unfold update_alphas, svr_same_data, svr_same_sets. intros Hu.
  inv_bind_as Hu ap Hap. inv_bind_as Hu ap' Hap'.
  inv_bind_as Hu an Han. inv_bind_as Hu an' Han'.
  injection Hu as <-. simpl.
  split; [by repeat split|]. split; [by repeat split|]. eauto 10.
Qed.

Lemma is_free_spec (s : state) (i : Z) (c : bool) :
  is_free s i = Ok c ->
  exists ap, getitem (alphas_p s) i = Ok ap /\
    ((inside (C s) ap = true /\ c = true) \/
     (inside (C s) ap = false /\
      exists an, getitem (alphas_n s) i = Ok an /\ c = inside (C s) an)).
Proof.
  unfold is_free. intros Hf. inv_bind_as Hf ap Hap. exists ap. split; [done|].
  destruct (inside (C s) ap).
  - left. by injection Hf as <-.
  - right. split; [done|]. inv_bind_as Hf an Han. injection Hf as <-. eauto.
Qed.

Lemma is_at_spec (s : state) (i : Z) (u v : Q) (c : bool) :
  is_at s i u v = Ok c ->
  exists ap, getitem (alphas_p s) i = Ok ap /\
    ((eqb ap u = false /\ c = false) \/
     (eqb ap u = true /\
      exists an, getitem (alphas_n s) i = Ok an /\ c = eqb an v)).
Proof.
  unfold is_at. intros Hf. inv_bind_as Hf ap Hap. exists ap. split; [done|].
  destruct (eqb ap u).
  - right. split; [done|]. inv_bind_as Hf an Han. injection Hf as <-. eauto.
  - left. by injection Hf as <-.
Qed.

Lemma svr_update_sets_same (s s' : state) (i : Z) (ap an : Q) :
  getitem (alphas_p s) i = Ok ap -> getitem (alphas_n s) i = Ok an ->
  update_sets s i = Ok s' ->
  svr_same_data s s' /\ alphas_p s' = alphas_p s /\ alphas_n s' = alphas_n s /\
  svr_sets_at s' i ap an /\
  forall j, j <> i ->
    mem j (I0 s') = mem j (I0 s) /\ mem j (I1 s') = mem j (I1 s) /\
    mem j (I2 s') = mem j (I2 s) /\ mem j (I3 s') = mem j (I3 s).
Proof.
  intros Gp Gn Hu. unfold update_sets in Hu.
  inv_bind_as Hu c0 H0. inv_bind_as Hu c1 H1.
  inv_bind_as Hu c2 H2. inv_bind_as Hu c3 H3. injection Hu as <-.
  unfold svr_same_data. simpl.
  split; [by repeat split|]. split; [done|]. split; [done|].
  split.
  - unfold svr_sets_at. simpl. rewrite !mem_put, Z.eqb_refl.
    apply is_free_spec in H0 as (ap0 & G0 & F0).
    apply is_at_spec in H1 as (ap1 & G1 & F1).
    apply is_at_spec in H2 as (ap2 & G2 & F2).
    apply is_at_spec in H3 as (ap3 & G3 & F3).
    assert (ap0 = ap) as -> by congruence. assert (ap1 = ap) as -> by congruence.
    assert (ap2 = ap) as -> by congruence. assert (ap3 = ap) as -> by congruence.
    repeat split.
    + destruct F0 as [[-> ->] | (-> & an' & Gn' & ->)]; [done|].
      assert (an' = an) as -> by congruence. done.
    + destruct F1 as [[-> ->] | (-> & an' & Gn' & ->)]; [done|].
      assert (an' = an) as -> by congruence. done.
    + destruct F2 as [[-> ->] | (-> & an' & Gn' & ->)]; [done|].
      assert (an' = an) as -> by congruence. done.
    + destruct F3 as [[-> ->] | (-> & an' & Gn' & ->)]; [done|].
      assert (an' = an) as -> by congruence. done.
  - intros j Hj. rewrite !mem_put.
    destruct (Z.eqb_spec j i); [done|]. done.
Qed.

Lemma svr_sets_at_ext (s s' : state) (i : Z) (ap an : Q) :
  C s' = C s ->
  mem i (I0 s') = mem i (I0 s) -> mem i (I1 s') = mem i (I1 s) ->
  mem i (I2 s') = mem i (I2 s) -> mem i (I3 s') = mem i (I3 s) ->
  svr_sets_at s i ap an -> svr_sets_at s' i ap an.
Proof.
  unfold svr_sets_at. intros -> -> -> -> ->. done.
Qed.

Lemma svr_sets_at_keep (s s' : state) (j i : Z) (ap an : Q) :
  C s' = C s ->
  (forall j, j <> i ->
     mem j (I0 s') = mem j (I0 s) /\ mem j (I1 s') = mem j (I1 s) /\
     mem j (I2 s') = mem j (I2 s) /\ mem j (I3 s') = mem j (I3 s)) ->
  j <> i -> svr_sets_at s j ap an -> svr_sets_at s' j ap an.
Proof.
  intros HC Hkeep Hne. destruct (Hkeep j Hne) as (?&?&?&?).
  by apply svr_sets_at_ext.
Qed.

(** A threshold index after one step of a scan is the one before or the
    index scanned. *)
Lemma raise_low_idx (e : Q) (i : Z) (t : thresholds) :
  t_up_idx (raise_low e i t) = t_up_idx t /\
  (t_low_idx (raise_low e i t) = t_low_idx t \/ t_low_idx (raise_low e i t) = i).
Proof. unfold raise_low. destruct (ltb _ _); simpl; auto. Qed.

Lemma lower_up_idx (e : Q) (i : Z) (t : thresholds) :
  t_low_idx (lower_up e i t) = t_low_idx t /\
  (t_up_idx (lower_up e i t) = t_up_idx t \/ t_up_idx (lower_up e i t) = i).
Proof. unfold lower_up. destruct (ltb _ _); simpl; auto. Qed.

Lemma drawn_from_step (l : list Z) (i : Z) (t t' : thresholds) :
  (t_up_idx t' = t_up_idx t \/ t_up_idx t' = i) ->
  (t_low_idx t' = t_low_idx t \/ t_low_idx t' = i) ->
  drawn_from l t -> drawn_from (l ++ [i]) t'.
Proof.
  intros Hu Hl [Du Dl]. split.
  - destruct Hu as [-> | ->]; [|right; set_solver].
    destruct Du; [by left | right; set_solver].
  - destruct Hl as [-> | ->]; [|right; set_solver].
    destruct Dl; [by left | right; set_solver].
Qed.

Lemma scan_low_idx (s : state) (i : Z) (t t' : thresholds) :
  scan_low s i t = Ok t' ->
  t_up_idx t' = t_up_idx t /\ (t_low_idx t' = t_low_idx t \/ t_low_idx t' = i).
Proof.
  unfold scan_low. intros Hs. inv_bind_as Hs ap Hap.
  assert (forall t1,
    (do an <- getitem (alphas_n s) i ;
     if inside (C s) an then
       do e <- getitem (errors s) i ; Ok (raise_low (e + epsilon s) i t)
     else Ok t) = Ok t1 ->
    t_up_idx t1 = t_up_idx t /\ (t_low_idx t1 = t_low_idx t \/ t_low_idx t1 = i))
    as Hother.
  { intros t1 H1. inv_bind_as H1 an Han. destruct (inside (C s) an).
    - inv_bind_as H1 e He. injection H1 as <-. apply raise_low_idx.
    - injection H1 as <-. auto. }
  destruct (inside (C s) ap); [|by apply Hother].
  inv_bind_as Hs e He. destruct (ltb _ _); [|by apply Hother].
  injection Hs as <-. apply raise_low_idx.
Qed.

Lemma scan_up_idx (s : state) (i : Z) (t t' : thresholds) :
  scan_up s i t = Ok t' ->
  t_low_idx t' = t_low_idx t /\ (t_up_idx t' = t_up_idx t \/ t_up_idx t' = i).
Proof.
  unfold scan_up. intros Hs. inv_bind_as Hs ap Hap.
  assert (forall t1,
    (do an <- getitem (alphas_n s) i ;
     if inside (C s) an then
       do e <- getitem (errors s) i ; Ok (lower_up (e + epsilon s) i t)
     else Ok t) = Ok t1 ->
    t_low_idx t1 = t_low_idx t /\ (t_up_idx t1 = t_up_idx t \/ t_up_idx t1 = i))
    as Hother.
  { intros t1 H1. inv_bind_as H1 an Han. destruct (inside (C s) an).
    - inv_bind_as H1 e He. injection H1 as <-. apply lower_up_idx.
    - injection H1 as <-. auto. }
  destruct (inside (C s) ap); [|by apply Hother].
  inv_bind_as Hs e He. destruct (ltb _ _); [|by apply Hother].
  injection Hs as <-. apply lower_up_idx.
Qed.

Lemma svr_scan_I0_idx (s : state) (l seen : list Z) (t t' : thresholds) :
  for_each l (fun t i => do t <- scan_low s i t ; scan_up s i t) t = Ok t' ->
  drawn_from seen t -> drawn_from (seen ++ l) t'.
Proof.
  revert seen t. induction l as [|i l IH]; intros seen t Hrun Hd; simpl in Hrun.
  - injection Hrun as <-. by rewrite app_nil_r.
  - inv_bind_as Hrun t2 Hbody. inv_bind_as Hbody t1 Hlow.
    replace (seen ++ i :: l) with ((seen ++ [i]) ++ l)
      by (by rewrite <- app_assoc).
    eapply IH; [exact Hrun|].
    apply scan_low_idx in Hlow as [L1 L2].
    apply scan_up_idx in Hbody as [U1 U2].
    eapply drawn_from_step; [| |exact Hd].
    + rewrite <- L1. exact U2.
    + rewrite U1. exact L2.
Qed.

Lemma svr_rescan_bound_idx (s : state) (i : Z) (seen : list Z)
    (t t' : thresholds) :
  rescan_bound s i t = Ok t' ->
  drawn_from seen t -> drawn_from (seen ++ [i]) t'.
Proof.
  unfold rescan_bound. intros Hr Hd.
  assert (drawn_from (seen ++ [i]) t) as Hd0.
  { eapply drawn_from_step; [| |exact Hd]; by left. }
  destruct (negb _); [|by injection Hr as <-].
  inv_bind_as Hr t1 Hlow.
  assert (t_up_idx t1 = t_up_idx t /\
          (t_low_idx t1 = t_low_idx t \/ t_low_idx t1 = i)) as [L1 L2].
  { assert (forall t2,
      (if mem i (I1 s) then
         do e <- getitem (errors s) i ; Ok (raise_low (e - epsilon s) i t)
       else Ok t) = Ok t2 ->
      t_up_idx t2 = t_up_idx t /\
      (t_low_idx t2 = t_low_idx t \/ t_low_idx t2 = i)) as Hother.
    { intros t2 H2. destruct (mem i (I1 s)).
      - inv_bind_as H2 e He. injection H2 as <-. apply raise_low_idx.
      - injection H2 as <-. auto. }
    destruct (mem i (I2 s)); [|by apply Hother].
    inv_bind_as Hlow e He. destruct (ltb _ _); [|by apply Hother].
    injection Hlow as <-. apply raise_low_idx. }
  assert (t_low_idx t' = t_low_idx t1 /\
          (t_up_idx t' = t_up_idx t1 \/ t_up_idx t' = i)) as [U1 U2].
  { assert (forall t2,
      (if mem i (I1 s) then
         do e <- getitem (errors s) i ; Ok (lower_up (e + epsilon s) i t1)
       else Ok t1) = Ok t2 ->
      t_low_idx t2 = t_low_idx t1 /\
      (t_up_idx t2 = t_up_idx t1 \/ t_up_idx t2 = i)) as Hother.
    { intros t2 H2. destruct (mem i (I1 s)).
      - inv_bind_as H2 e He. injection H2 as <-. apply lower_up_idx.
      - injection H2 as <-. auto. }
    destruct (mem i (I3 s)); [|by apply Hother].
    inv_bind_as Hr e He. destruct (ltb _ _); [|by apply Hother].
    injection Hr as <-. apply lower_up_idx. }
  eapply drawn_from_step; [| |exact Hd].
  - rewrite <- L1. exact U2.
  - rewrite U1. exact L2.
Qed.

Lemma svr_update_thresholds_same (s s' : state) (i1 i2 : Z) :
  update_thresholds s i1 i2 = Ok s' ->
  svr_same_data s s' /\ alphas_p s' = alphas_p s /\ alphas_n s' = alphas_n s /\
  svr_same_sets s s' /\
  drawn_from (members (I0 s) ++ [i1; i2]) (get_thresholds s').
Proof.
  unfold update_thresholds, svr_same_data, svr_same_sets. intros Hu.
  inv_bind_as Hu t1 Hscan. inv_bind_as Hu t2 Hr1. inv_bind_as Hu t3 Hr2.
  injection Hu as <-. simpl.
  split; [by repeat split|]. split; [done|]. split; [done|].
  split; [by repeat split|].
  apply (svr_scan_I0_idx _ _ []) in Hscan; [|split; by left].
  simpl in Hscan.
  apply (svr_rescan_bound_idx _ _ _ _ _ Hr1) in Hscan.
  apply (svr_rescan_bound_idx _ _ _ _ _ Hr2) in Hscan.
  rewrite <- app_assoc in Hscan. simpl in Hscan. by destruct t3.
Qed.

(** The steps of [commit], one after the other. *)
Lemma svr_commit_chain (s s' : state) (i1 i2 : Z) (p : plan) (r : bool) :
  commit s i1 i2 p = Ok (r, s') ->
  exists s2 s3 s4 s5 a1p a1n a2p a2n,
    (svr_same_data s s2 /\ alphas_p s2 = alphas_p s /\
     alphas_n s2 = alphas_n s /\ svr_same_sets s s2) /\
    update_alphas s2 i1 i2 a1p a1n a2p a2n = Ok s3 /\
    update_sets s3 i1 = Ok s4 /\
    update_sets s4 i2 = Ok s5 /\
    update_thresholds s5 i1 i2 = Ok s' /\
    b_low_idx s' <> (-1)%Z /\ b_up_idx s' <> (-1)%Z.
Proof.
  unfold commit. intros Hc.
  inv_bind_as Hc s1 Hw. inv_bind_as Hc s2 He. inv_bind_as Hc s3 Hal.
  inv_bind_as Hc s4 Hs1. inv_bind_as Hc s5 Hs2. inv_bind_as Hc s6 Ht.
  destruct (_ || _) eqn:E; [discriminate|]. injection Hc as <- <-.
  apply orb_false_iff in E as [E1 E2].
  exists s2, s3, s4, s5. do 4 eexists.
  apply svr_update_weight_same in Hw as (D1 & P1 & N1 & _ & S1).
  apply svr_update_errors_same in He as (D2 & P2 & N2 & _ & S2).
  split.
  { split; [by eapply svr_same_data_trans|]. split; [congruence|].
    split; [congruence|].
    destruct S1 as (?&?&?&?), S2 as (?&?&?&?).
    unfold svr_same_sets. repeat split; congruence. }
  split; [exact Hal|].
  repeat split; try done; by apply Z.eqb_neq.
Qed.

End RegressionPartition.

Section RegressionPartitionRun.
Import SVR.SMORegression.

Lemma getitem_at {A : Type} (l : list A) (i : Z) :
  in_range (length l) i ->
  exists v, getitem l i = Ok v /\ l !! Z.to_nat i = Some v.
Proof.
  intros Hi.
  destruct (lookup_lt_is_Some_2 l (Z.to_nat i)) as [v Hv];
    [unfold in_range in Hi; lia|].
  exists v. split; [|done]. apply getitem_Ok. exists (Z.to_nat i).
  split; [by apply in_range_norm | done].
Qed.

Lemma svr_commit_wf (s s' : state) (i1 i2 : Z) (p : plan) (r : bool) :
  svr_wf s ->
  in_range (length (X s)) i1 -> in_range (length (X s)) i2 -> i1 <> i2 ->
  commit s i1 i2 p = Ok (r, s') ->
  svr_wf s' /\ svr_same_data s s'.
Proof.
  intros (Hlp & Hln & Hup & Hlow & HI0 & Hsets) Hi1 Hi2 Hne Hc.
  apply svr_commit_chain in Hc
    as (s2 & s3 & s4 & s5 & a1p & a1n & a2p & a2n &
        (D2 & P2 & N2 & S2) & Hal & Hs1 & Hs2 & Ht & Nl & Nu).
  apply svr_update_alphas_same in Hal
    as (D3 & S3 & lp & ln & Hp1 & Hp2 & Hn1 & Hn2).
  destruct (in_range_norm _ _ Hi1) as [N1 Z1].
  destruct (in_range_norm _ _ Hi2) as [N2' Z2].
  set (k1 := Z.to_nat i1) in *. set (k2 := Z.to_nat i2) in *.
  assert (k1 <> k2) as Hk by lia.
  rewrite P2 in Hp1. rewrite N2 in Hn1.
  apply setitem_Ok in Hp1 as (k1' & Hk1' & ->).
  apply setitem_Ok in Hp2 as (k2' & Hk2' & Hp2).
  rewrite Hlp in Hk1'. rewrite length_insert, Hlp in Hk2'.
  assert (k1' = k1) as -> by congruence.
  assert (k2' = k2) as -> by congruence.
  apply setitem_Ok in Hn1 as (k1' & Hk1n & ->).
  apply setitem_Ok in Hn2 as (k2' & Hk2n & Hn2).
  rewrite Hln in Hk1n. rewrite length_insert, Hln in Hk2n.
  assert (k1' = k1) as -> by congruence.
  assert (k2' = k2) as -> by congruence.
  assert (length (alphas_p s3) = length (X s)) as Hlp3
    by (by rewrite Hp2, !length_insert).
  assert (length (alphas_n s3) = length (X s)) as Hln3
    by (by rewrite Hn2, !length_insert).
  destruct (getitem_at (alphas_p s3) i1) as (v1p & G1p & L1p);
    [by rewrite Hlp3|].
  destruct (getitem_at (alphas_n s3) i1) as (v1n & G1n & L1n);
    [by rewrite Hln3|].
  fold k1 in L1p, L1n.
  destruct (svr_update_sets_same _ _ _ _ _ G1p G1n Hs1)
    as (D4 & P4 & N4 & At1 & Keep1).
  destruct (getitem_at (alphas_p s3) i2) as (v2p & G2p & L2p);
    [by rewrite Hlp3|].
  destruct (getitem_at (alphas_n s3) i2) as (v2n & G2n & L2n);
    [by rewrite Hln3|].
  fold k2 in L2p, L2n.
  rewrite <- P4 in G2p. rewrite <- N4 in G2n.
  destruct (svr_update_sets_same _ _ _ _ _ G2p G2n Hs2)
    as (D5 & P5 & N5 & At2 & Keep2).
  apply svr_update_thresholds_same in Ht as (D6 & P6 & N6 & S6 & Hd).
  assert (svr_same_data s s') as Hdata.
  { repeat (eapply svr_same_data_trans; [|eassumption]). done. }
  split; [|done].
  destruct Hdata as (HX & Hy & HK & Hker & HC & Heps & Htol).
  assert (alphas_p s' = alphas_p s3) as HP' by congruence.
  assert (alphas_n s' = alphas_n s3) as HN' by congruence.
  assert (forall j, mem j (I0 s5) = true -> in_range (length (X s)) j) as HI5.
  { intros j Hj. destruct (Z.eq_dec j i2) as [-> | Hj2]; [done|].
    destruct (Keep2 j Hj2) as (E0 & _). rewrite E0 in Hj.
    destruct (Z.eq_dec j i1) as [-> | Hj1]; [done|].
    destruct (Keep1 j Hj1) as (E0' & _). rewrite E0' in Hj.
    destruct S3 as (E3 & _). destruct S2 as (E2 & _).
    apply HI0. by rewrite <- E2, <- E3. }
  assert (forall j, j ∈ members (I0 s5) ++ [i1; i2] ->
            in_range (length (X s)) j) as Hdrawn.
  { intros j Hj. apply elem_of_app in Hj as [Hj | Hj].
    - apply HI5. by apply mem_members.
    - apply elem_of_cons in Hj as [-> | Hj]; [done|].
      apply list_elem_of_singleton in Hj as ->. done. }
  destruct S6 as (E60 & E61 & E62 & E63).
  unfold svr_wf. cbv zeta. rewrite HX.
  refine (conj _ (conj _ (conj _ (conj _ (conj _ _))))).
  - by rewrite HP'.
  - by rewrite HN'.
  - intros _. destruct Hd as [[? | Hd] _]; [done|]. by apply Hdrawn.
  - intros _. destruct Hd as [_ [? | Hd]]; [done|]. by apply Hdrawn.
  - intros j Hj. rewrite E60 in Hj. by apply HI5.
  - intros k ap an Hap Han. rewrite HP' in Hap. rewrite HN' in Han.
    assert (C s5 = C s) as HC5.
    { destruct D2 as (_&_&_&_&c2&_), D3 as (_&_&_&_&c3&_),
        D4 as (_&_&_&_&c4&_), D5 as (_&_&_&_&c5&_). congruence. }
    apply (svr_sets_at_ext s5);
      [congruence | by rewrite E60 | by rewrite E61 | by rewrite E62
      | by rewrite E63 |].
    destruct (decide (k = k2)) as [-> | Hk2].
    + (* the second index *)
      assert (v2p = ap) as -> by congruence.
      assert (v2n = an) as -> by congruence.
      by rewrite <- Z2.
    + destruct (decide (k = k1)) as [-> | Hk1].
      * (* the first index *)
        assert (v1p = ap) as -> by congruence.
        assert (v1n = an) as -> by congruence.
        rewrite <- Z1.
        eapply (svr_sets_at_keep s4 s5 _ i2); [|exact Keep2|lia|exact At1].
        by destruct D5 as (_&_&_&_&c5&_).
      * rewrite Hp2 in Hap. rewrite Hn2 in Han.
        rewrite !list_lookup_insert_ne in Hap by done.
        rewrite !list_lookup_insert_ne in Han by done.
        specialize (Hsets k ap an Hap Han).
        eapply (svr_sets_at_keep s4 s5 _ i2); [|exact Keep2|lia|].
        { by destruct D5 as (_&_&_&_&c5&_). }
        eapply (svr_sets_at_keep s3 s4 _ i1); [|exact Keep1|lia|].
        { by destruct D4 as (_&_&_&_&c4&_). }
        destruct S3 as (?&?&?&?), S2 as (?&?&?&?).
        apply (svr_sets_at_ext s); try congruence.
        destruct D2 as (_&_&_&_&c2&_), D3 as (_&_&_&_&c3&_). congruence.
Qed.

Lemma svr_take_step_wf (s s' : state) (i1 i2 : Z) (r : bool) :
  svr_wf s ->
  in_range (length (X s)) i1 -> in_range (length (X s)) i2 ->
  _take_step s i1 i2 = Ok (r, s') ->
  svr_wf s' /\ svr_same_data s s'.
Proof.
  intros Hwf Hi1 Hi2 Hstep. unfold _take_step in Hstep.
  destruct (i1 =? i2)%Z eqn:Hne.
  { injection Hstep as <- <-. split; [done | apply svr_same_data_refl]. }
  apply Z.eqb_neq in Hne.
  inv_bind_as Hstep p Hsolve.
  destruct (negb _).
  { injection Hstep as <- <-. split; [done | apply svr_same_data_refl]. }
  exact (svr_commit_wf s s' i1 i2 p r Hwf Hi1 Hi2 Hne Hstep).
Qed.

Lemma svr_wf_ext (s s' : state) :
  svr_wf s ->
  X s' = X s -> alphas_p s' = alphas_p s -> alphas_n s' = alphas_n s ->
  C s' = C s -> svr_same_sets s s' ->
  ((0 < length (X s))%nat -> in_range (length (X s)) (b_up_idx s')) ->
  ((0 < length (X s))%nat -> in_range (length (X s)) (b_low_idx s')) ->
  svr_wf s'.
Proof.
  intros (Hlp & Hln & _ & _ & HI0 & Hsets) HX Hp Hn HC (E0 & E1 & E2 & E3)
    Hup Hlow.
  unfold svr_wf. cbv zeta. rewrite HX, Hp, Hn.
  refine (conj Hlp (conj Hln (conj Hup (conj Hlow (conj _ _))))).
  - intros i. rewrite E0. apply HI0.
  - intros k ap an Hap Han. rewrite Hp in Hap. rewrite Hn in Han.
    specialize (Hsets k ap an Hap Han).
    apply (svr_sets_at_ext s); congruence.
Qed.

Lemma svr_error_of_wf (s s' : state) (i2 : Z) (E : Q) :
  svr_wf s -> in_range (length (X s)) i2 ->
  error_of s i2 = Ok (E, s') ->
  svr_wf s' /\ svr_same_data s s'.
Proof.
  intros Hwf Hi2 He. pose proof Hwf as (_ & _ & Hup & Hlow & _).
  unfold error_of in He.
  destruct (mem i2 (I0 s)).
  { inv_bind He. injection He as <- <-.
    split; [done | apply svr_same_data_refl]. }
  inv_bind He. inv_bind He. inv_bind He. inv_bind He. inv_bind He.
  simpl in He.
  repeat match type of He with
  | (if ?b then _ else _) = _ => destruct b
  end; injection He as <- <-;
    (split; [|unfold svr_same_data; repeat split]);
    apply (svr_wf_ext s); try done; unfold svr_same_sets; repeat split.
Qed.

Lemma svr_check_optimality_index (s : state) (i2 : Z) (ap an E : Q) (i1 : Z) :
  check_optimality s i2 ap an E = Ok (false, i1) ->
  i1 = b_low_idx s \/ i1 = b_up_idx s.
Proof.
  unfold check_optimality, two_sided.
  repeat match goal with
  | |- context [if ?b then _ else _] => destruct b
  end; intros H; inversion H; auto.
Qed.

Lemma svr_examine_wf (s s' : state) (i2 : Z) (r : bool) :
  svr_wf s -> in_range (length (X s)) i2 ->
  _examine_example s i2 = Ok (r, s') ->
  svr_wf s' /\ svr_same_data s s'.
Proof.
  intros Hwf Hi2 Hex. unfold _examine_example in Hex.
  inv_bind_as Hex ap Hap. inv_bind_as Hex an Han.
  inv_bind_as Hex es Herr. destruct es as [E s1].
  destruct (svr_error_of_wf _ _ _ _ Hwf Hi2 Herr) as [Hwf1 Hd1].
  assert (X s1 = X s) as HX by apply Hd1.
  inv_bind_as Hex oi Hopt. destruct oi as [optimal i1].
  destruct optimal; [by injection Hex as <- <-|].
  apply svr_check_optimality_index in Hopt.
  pose proof Hwf1 as (_ & _ & Hup & Hlow & _).
  assert (0 < length (X s1))%nat as Hpos
    by (rewrite HX; unfold in_range in Hi2; lia).
  eapply svr_take_step_wf in Hex as [Hwf' Hd']; [| done | | by rewrite HX].
  - split; [done | by eapply svr_same_data_trans].
  - destruct Hopt as [-> | ->]; auto.
Qed.

Lemma svr_init_wf (X : list (list Q)) (y : list Q) (K : list (list Q))
    (kernel : string) (C epsilon tol : Q) (s0 : state) :
  ~ C == 0 ->
  __init__ X y K kernel C epsilon tol = Ok s0 ->
  svr_wf s0 /\ svr_same_data s0 s0 /\
  SVR.SMORegression.X s0 = X /\ SVR.SMORegression.C s0 = C.
Proof.
  intros HC Hinit. unfold __init__ in Hinit.
  inv_bind_as Hinit y0 Hy0. injection Hinit as <-.
  split; [|split; [apply svr_same_data_refl | done]].
  unfold svr_wf. simpl.
  refine (conj _ (conj _ (conj _ (conj _ (conj _ _))))).
  - apply length_replicate.
  - apply length_replicate.
  - unfold in_range. lia.
  - unfold in_range. lia.
  - intros i. by rewrite mem_empty.
  - intros k ap an Hap Han. simpl in *.
    apply lookup_replicate in Hap as [-> Hk].
    apply lookup_replicate in Han as [-> _].
    unfold svr_sets_at. simpl. rewrite !mem_empty, !mem_list_to_set.
    assert (inside C 0 = false) as ->.
    { unfold inside. cmp; simpl; done || (exfalso; lra). }
    assert (eqb 0 C = false) as -> by (apply eqb_neq; lra).
    assert (eqb 0 0 = true) as -> by (by apply eqb_eq).
    simpl. repeat split.
    apply bool_decide_eq_true. unfold range.
    apply list_elem_of_fmap. exists k. split; [done|].
    apply elem_of_seq. lia.
Qed.

Lemma svr_run_wf (s0 s : state) :
  svr_wf s0 -> svr_run s0 s -> svr_wf s /\ svr_same_data s0 s.
Proof.
  intros Hwf0. induction 1 as [|s s' i2 r _ [IH Hd] Hi Hex
                                |s s' i1 i2 r _ [IH Hd] Hi1 Hi2 Hstep].
  - split; [done | apply svr_same_data_refl].
  - destruct (svr_examine_wf _ _ _ _ IH Hi Hex) as [Hwf' Hd'].
    split; [done | by eapply svr_same_data_trans].
  - destruct (svr_take_step_wf _ _ _ _ _ IH Hi1 Hi2 Hstep) as [Hwf' Hd'].
    split; [done | by eapply svr_same_data_trans].
Qed.

Lemma svr_sweep_all_run (s0 : state) (idxs : list Z)
    (s s' : state) (n n' : nat) :
  svr_wf s0 -> svr_run s0 s ->
  Forall (in_range (length (X s0))) idxs ->
  for_each idxs
    (fun '(n, s) i =>
       do '(r, s) <- _examine_example s i ;
       Ok ((n + Nat.b2n r)%nat, s))
    (n, s) = Ok (n', s') ->
  svr_run s0 s'.
Proof.
  intros Hwf0. revert s n.
  induction idxs as [|i idxs IH]; intros s n Hrun Hidx Hsweep; simpl in Hsweep.
  - by injection Hsweep as <- <-.
  - inv_bind_as Hsweep ns Hbody. inv_bind_as Hbody rs Hex.
    destruct rs as [r s1]. injection Hbody as <-.
    apply Forall_cons in Hidx as [Hi Hidx].
    eapply IH; [|done|exact Hsweep].
    eapply svr_run_examine; [exact Hrun| |exact Hex].
    destruct (svr_run_wf _ _ Hwf0 Hrun) as [_ Hd].
    destruct Hd as (-> & _). done.
Qed.

Lemma svr_sweep_active_run (s0 : state) (idxs : list Z)
    (s s' : state) (n n' : nat) :
  svr_wf s0 -> svr_run s0 s ->
  Forall (in_range (length (X s0))) idxs ->
  sweep_active idxs s n = Ok (n', s') ->
  svr_run s0 s'.
Proof.
  intros Hwf0. revert s n.
  induction idxs as [|i idxs IH]; intros s n Hrun Hidx Hsweep; simpl in Hsweep.
  - by injection Hsweep as <- <-.
  - apply Forall_cons in Hidx as [Hi Hidx].
    inv_bind_as Hsweep free Hfree. destruct free; [|by eapply IH].
    inv_bind_as Hsweep rs Hex. destruct rs as [r s1].
    assert (svr_run s0 s1) as Hrun1.
    { eapply svr_run_examine; [exact Hrun| |exact Hex].
      destruct (svr_run_wf _ _ Hwf0 Hrun) as [_ Hd].
      destruct Hd as (-> & _). done. }
    destruct (ltb _ _); [by injection Hsweep as <- <-|]. by eapply IH.
Qed.

Lemma svr_loop_run (fuel : nat) (s0 : state) (d d' : driver) :
  svr_wf s0 -> svr_run s0 (engine d) -> loop fuel d = Ok d' ->
  svr_run s0 (engine d').
Proof.
  intros Hwf0. revert d.
  induction fuel as [|fuel IH]; intros d Hrun Hloop; simpl in Hloop.
  - destruct (running d); [discriminate|]. by injection Hloop as <-.
  - destruct (running d); [|by injection Hloop as <-].
    inv_bind_as Hloop d1 Hit. eapply IH; [|exact Hloop].
    unfold iteration in Hit.
    inv_bind_as Hit ns Hsweep. destruct ns as [n s1].
    injection Hit as <-. simpl.
    assert (length (X (engine d)) = length (X s0)) as HX.
    { destruct (svr_run_wf _ _ Hwf0 Hrun) as [_ (-> & _)]. done. }
    destruct (examine_all d).
    + eapply svr_sweep_all_run; [done|exact Hrun| |exact Hsweep].
      rewrite HX. apply in_range_range.
    + eapply svr_sweep_active_run; [done|exact Hrun| |exact Hsweep].
      rewrite HX. apply in_range_range.
Qed.

Lemma svr_run_reach (s0 s : state) : svr_run s0 s -> svr_reach s0 s.
Proof.
  induction 1 as [|s s' i2 r _ IH Hi Hex|s s' i1 i2 r _ IH Hi1 Hi2 Hstep].
  - apply svr_reach_init.
  - by eapply svr_reach_examine.
  - by eapply svr_reach_step.
Qed.

(** A pair of multipliers of the box, one of them zero, meets exactly one
    of the four conditions. *)
Lemma svr_one_condition (C ap an : Q) :
  0 < C -> reg_entry C ap an ->
  (Nat.b2n (inside C ap || inside C an) + Nat.b2n (eqb ap 0 && eqb an 0)
   + Nat.b2n (eqb ap 0 && eqb an C) + Nat.b2n (eqb ap C && eqb an 0))%nat
  = 1%nat.
Proof.
  intros HC ([Hp0 HpC] & [Hn0 HnC] & Hz). unfold inside.
  destruct Hz as [Hz | Hz]; cmp; simpl; try reflexivity; exfalso; lra.
Qed.

End RegressionPartitionRun.

Section RegressionPartitionTheorem.
Import SVR.SMORegression.

(** X11: the index sets of the regression engine.  In every engine of a
    run started by [__init__] with [C] not zero, and in the engine [smo]
    returns, each example [k] is in [I0] exactly when
    [0 < alphas_p[k] < C or 0 < alphas_n[k] < C], in [I1] exactly when
    both multipliers are zero, in [I2] exactly when [alphas_p[k] == 0] and
    [alphas_n[k] == C], and in [I3] exactly when [alphas_p[k] == C] and
    [alphas_n[k] == 0]; the two multiplier vectors keep the length of [X],
    and the members of [I0] and the threshold indices are among
    [0 .. n-1].  With [C > 0] the four sets partition the examples: each
    one is in exactly one set. *)
Theorem X11_regression_index_sets :
  forall X y K kernel C epsilon tol s0 s,
    ~ C == 0 ->
    __init__ X y K kernel C epsilon tol = Ok s0 ->
    (svr_run s0 s \/ exists fuel, smo fuel s0 = Ok s) ->
    (svr_sets_ok s /\
     length (alphas_p s) = length X /\
     length (alphas_n s) = length X /\
     (forall i, mem i (I0 s) = true -> in_range (length X) i) /\
     ((0 < length X)%nat ->
      in_range (length X) (b_up_idx s) /\
      in_range (length X) (b_low_idx s))) /\
    (0 < C ->
     forall k : nat, (k < length X)%nat -> svr_count s (Z.of_nat k) = 1%nat).
Proof.
  intros X y K kernel C epsilon tol s0 s HC Hinit Hrun.
  destruct (svr_init_wf _ _ _ _ _ _ _ _ HC Hinit) as (Hwf0 & _ & HX0 & HC0).
  assert (exists s1, svr_run s0 s1 /\
            (alphas_p s = alphas_p s1 /\ alphas_n s = alphas_n s1 /\
             SVR.SMORegression.X s = SVR.SMORegression.X s1 /\
             SVR.SMORegression.C s = SVR.SMORegression.C s1) /\
            svr_same_sets s1 s /\
            b_up_idx s = b_up_idx s1 /\ b_low_idx s = b_low_idx s1)
    as (s1 & Hrun1 & (Ep & En & EX & EC) & Hsets1 & Hbu & Hbl).
  { destruct Hrun as [Hrun | [fuel Hsmo]].
    - exists s. unfold svr_same_sets. by repeat split.
    - unfold smo in Hsmo. inv_bind_as Hsmo d Hloop. injection Hsmo as <-.
      exists (engine d). split.
      + apply (svr_loop_run fuel s0 (start s0) d Hwf0); [|exact Hloop].
        apply svr_run_init.
      + unfold svr_same_sets. by repeat split. }
  destruct (svr_run_wf _ _ Hwf0 Hrun1) as [Hwf1 Hd1].
  assert (svr_wf s) as Hwf.
  { apply (svr_wf_ext s1); try done.
    - pose proof Hwf1 as (_ & _ & Hu & _). by rewrite Hbu.
    - pose proof Hwf1 as (_ & _ & _ & Hl & _). by rewrite Hbl. }
  assert (SVR.SMORegression.X s = X) as HXs.
  { destruct Hd1 as (HX1 & _). congruence. }
  pose proof Hwf as (Hlp & Hln & Hup & Hlow & HI0 & Hsets).
  rewrite HXs in Hlp, Hln, Hup, Hlow, HI0.
  split; [by auto 10|].
  intros HCpos k Hk.
  assert (reg_inv s1) as (_ & Hent).
  { eapply svr_reach_inv; [|by apply svr_run_reach].
    eapply svr_init_inv; [|exact Hinit]. lra. }
  assert (SVR.SMORegression.C s = C) as HCs.
  { destruct Hd1 as (_&_&_&_&c1&_). congruence. }
  assert (SVR.SMORegression.C s1 = C) as HC1 by congruence.
  rewrite <- Ep, <- En, HC1 in Hent.
  destruct (lookup_lt_is_Some_2 (alphas_p s) k) as [ap Hap]; [lia|].
  destruct (lookup_lt_is_Some_2 (alphas_n s) k) as [an Han]; [lia|].
  specialize (Hsets k ap an Hap Han) as (M0 & M1 & M2 & M3).
  unfold svr_count. rewrite M0, M1, M2, M3, HCs.
  apply svr_one_condition; [done|].
  eapply Forall2_lookup_lr; [exact Hent | exact Hap | exact Han].
Qed.

End RegressionPartitionTheorem.

Section RegressionPartitionWitness.
Import SVR.SMORegression.

(** The trained regression sample: both examples are free, and each is in
    one set. *)
Lemma X11_regression_index_sets_witness :
  exists s,
    Samples.svr_trained = Ok s /\
    svr_sets_ok s /\
    mem 0 (I0 s) = true /\ mem 1 (I0 s) = true /\
    svr_count s 0 = 1%nat /\ svr_count s 1 = 1%nat.
Proof.
  eexists. split; [vm_compute; reflexivity|].
  match goal with
  | |- svr_sets_ok ?s /\ _ => set (s1 := s)
  end.
  assert (exists s0, Samples.svr_init = Ok s0 /\ smo 10 s0 = Ok s1)
    as (s0 & Hinit & Hsmo).
  { eexists. split; [vm_compute; reflexivity|]. vm_compute; reflexivity. }
  destruct (X11_regression_index_sets
              Samples.svr_X Samples.svr_y Samples.svr_K "linear"%string
              1 (1 # 10) (1 # 1000) s0 s1) as [(Hsets & _) Hone].
  - discriminate.
  - exact Hinit.
  - right. by exists 10%nat.
  - split; [exact Hsets|].
    split; [vm_compute; reflexivity|]. split; [vm_compute; reflexivity|].
    split.
    + apply (Hone ltac:(reflexivity) 0%nat). simpl. lia.
    + apply (Hone ltac:(reflexivity) 1%nat). simpl. lia.
Defined.

End RegressionPartitionWitness.

Section CacheLemmas.












End CacheLemmas.

Section ClassificationCache.
Import SVC.SMOClassifier.






End ClassificationCache.

Section RegressionCache.
Import SVR.SMORegression.



Lemma svr_update_thresholds_errors (s s' : state) (i1 i2 : Z) :
  update_thresholds s i1 i2 = Ok s' ->
  errors s' = errors s /\ K s' = K s /\ y s' = y s.
Proof.
  unfold update_thresholds. intros Hu. inv_bind Hu. inv_bind Hu. inv_bind Hu.
  by injection Hu as <-.
Qed.




End RegressionCache.

Section CacheTheorem.




End CacheTheorem.

Section NotFound.

Lemma bind_nif {A B : Type} (m : res A) (k : A -> res B) :
  m <> Raise IndexNotFound ->
  (forall a, m = Ok a -> k a <> Raise IndexNotFound) ->
  bind m k <> Raise IndexNotFound.
Proof.
  destruct m; simpl; intros H1 H2;
    [by apply H2 | intros [= ->]; by apply H1 | discriminate].
Qed.

Lemma getitem_nif {A : Type} (l : list A) (i : Z) :
  getitem l i <> Raise IndexNotFound.
Proof.
  unfold getitem. destruct (norm_index _ _); [|discriminate].
  destruct (_ !! _); discriminate.
Qed.

Lemma setitem_nif {A : Type} (l : list A) (i : Z) (v : A) :
  setitem l i v <> Raise IndexNotFound.
Proof. unfold setitem. destruct (norm_index _ _); discriminate. Qed.

Lemma getitem2_nif (K : list (list Q)) (i j : Z) :
  getitem2 K i j <> Raise IndexNotFound.
Proof.
  unfold getitem2. apply bind_nif; [apply getitem_nif|].
  intros row _. apply getitem_nif.
Qed.

Lemma vadd_nif (u v : list Q) : vadd u v <> Raise IndexNotFound.
Proof.
  revert v. induction u as [|a u IH]; intros [|b v]; simpl; try discriminate.
  apply bind_nif; [apply IH | discriminate].
Qed.

Lemma vsub_nif (u v : list Q) : vsub u v <> Raise IndexNotFound.
Proof.
  revert v. induction u as [|a u IH]; intros [|b v]; simpl; try discriminate.
  apply bind_nif; [apply IH | discriminate].
Qed.

Lemma vmul_nif (u v : list Q) : vmul u v <> Raise IndexNotFound.
Proof.
  revert v. induction u as [|a u IH]; intros [|b v]; simpl; try discriminate.
  apply bind_nif; [apply IH | discriminate].
Qed.

Lemma dot_nif (u v : list Q) : dot u v <> Raise IndexNotFound.
Proof.
  revert v. induction u as [|a u IH]; intros [|b v]; simpl; try discriminate.
  apply bind_nif; [apply IH | discriminate].
Qed.

Lemma for_each_nif {A S : Type} (l : list A) (body : S -> A -> res S) (s : S) :
  (forall s x, body s x <> Raise IndexNotFound) ->
  for_each l body s <> Raise IndexNotFound.
Proof.
  intros Hbody. revert s. induction l as [|x l IH]; intros s; simpl.
  - discriminate.
  - apply bind_nif; [apply Hbody | intros s' _; apply IH].
Qed.

Lemma weight_add_nif (w : weight) (d : list Q) :
  weight_add w d <> Raise IndexNotFound.
Proof.
  destruct w; simpl; [discriminate|].
  apply bind_nif; [apply vadd_nif | discriminate].
Qed.

Lemma weight_sub_nif (w : weight) (d : list Q) :
  weight_sub w d <> Raise IndexNotFound.
Proof.
  destruct w; simpl; [discriminate|].
  apply bind_nif; [apply vsub_nif | discriminate].
Qed.

Lemma cache_body_nif (K : list (list Q)) (i1 i2 : Z) (d1 d2 : Q)
    (errs : list Q) (i : Z) :
  cache_body K i1 i2 d1 d2 errs i <> Raise IndexNotFound.
Proof.
  unfold cache_body. destruct (_ && _); [|discriminate].
  apply bind_nif; [apply getitem_nif | intros e _].
  apply bind_nif; [apply getitem2_nif | intros k1 _].
  apply bind_nif; [apply getitem2_nif | intros k2 _].
  apply setitem_nif.
Qed.

End NotFound.

(** One step of the proof that a computation does not raise
    [IndexNotFound]. *)
Ltac nif_step :=
  first
    [ discriminate
    | apply getitem_nif | apply setitem_nif | apply getitem2_nif
    | apply vadd_nif | apply vsub_nif | apply vmul_nif | apply dot_nif
    | apply weight_add_nif | apply weight_sub_nif
    | apply bind_nif; [|intros ? _]
    | match goal with
      | |- (if ?b then _ else _) <> _ => destruct b
      | |- (let '(_, _) := ?x in _) <> _ => destruct x
      | |- match ?x with _ => _ end <> _ => destruct x
      end ].

Section NotFoundClassification.
Import SVC.SMOClassifier.

Lemma svc_solve_nif (s : state) (i1 i2 : Z) :
  solve s i1 i2 <> Raise IndexNotFound.
Proof. unfold solve. repeat nif_step. Qed.

Lemma svc_update_weight_nif (s : state) (i1 i2 : Z) (d1 d2 : Q) :
  update_weight s i1 i2 d1 d2 <> Raise IndexNotFound.
Proof. unfold update_weight. repeat nif_step. Qed.

Lemma svc_update_errors_nif (s : state) (i1 i2 : Z) (p : plan) (d1 d2 : Q) :
  update_errors s i1 i2 p d1 d2 <> Raise IndexNotFound.
Proof.
  unfold update_errors.
  apply bind_nif; [|intros ? _; repeat nif_step].
  apply for_each_nif. intros errs i. apply (cache_body_nif (K s)).
Qed.

Lemma svc_update_alphas_nif (s : state) (i1 i2 : Z) (a1 a2 : Q) :
  update_alphas s i1 i2 a1 a2 <> Raise IndexNotFound.
Proof. unfold update_alphas. repeat nif_step. Qed.

Lemma svc_update_sets_nif (s : state) (i : Z) :
  update_sets s i <> Raise IndexNotFound.
Proof. unfold update_sets. repeat nif_step. Qed.

Lemma svc_rescan_bound_nif (s : state) (i : Z) (t : thresholds) :
  rescan_bound s i t <> Raise IndexNotFound.
Proof. unfold rescan_bound. repeat nif_step. Qed.

Lemma svc_update_thresholds_nif (s : state) (i1 i2 : Z) :
  update_thresholds s i1 i2 <> Raise IndexNotFound.
Proof.
  unfold update_thresholds.
  apply bind_nif.
  { apply for_each_nif. intros t i. repeat nif_step. }
  intros t _. apply bind_nif; [apply svc_rescan_bound_nif | intros t1 _].
  apply bind_nif; [apply svc_rescan_bound_nif | intros t2 _]. discriminate.
Qed.

Lemma svc_commit_nif (s : state) (i1 i2 : Z) (p : plan) :
  commit s i1 i2 p <> Raise IndexNotFound.
Proof.
  unfold commit. cbv zeta.
  apply bind_nif; [apply svc_update_weight_nif | intros s1 _].
  apply bind_nif; [apply svc_update_errors_nif | intros s2 _].
  apply bind_nif; [apply svc_update_alphas_nif | intros s3 _].
  apply bind_nif; [apply svc_update_sets_nif | intros s4 _].
  apply bind_nif; [apply svc_update_sets_nif | intros s5 _].
  apply bind_nif; [apply svc_update_thresholds_nif | intros s6 _].
  destruct (_ || _); discriminate.
Qed.

Lemma svc_take_step_nif (s : state) (i1 i2 : Z) :
  _take_step s i1 i2 <> Raise IndexNotFound.
Proof.
  unfold _take_step. destruct (_ =? _)%Z; [discriminate|].
  apply bind_nif; [apply svc_solve_nif | intros [p|] _]; [|discriminate].
  destruct (negligible _ _); [discriminate | apply svc_commit_nif].
Qed.

Lemma svc_error_of_nif (s : state) (i2 : Z) :
  error_of s i2 <> Raise IndexNotFound.
Proof. unfold error_of. repeat nif_step. Qed.

(** With threshold indices among the examples, [_examine_example] has an
    index to pair [i2] with. *)
Lemma svc_examine_nif (s : state) (i2 : Z) :
  svc_wf s -> in_range (length (X s)) i2 ->
  _examine_example s i2 <> Raise IndexNotFound.
Proof.
  intros Hwf Hi2. unfold _examine_example.
  apply bind_nif; [apply svc_error_of_nif | intros [E s1] Herr].
  destruct (svc_error_of_wf _ _ _ _ Hwf Hi2 Herr) as [Hwf1 Hd1].
  destruct (check_optimality s1 i2 E) as [optimal i1] eqn:Hopt.
  destruct optimal; [discriminate|].
  apply check_optimality_index in Hopt.
  pose proof Hwf1 as (_ & Hup & Hlow & _).
  match goal with
  | |- (if (?i =? -1)%Z then _ else _) <> _ =>
      assert (in_range (length (X s1)) i) as Hin
  end.
  { destruct (mem i2 (I0 s1)); [destruct (ltb _ _); done|].
    destruct Hopt as [-> | ->]; done. }
  match goal with
  | |- (if (?i =? -1)%Z then _ else _) <> _ =>
      destruct (Z.eqb_spec i (-1))
  end.
  - unfold in_range in Hin. lia.
  - apply svc_take_step_nif.
Qed.

Lemma svc_sweep_all_nif (s0 : state) (idxs : list Z) (s : state) (n : nat) :
  svc_wf s0 -> svc_run s0 s ->
  Forall (in_range (length (X s0))) idxs ->
  for_each idxs
    (fun '(n, s) i =>
       do '(r, s) <- _examine_example s i ;
       Ok ((n + Nat.b2n r)%nat, s))
    (n, s) <> Raise IndexNotFound.
Proof.
  intros Hwf0. revert s n.
  induction idxs as [|i idxs IH]; intros s n Hrun Hidx; simpl; [discriminate|].
  apply Forall_cons in Hidx as [Hi Hidx].
  destruct (svc_run_wf _ _ Hwf0 Hrun) as [Hwf Hd].
  assert (in_range (length (X s)) i) as Hi'.
  { destruct Hd as (-> & _). done. }
  apply bind_nif.
  - apply bind_nif; [by apply svc_examine_nif | intros [r s1] _; discriminate].
  - intros [n1 s1] Hbody. inv_bind_as Hbody rs Hex. destruct rs as [r s2].
    injection Hbody as <- <-. apply IH; [|done].
    by eapply svc_run_examine.
Qed.

Lemma svc_sweep_active_nif (s0 : state) (idxs : list Z) (s : state) (n : nat) :
  svc_wf s0 -> svc_run s0 s ->
  Forall (in_range (length (X s0))) idxs ->
  sweep_active idxs s n <> Raise IndexNotFound.
Proof.
  intros Hwf0. revert s n.
  induction idxs as [|i idxs IH]; intros s n Hrun Hidx; simpl; [discriminate|].
  apply Forall_cons in Hidx as [Hi Hidx].
  destruct (svc_run_wf _ _ Hwf0 Hrun) as [Hwf Hd].
  assert (in_range (length (X s)) i) as Hi'.
  { destruct Hd as (-> & _). done. }
  apply bind_nif; [apply getitem_nif | intros a _].
  destruct (inside _ _); [|by apply IH].
  apply bind_nif; [by apply svc_examine_nif | intros [r s1] Hex].
  destruct (ltb _ _); [discriminate|]. apply IH; [|done].
  by eapply svc_run_examine.
Qed.

Lemma svc_iteration_run (s0 : state) (d d' : driver) :
  svc_wf s0 -> svc_run s0 (engine d) -> iteration d = Ok d' ->
  svc_run s0 (engine d').
Proof.
  intros Hwf0 Hrun Hit. unfold iteration in Hit.
  inv_bind_as Hit ns Hsweep. destruct ns as [n s1].
  injection Hit as <-. simpl.
  assert (length (X (engine d)) = length (X s0)) as HX.
  { destruct (svc_run_wf _ _ Hwf0 Hrun) as [_ (-> & _)]. done. }
  destruct (examine_all d).
  - eapply svc_sweep_all_run; [done|exact Hrun| |exact Hsweep].
    rewrite HX. apply in_range_range.
  - eapply svc_sweep_active_run; [done|exact Hrun| |exact Hsweep].
    rewrite HX. apply in_range_range.
Qed.

Lemma svc_loop_nif (fuel : nat) (s0 : state) (d : driver) :
  svc_wf s0 -> svc_run s0 (engine d) ->
  loop fuel d <> Raise IndexNotFound.
Proof.
  intros Hwf0. revert d.
  induction fuel as [|fuel IH]; intros d Hrun; simpl.
  - destruct (running d); discriminate.
  - destruct (running d); [|discriminate].
    assert (length (X (engine d)) = length (X s0)) as HX.
    { destruct (svc_run_wf _ _ Hwf0 Hrun) as [_ (-> & _)]. done. }
    apply bind_nif.
    + unfold iteration. apply bind_nif; [|intros [n s1] _; discriminate].
      destruct (examine_all d).
      * apply (svc_sweep_all_nif s0); [done | done |].
        rewrite HX. apply in_range_range.
      * apply (svc_sweep_active_nif s0); [done | done |].
        rewrite HX. apply in_range_range.
    + intros d1 Hit. apply IH. by eapply svc_iteration_run.
Qed.

End NotFoundClassification.

Section NotFoundRegression.
Import SVR.SMORegression.

Lemma case_loop_nif (fuel : nat) (f : frame) (c : cases) :
  case_loop fuel f c <> Raise IndexNotFound.
Proof.
  revert c. induction fuel as [|fuel IH]; intros c; simpl;
    destruct (finished c); try discriminate. apply IH.
Qed.

Lemma svr_solve_nif (s : state) (i1 i2 : Z) :
  solve s i1 i2 <> Raise IndexNotFound.
Proof.
  unfold solve.
  do 9 (apply bind_nif;
        [first [apply getitem_nif | apply getitem2_nif] | intros ? _]).
  apply bind_nif; [apply case_loop_nif | discriminate].
Qed.

Lemma svr_update_weight_nif (s : state) (i1 i2 : Z) (d1 d2 : Q) :
  update_weight s i1 i2 d1 d2 <> Raise IndexNotFound.
Proof. unfold update_weight. repeat nif_step. Qed.

Lemma svr_update_errors_nif (s : state) (i1 i2 : Z) (p : plan) (d1 d2 : Q) :
  update_errors s i1 i2 p d1 d2 <> Raise IndexNotFound.
Proof.
  unfold update_errors.
  apply bind_nif; [|intros ? _; repeat nif_step].
  apply for_each_nif. intros errs i. apply (cache_body_nif (K s)).
Qed.

Lemma svr_update_alphas_nif (s : state) (i1 i2 : Z) (a b c d : Q) :
  update_alphas s i1 i2 a b c d <> Raise IndexNotFound.
Proof. unfold update_alphas. repeat nif_step. Qed.

Lemma svr_update_sets_nif (s : state) (i : Z) :
  update_sets s i <> Raise IndexNotFound.
Proof. unfold update_sets, is_free, is_at. repeat nif_step. Qed.

Lemma svr_scan_low_nif (s : state) (i : Z) (t : thresholds) :
  scan_low s i t <> Raise IndexNotFound.
Proof. unfold scan_low. repeat nif_step. Qed.

Lemma svr_scan_up_nif (s : state) (i : Z) (t : thresholds) :
  scan_up s i t <> Raise IndexNotFound.
Proof. unfold scan_up. repeat nif_step. Qed.

Lemma svr_rescan_bound_nif (s : state) (i : Z) (t : thresholds) :
  rescan_bound s i t <> Raise IndexNotFound.
Proof. unfold rescan_bound. repeat nif_step. Qed.

Lemma svr_update_thresholds_nif (s : state) (i1 i2 : Z) :
  update_thresholds s i1 i2 <> Raise IndexNotFound.
Proof.
  unfold update_thresholds.
  apply bind_nif.
  { apply for_each_nif. intros t i.
    apply bind_nif; [apply svr_scan_low_nif | intros t1 _].
    apply svr_scan_up_nif. }
  intros t _. apply bind_nif; [apply svr_rescan_bound_nif | intros t1 _].
  apply bind_nif; [apply svr_rescan_bound_nif | intros t2 _]. discriminate.
Qed.

Lemma svr_commit_nif (s : state) (i1 i2 : Z) (p : plan) :
  commit s i1 i2 p <> Raise IndexNotFound.
Proof.
  unfold commit. cbv zeta.
  apply bind_nif; [apply svr_update_weight_nif | intros s1 _].
  apply bind_nif; [apply svr_update_errors_nif | intros s2 _].
  apply bind_nif; [apply svr_update_alphas_nif | intros s3 _].
  apply bind_nif; [apply svr_update_sets_nif | intros s4 _].
  apply bind_nif; [apply svr_update_sets_nif | intros s5 _].
  apply bind_nif; [apply svr_update_thresholds_nif | intros s6 _].
  destruct (_ || _); discriminate.
Qed.

Lemma svr_take_step_nif (s : state) (i1 i2 : Z) :
  _take_step s i1 i2 <> Raise IndexNotFound.
Proof.
  unfold _take_step. destruct (_ =? _)%Z; [discriminate|].
  apply bind_nif; [apply svr_solve_nif | intros p _].
  destruct (negb _); [discriminate | apply svr_commit_nif].
Qed.

Lemma svr_error_of_nif (s : state) (i2 : Z) :
  error_of s i2 <> Raise IndexNotFound.
Proof. unfold error_of. repeat nif_step. Qed.

(** An example of a partitioned engine is in one of the four sets. *)
Lemma svr_in_some_set (s : state) (i : Z) :
  svr_wf s -> reg_inv s -> 0 < C s -> in_range (length (X s)) i ->
  mem i (I0 s) = false -> mem i (I1 s) = false -> mem i (I2 s) = false ->
  mem i (I3 s) = true.
Proof.
  intros (Hlp & Hln & _ & _ & _ & Hsets) (_ & Hent) HC Hi M0 M1 M2.
  destruct (in_range_norm _ _ Hi) as [_ Zi].
  destruct (lookup_lt_is_Some_2 (alphas_p s) (Z.to_nat i)) as [ap Hap];
    [unfold in_range in Hi; lia|].
  destruct (lookup_lt_is_Some_2 (alphas_n s) (Z.to_nat i)) as [an Han];
    [unfold in_range in Hi; lia|].
  specialize (Hsets _ ap an Hap Han). rewrite <- Zi in Hsets.
  destruct Hsets as (S0 & S1 & S2 & S3).
  pose proof (svr_one_condition (C s) ap an HC
                (Forall2_lookup_lr _ _ _ _ _ _ Hent Hap Han)) as Hone.
  rewrite <- S0, <- S1, <- S2, <- S3, M0, M1, M2 in Hone.
  destruct (mem i (I3 s)); [done | discriminate].
Qed.

Lemma svr_examine_nif (s : state) (i2 : Z) :
  svr_wf s -> reg_inv s -> 0 < C s -> in_range (length (X s)) i2 ->
  _examine_example s i2 <> Raise IndexNotFound.
Proof.
  intros Hwf Hinv HC Hi2. unfold _examine_example.
  apply bind_nif; [apply getitem_nif | intros ap _].
  apply bind_nif; [apply getitem_nif | intros an _].
  apply bind_nif; [apply svr_error_of_nif | intros [E s1] Herr].
  destruct (svr_error_of_wf _ _ _ _ Hwf Hi2 Herr) as [Hwf1 Hd1].
  apply error_of_frame in Herr as (HC1 & Hp1 & Hn1).
  assert (reg_inv s1) as Hinv1.
  { unfold reg_inv. by rewrite HC1, Hp1, Hn1. }
  assert (X s1 = X s) as HX by apply Hd1.
  apply bind_nif.
  - unfold check_optimality.
    destruct (mem i2 (I0 s1)) eqn:M0; [repeat nif_step|].
    destruct (mem i2 (I1 s1)) eqn:M1; [discriminate|].
    destruct (mem i2 (I2 s1)) eqn:M2; [repeat nif_step|].
    rewrite (svr_in_some_set s1 i2); try done; [repeat nif_step | |].
    + by rewrite HC1.
    + by rewrite HX.
  - intros [optimal i1] _. destruct optimal; [discriminate|].
    apply svr_take_step_nif.
Qed.

Lemma svr_run_inv (s0 s : state) :
  svr_wf s0 -> reg_inv s0 -> svr_run s0 s ->
  svr_wf s /\ reg_inv s /\ svr_same_data s0 s.
Proof.
  intros Hwf0 Hinv0 Hrun.
  destruct (svr_run_wf _ _ Hwf0 Hrun) as [Hwf Hd].
  split; [done|]. split; [|done].
  eapply svr_reach_inv; [exact Hinv0 | by apply svr_run_reach].
Qed.

Lemma svr_sweep_all_nif (s0 : state) (idxs : list Z) (s : state) (n : nat) :
  svr_wf s0 -> reg_inv s0 -> 0 < C s0 -> svr_run s0 s ->
  Forall (in_range (length (X s0))) idxs ->
  for_each idxs
    (fun '(n, s) i =>
       do '(r, s) <- _examine_example s i ;
       Ok ((n + Nat.b2n r)%nat, s))
    (n, s) <> Raise IndexNotFound.
Proof.
  intros Hwf0 Hinv0 HC0. revert s n.
  induction idxs as [|i idxs IH]; intros s n Hrun Hidx; simpl; [discriminate|].
  apply Forall_cons in Hidx as [Hi Hidx].
  destruct (svr_run_inv _ _ Hwf0 Hinv0 Hrun) as (Hwf & Hinv & Hd).
  assert (in_range (length (X s)) i /\ 0 < C s) as [Hi' HC].
  { destruct Hd as (-> & _ & _ & _ & -> & _). done. }
  apply bind_nif.
  - apply bind_nif; [by apply svr_examine_nif | intros [r s1] _; discriminate].
  - intros [n1 s1] Hbody. inv_bind_as Hbody rs Hex. destruct rs as [r s2].
    injection Hbody as <- <-. apply IH; [|done].
    by eapply svr_run_examine.
Qed.

Lemma svr_sweep_active_nif (s0 : state) (idxs : list Z) (s : state) (n : nat) :
  svr_wf s0 -> reg_inv s0 -> 0 < C s0 -> svr_run s0 s ->
  Forall (in_range (length (X s0))) idxs ->
  sweep_active idxs s n <> Raise IndexNotFound.
Proof.
  intros Hwf0 Hinv0 HC0. revert s n.
  induction idxs as [|i idxs IH]; intros s n Hrun Hidx; simpl; [discriminate|].
  apply Forall_cons in Hidx as [Hi Hidx].
  destruct (svr_run_inv _ _ Hwf0 Hinv0 Hrun) as (Hwf & Hinv & Hd).
  assert (in_range (length (X s)) i /\ 0 < C s) as [Hi' HC].
  { destruct Hd as (-> & _ & _ & _ & -> & _). done. }
  apply bind_nif; [unfold is_free; repeat nif_step | intros free _].
  destruct free; [|by apply IH].
  apply bind_nif; [by apply svr_examine_nif | intros [r s1] Hex].
  destruct (ltb _ _); [discriminate|]. apply IH; [|done].
  by eapply svr_run_examine.
Qed.

Lemma svr_iteration_run (s0 : state) (d d' : driver) :
  svr_wf s0 -> svr_run s0 (engine d) -> iteration d = Ok d' ->
  svr_run s0 (engine d').
Proof.
  intros Hwf0 Hrun Hit. unfold iteration in Hit.
  inv_bind_as Hit ns Hsweep. destruct ns as [n s1].
  injection Hit as <-. simpl.
  assert (length (X (engine d)) = length (X s0)) as HX.
  { destruct (svr_run_wf _ _ Hwf0 Hrun) as [_ (-> & _)]. done. }
  destruct (examine_all d).
  - eapply svr_sweep_all_run; [done|exact Hrun| |exact Hsweep].
    rewrite HX. apply in_range_range.
  - eapply svr_sweep_active_run; [done|exact Hrun| |exact Hsweep].
    rewrite HX. apply in_range_range.
Qed.

Lemma svr_loop_nif (fuel : nat) (s0 : state) (d : driver) :
  svr_wf s0 -> reg_inv s0 -> 0 < C s0 -> svr_run s0 (engine d) ->
  loop fuel d <> Raise IndexNotFound.
Proof.
  intros Hwf0 Hinv0 HC0. revert d.
  induction fuel as [|fuel IH]; intros d Hrun; simpl.
  - destruct (running d); discriminate.
  - destruct (running d); [|discriminate].
    assert (length (X (engine d)) = length (X s0)) as HX.
    { destruct (svr_run_wf _ _ Hwf0 Hrun) as [_ (-> & _)]. done. }
    apply bind_nif.
    + unfold iteration. apply bind_nif; [|intros [n s1] _; discriminate].
      destruct (examine_all d).
      * apply (svr_sweep_all_nif s0); [done | done | done | done |].
        rewrite HX. apply in_range_range.
      * apply (svr_sweep_active_nif s0); [done | done | done | done |].
        rewrite HX. apply in_range_range.
    + intros d1 Hit. apply IH. by eapply svr_iteration_run.
Qed.

End NotFoundRegression.

Section NotFoundTheorem.

(** X13: the exception 'the index could not be found'.  In a run started
    by [__init__] (classification with [C] not zero, regression with
    [C > 0]), no call of [_examine_example] on an index among
    [0 .. n-1] raises it, and [smo] never does, however long it runs: the
    threshold index paired with the example is always set, and every
    example is in one of the index sets. *)
Theorem X13_index_always_found :
  (forall X y K kernel C tol s0,
     ~ C == 0 ->
     SVC.SMOClassifier.__init__ X y K kernel C tol = Ok s0 ->
     (forall s i2,
        svc_run s0 s -> in_range (length X) i2 ->
        SVC.SMOClassifier._examine_example s i2 <> Raise IndexNotFound) /\
     (forall fuel, SVC.SMOClassifier.smo fuel s0 <> Raise IndexNotFound)) /\
  (forall X y K kernel C epsilon tol s0,
     0 < C ->
     SVR.SMORegression.__init__ X y K kernel C epsilon tol = Ok s0 ->
     (forall s i2,
        svr_run s0 s -> in_range (length X) i2 ->
        SVR.SMORegression._examine_example s i2 <> Raise IndexNotFound) /\
     (forall fuel, SVR.SMORegression.smo fuel s0 <> Raise IndexNotFound)).
Proof.
  split.
  - intros X y K kernel C tol s0 HC Hinit.
    destruct (svc_init_wf _ _ _ _ _ _ _ HC Hinit) as [Hwf0 HX0].
    split.
    + intros s i2 Hrun Hi2.
      destruct (svc_run_wf _ _ Hwf0 Hrun) as [Hwf Hd].
      apply svc_examine_nif; [done|].
      destruct Hd as (-> & _). by rewrite HX0.
    + intros fuel. unfold SVC.SMOClassifier.smo.
      apply bind_nif; [|discriminate].
      apply (svc_loop_nif fuel s0); [done | apply svc_run_init].
  - intros X y K kernel C epsilon tol s0 HC Hinit.
    assert (~ C == 0) as HC' by lra.
    destruct (svr_init_wf _ _ _ _ _ _ _ _ HC' Hinit) as (Hwf0 & _ & HX0 & HC0).
    assert (reg_inv s0) as Hinv0.
    { eapply svr_init_inv; [|exact Hinit]. lra. }
    split.
    + intros s i2 Hrun Hi2.
      destruct (svr_run_inv _ _ Hwf0 Hinv0 Hrun) as (Hwf & Hinv & Hd).
      destruct Hd as (HXs & _ & _ & _ & HCs & _).
      apply svr_examine_nif; [done | done | |].
      * by rewrite HCs, HC0.
      * by rewrite HXs, HX0.
    + intros fuel. unfold SVR.SMORegression.smo.
      apply bind_nif; [|discriminate].
      apply (svr_loop_nif fuel s0);
        [done | done | by rewrite HC0 | apply svr_run_init].
Qed.

(** The two samples: no length of run makes [smo] raise it. *)
Lemma X13_index_always_found_witness :
  (exists s0,
     Samples.svc_init = Ok s0 /\
     forall fuel, SVC.SMOClassifier.smo fuel s0 <> Raise IndexNotFound) /\
  (exists s0,
     Samples.svr_init = Ok s0 /\
     forall fuel, SVR.SMORegression.smo fuel s0 <> Raise IndexNotFound).
Proof.
  split.
  - eexists. split; [vm_compute; reflexivity|].
    match goal with
    | |- forall fuel, SVC.SMOClassifier.smo fuel ?s <> _ => set (s0 := s)
    end.
    apply (proj1 X13_index_always_found
             Samples.svc_X Samples.svc_y Samples.svc_K "linear"%string
             1 (1 # 1000) s0).
    + discriminate.
    + vm_compute; reflexivity.
  - eexists. split; [vm_compute; reflexivity|].
    match goal with
    | |- forall fuel, SVR.SMORegression.smo fuel ?s <> _ => set (s0 := s)
    end.
    apply (proj2 X13_index_always_found
             Samples.svr_X Samples.svr_y Samples.svr_K "linear"%string
             1 (1 # 10) (1 # 1000) s0).
    + reflexivity.
    + vm_compute; reflexivity.
Defined.

End NotFoundTheorem.

Section WeightLemmas.











End WeightLemmas.

Section WeightInit.






End WeightInit.

Section ClassificationWeight.
Import SVC.SMOClassifier.




End ClassificationWeight.

Section RegressionWeight.
Import SVR.SMORegression.




End RegressionWeight.

Section WeightTheorem.



End WeightTheorem.

Section PrimalDual.







End PrimalDual.

Section RegressionThresholds.
Import SVR.SMORegression.

Lemma svr_raised_refl (eps : Q) (errs : list Q) (i : Z) (t : thresholds) :
  svr_raised eps errs i t t.
Proof. unfold svr_raised. repeat split; try lra. by left. Qed.

Lemma svr_lowered_refl (eps : Q) (errs : list Q) (i : Z) (t : thresholds) :
  svr_lowered eps errs i t t.
Proof. unfold svr_lowered. repeat split; try lra. by left. Qed.

Lemma svr_raised_raise_low (eps : Q) (errs : list Q) (i : Z) (t : thresholds)
    (e v : Q) :
  getitem errs i = Ok e -> v = e - eps \/ v = e + eps ->
  svr_raised eps errs i t (raise_low v i t) /\ v <= t_low (raise_low v i t).
Proof.
  intros He Hv.
  pose proof (raise_low_spec v i t) as (R1 & R2 & R3 & R4 & R5).
  cbv zeta in *. unfold svr_raised. split; [|done].
  split; [done|]. split; [done|]. split; [done|].
  destruct R5 as [R5 | [R5 R6]]; [by left | right].
  split; [|done]. exists e. split; [done|]. rewrite R5. done.
Qed.

Lemma svr_lowered_lower_up (eps : Q) (errs : list Q) (i : Z) (t : thresholds)
    (e v : Q) :
  getitem errs i = Ok e -> v = e - eps \/ v = e + eps ->
  svr_lowered eps errs i t (lower_up v i t) /\ t_up (lower_up v i t) <= v.
Proof.
  intros He Hv.
  pose proof (lower_up_spec v i t) as (L1 & L2 & L3 & L4 & L5).
  cbv zeta in *. unfold svr_lowered. split; [|done].
  split; [done|]. split; [done|]. split; [done|].
  destruct L5 as [L5 | [L5 L6]]; [by left | right].
  split; [|done]. exists e. split; [done|]. rewrite L5. done.
Qed.

Lemma scan_low_spec (s : state) (i : Z) (t t' : thresholds) :
  scan_low s i t = Ok t' ->
  svr_raised (epsilon s) (errors s) i t t' /\
  forall ap an e,
    getitem (alphas_p s) i = Ok ap -> getitem (alphas_n s) i = Ok an ->
    getitem (errors s) i = Ok e ->
    (inside (C s) ap = true -> e - epsilon s <= t_low t') /\
    (inside (C s) ap = false -> inside (C s) an = true ->
     e + epsilon s <= t_low t').
Proof.
  unfold scan_low. intros Hs. inv_bind_as Hs ap Hap.
  destruct (inside (C s) ap) eqn:Ip.
  - inv_bind_as Hs e He.
    destruct (ltb (t_low t) (e - epsilon s)) eqn:Hlt.
    + injection Hs as <-.
      destruct (svr_raised_raise_low (epsilon s) _ i t e (e - epsilon s) He)
        as [Hr Hle]; [by left|].
      split; [done|]. intros ap' an' e' Hap' Han' He'.
      assert (ap' = ap) as -> by congruence.
      assert (e' = e) as -> by congruence.
      split; [done|]. intros Hf. congruence.
    + apply ltb_ge in Hlt. inv_bind_as Hs an Han.
      destruct (inside (C s) an) eqn:In.
      * inv_bind_as Hs e2 He2. injection Hs as <-.
        assert (e2 = e) as -> by congruence.
        destruct (svr_raised_raise_low (epsilon s) _ i t e (e + epsilon s) He)
          as [Hr Hle]; [by right|].
        split; [done|]. intros ap' an' e' Hap' Han' He'.
        assert (ap' = ap) as -> by congruence.
        assert (e' = e) as -> by congruence.
        split; [|intros Hf; congruence].
        intros _. destruct Hr as (_ & _ & Hm & _). lra.
      * injection Hs as <-. split; [apply svr_raised_refl|].
        intros ap' an' e' Hap' Han' He'.
        assert (ap' = ap) as -> by congruence.
        assert (e' = e) as -> by congruence.
        split; [done | intros Hf; congruence].
  - inv_bind_as Hs an Han.
    destruct (inside (C s) an) eqn:In.
    + inv_bind_as Hs e He. injection Hs as <-.
      destruct (svr_raised_raise_low (epsilon s) _ i t e (e + epsilon s) He)
        as [Hr Hle]; [by right|].
      split; [done|]. intros ap' an' e' Hap' Han' He'.
      assert (ap' = ap) as -> by congruence.
      assert (e' = e) as -> by congruence.
      split; [intros Hf; congruence | done].
    + injection Hs as <-. split; [apply svr_raised_refl|].
      intros ap' an' e' Hap' Han' He'.
      assert (ap' = ap) as -> by congruence.
      assert (an' = an) as -> by congruence.
      split; intros; congruence.
Qed.

Lemma scan_up_spec (s : state) (i : Z) (t t' : thresholds) :
  scan_up s i t = Ok t' ->
  svr_lowered (epsilon s) (errors s) i t t' /\
  forall ap an e,
    getitem (alphas_p s) i = Ok ap -> getitem (alphas_n s) i = Ok an ->
    getitem (errors s) i = Ok e ->
    (inside (C s) ap = true -> t_up t' <= e - epsilon s) /\
    (inside (C s) ap = false -> inside (C s) an = true ->
     t_up t' <= e + epsilon s).
Proof.
  unfold scan_up. intros Hs. inv_bind_as Hs ap Hap.
  destruct (inside (C s) ap) eqn:Ip.
  - inv_bind_as Hs e He.
    destruct (ltb (e - epsilon s) (t_up t)) eqn:Hlt.
    + injection Hs as <-.
      destruct (svr_lowered_lower_up (epsilon s) _ i t e (e - epsilon s) He)
        as [Hr Hle]; [by left|].
      split; [done|]. intros ap' an' e' Hap' Han' He'.
      assert (ap' = ap) as -> by congruence.
      assert (e' = e) as -> by congruence.
      split; [done|]. intros Hf. congruence.
    + apply ltb_ge in Hlt. inv_bind_as Hs an Han.
      destruct (inside (C s) an) eqn:In.
      * inv_bind_as Hs e2 He2. injection Hs as <-.
        assert (e2 = e) as -> by congruence.
        destruct (svr_lowered_lower_up (epsilon s) _ i t e (e + epsilon s) He)
          as [Hr Hle]; [by right|].
        split; [done|]. intros ap' an' e' Hap' Han' He'.
        assert (ap' = ap) as -> by congruence.
        assert (e' = e) as -> by congruence.
        split; [|intros Hf; congruence].
        intros _. destruct Hr as (_ & _ & Hm & _). lra.
      * injection Hs as <-. split; [apply svr_lowered_refl|].
        intros ap' an' e' Hap' Han' He'.
        assert (ap' = ap) as -> by congruence.
        assert (e' = e) as -> by congruence.
        split; [done | intros Hf; congruence].
  - inv_bind_as Hs an Han.
    destruct (inside (C s) an) eqn:In.
    + inv_bind_as Hs e He. injection Hs as <-.
      destruct (svr_lowered_lower_up (epsilon s) _ i t e (e + epsilon s) He)
        as [Hr Hle]; [by right|].
      split; [done|]. intros ap' an' e' Hap' Han' He'.
      assert (ap' = ap) as -> by congruence.
      assert (e' = e) as -> by congruence.
      split; [intros Hf; congruence | done].
    + injection Hs as <-. split; [apply svr_lowered_refl|].
      intros ap' an' e' Hap' Han' He'.
      assert (ap' = ap) as -> by congruence.
      assert (an' = an) as -> by congruence.
      split; intros; congruence.
Qed.

(** What a raise of [b_low] or a lowering of [b_up] keeps. *)
Lemma svr_raised_keeps (s : state) (i : Z) (t t' : thresholds) :
  svr_raised (epsilon s) (errors s) i t t' ->
  (svr_attained (epsilon s) (errors s) t ->
   svr_attained (epsilon s) (errors s) t') /\
  (forall j, svr_bracketed s j t -> svr_bracketed s j t') /\
  t_up t' <= t_up t /\ t_low t <= t_low t'.
Proof.
  intros (R1 & R2 & R3 & R4).
  split; [|split; [|split; [rewrite R1; apply Qle_refl | done]]].
  - intros [Hu Hl]. split; [by rewrite R1, R2|].
    destruct R4 as [[-> ->] | [Hs ->]]; [done | by right].
  - intros j Hb ap an e Hap Han He.
    destruct (Hb ap an e Hap Han He) as [B1 B2]. rewrite R1.
    split; intros; [specialize (B1 ltac:(done)) | specialize (B2 ltac:(done) ltac:(done))]; lra.
Qed.

Lemma svr_lowered_keeps (s : state) (i : Z) (t t' : thresholds) :
  svr_lowered (epsilon s) (errors s) i t t' ->
  (svr_attained (epsilon s) (errors s) t ->
   svr_attained (epsilon s) (errors s) t') /\
  (forall j, svr_bracketed s j t -> svr_bracketed s j t') /\
  t_up t' <= t_up t /\ t_low t <= t_low t'.
Proof.
  intros (R1 & R2 & R3 & R4).
  split; [|split; [|split; [done | rewrite R1; apply Qle_refl]]].
  - intros [Hu Hl]. split; [|by rewrite R1, R2].
    destruct R4 as [[-> ->] | [Hs ->]]; [done | by right].
  - intros j Hb ap an e Hap Han He.
    destruct (Hb ap an e Hap Han He) as [B1 B2]. rewrite R1.
    split; intros; [specialize (B1 ltac:(done)) | specialize (B2 ltac:(done) ltac:(done))]; lra.
Qed.

(** The scan of [I0]. *)
Lemma svr_scan_I0_spec (s : state) (l seen : list Z) (t t' : thresholds) :
  for_each l (fun t i => do t <- scan_low s i t ; scan_up s i t) t = Ok t' ->
  svr_attained (epsilon s) (errors s) t ->
  (forall j, j ∈ seen -> svr_bracketed s j t) ->
  svr_attained (epsilon s) (errors s) t' /\
  (forall j, j ∈ seen ++ l -> svr_bracketed s j t').
Proof.
  revert seen t. induction l as [|i l IH]; intros seen t Hrun Ha Hb;
    simpl in Hrun.
  - injection Hrun as <-. by rewrite app_nil_r.
  - inv_bind_as Hrun t2 Hbody. inv_bind_as Hbody t1 Hlow.
    replace (seen ++ i :: l) with ((seen ++ [i]) ++ l)
      by (by rewrite <- app_assoc).
    destruct (scan_low_spec _ _ _ _ Hlow) as [Hr Hrl].
    destruct (scan_up_spec _ _ _ _ Hbody) as [Hlw Hlu].
    destruct (svr_raised_keeps _ _ _ _ Hr) as (A1 & B1 & _ & M1).
    destruct (svr_lowered_keeps _ _ _ _ Hlw) as (A2 & B2 & M2 & M3).
    eapply IH; [exact Hrun | by auto |].
    intros j Hj. apply elem_of_app in Hj as [Hj | Hj]; [by auto|].
    apply list_elem_of_singleton in Hj as ->.
    intros ap an e Hap Han He.
    destruct (Hrl ap an e Hap Han He) as [Rl1 Rl2].
    destruct (Hlu ap an e Hap Han He) as [Lu1 Lu2].
    split; intros.
    + specialize (Rl1 ltac:(done)). specialize (Lu1 ltac:(done)). lra.
    + specialize (Rl2 ltac:(done) ltac:(done)).
      specialize (Lu2 ltac:(done) ltac:(done)). lra.
Qed.

Lemma svr_rescan_bound_spec (s : state) (i : Z) (t t' : thresholds) :
  rescan_bound s i t = Ok t' ->
  exists t1,
    svr_raised (epsilon s) (errors s) i t t1 /\
    svr_lowered (epsilon s) (errors s) i t1 t'.
Proof.
  unfold rescan_bound. intros Hr.
  destruct (negb _).
  2: { injection Hr as <-. exists t.
       split; [apply svr_raised_refl | apply svr_lowered_refl]. }
  inv_bind_as Hr t1 Hlow. exists t1. split.
  - assert (forall t2,
      (if mem i (I1 s) then
         do e <- getitem (errors s) i ; Ok (raise_low (e - epsilon s) i t)
       else Ok t) = Ok t2 ->
      svr_raised (epsilon s) (errors s) i t t2) as Hother.
    { intros t2 H2. destruct (mem i (I1 s)).
      - inv_bind_as H2 e He. injection H2 as <-.
        by apply (svr_raised_raise_low _ _ _ _ e); [|left].
      - injection H2 as <-. apply svr_raised_refl. }
    destruct (mem i (I2 s)); [|by apply Hother].
    inv_bind_as Hlow e He. destruct (ltb _ _); [|by apply Hother].
    injection Hlow as <-. by apply (svr_raised_raise_low _ _ _ _ e); [|right].
  - assert (forall t2,
      (if mem i (I1 s) then
         do e <- getitem (errors s) i ; Ok (lower_up (e + epsilon s) i t1)
       else Ok t1) = Ok t2 ->
      svr_lowered (epsilon s) (errors s) i t1 t2) as Hother.
    { intros t2 H2. destruct (mem i (I1 s)).
      - inv_bind_as H2 e He. injection H2 as <-.
        by apply (svr_lowered_lower_up _ _ _ _ e); [|right].
      - injection H2 as <-. apply svr_lowered_refl. }
    destruct (mem i (I3 s)); [|by apply Hother].
    inv_bind_as Hr e He. destruct (ltb _ _); [|by apply Hother].
    injection Hr as <-. by apply (svr_lowered_lower_up _ _ _ _ e); [|left].
Qed.

Lemma svr_update_thresholds_spec (s s' : state) (i1 i2 : Z) :
  update_thresholds s i1 i2 = Ok s' ->
  svr_attained (epsilon s) (errors s) (get_thresholds s') /\
  (forall j, mem j (I0 s) = true -> svr_bracketed s j (get_thresholds s')).
Proof.
  unfold update_thresholds. intros Hu.
  inv_bind_as Hu t1 Hscan. inv_bind_as Hu t2 Hr1. inv_bind_as Hu t3 Hr2.
  injection Hu as <-.
  apply (svr_scan_I0_spec _ _ []) in Hscan as [A1 B1].
  2: { split; by left. }
  2: { intros j Hj. by apply elem_of_nil in Hj. }
  simpl in B1.
  destruct (svr_rescan_bound_spec _ _ _ _ Hr1) as (u1 & Ra1 & Lo1).
  destruct (svr_rescan_bound_spec _ _ _ _ Hr2) as (u2 & Ra2 & Lo2).
  destruct (svr_raised_keeps _ _ _ _ Ra1) as (Ka1 & Kb1 & _).
  destruct (svr_lowered_keeps _ _ _ _ Lo1) as (Ka2 & Kb2 & _).
  destruct (svr_raised_keeps _ _ _ _ Ra2) as (Ka3 & Kb3 & _).
  destruct (svr_lowered_keeps _ _ _ _ Lo2) as (Ka4 & Kb4 & _).
  assert (get_thresholds (set_thresholds s t3) = t3) as -> by (by destruct t3).
  split; [by auto|].
  intros j Hj. apply Kb4, Kb3, Kb2, Kb1, B1. by apply mem_members.
Qed.

End RegressionThresholds.

Section RegressionThresholdTheorem.
Import SVR.SMORegression.

(** X16: after a pair update of the regression engine, each threshold is
    the cached error of its index moved by [epsilon] one way or the other,
    each of the two indices is a member of [I0] or one of the pair, and the
    thresholds bracket the free examples: for every member [i] of [I0],
    [b_up <= errors[i] - epsilon <= b_low] when [0 < alphas_p[i] < C], and
    otherwise [b_up <= errors[i] + epsilon <= b_low] when
    [0 < alphas_n[i] < C]. *)
Theorem X16_regression_thresholds_after_step :
  forall (s s' : state) (i1 i2 : Z),
    _take_step s i1 i2 = Ok (true, s') ->
    shifted_by (epsilon s') (errors s') (b_up_idx s') (b_up s') /\
    shifted_by (epsilon s') (errors s') (b_low_idx s') (b_low s') /\
    (mem (b_up_idx s') (I0 s') = true \/ b_up_idx s' = i1 \/ b_up_idx s' = i2) /\
    (mem (b_low_idx s') (I0 s') = true \/ b_low_idx s' = i1
     \/ b_low_idx s' = i2) /\
    (forall i, mem i (I0 s') = true -> svr_bracketed s' i (get_thresholds s')).
Proof.
  intros s s' i1 i2 Hstep.
  apply svr_step_true in Hstep as (p & _ & _ & Hc).
  apply svr_commit_chain in Hc
    as (s2 & s3 & s4 & s5 & a1p & a1n & a2p & a2n & _ & _ & _ & _ & Ht & Nl & Nu).
  pose proof (svr_update_thresholds_spec _ _ _ _ Ht) as [Ha Hb].
  pose proof (svr_update_thresholds_errors _ _ _ _ Ht) as (He & _ & _).
  apply svr_update_thresholds_same in Ht as (D & Hp & Hn & S & Hd).
  destruct D as (_ & _ & _ & _ & HC & Heps & _).
  destruct S as (HI0 & _).
  rewrite He, Heps, HI0.
  destruct Ha as [[? | Ha1] [? | Ha2]]; try done.
  destruct Hd as [[? | Hd1] [? | Hd2]]; try done.
  simpl in Ha1, Ha2, Hd1, Hd2.
  split; [done|]. split; [done|].
  split; [|split].
  - apply elem_of_app in Hd1 as [Hd1 | Hd1].
    + left. by apply mem_members.
    + right. set_solver.
  - apply elem_of_app in Hd2 as [Hd2 | Hd2].
    + left. by apply mem_members.
    + right. set_solver.
  - intros i Hi ap an e Hap Han Hei.
    rewrite Hp in Hap. rewrite Hn in Han. rewrite He in Hei.
    rewrite HC, Heps. by apply (Hb i Hi ap an e).
Qed.

(** The first update on the regression sample: both thresholds are
    [1/10], the error [0] of example [0] plus [epsilon], and bracket the
    two free examples. *)
Lemma X16_regression_thresholds_after_step_witness :
  exists s s',
    (do s0 <- Samples.svr_init ;
     do '(_, s) <- error_of s0 1 ; Ok s) = Ok s /\
    _take_step s 0 1 = Ok (true, s') /\
    b_up_idx s' = 0%Z /\ b_up s' == 1 # 10 /\ b_low s' == 1 # 10 /\
    shifted_by (epsilon s') (errors s') (b_up_idx s') (b_up s') /\
    svr_bracketed s' 1 (get_thresholds s').
Proof.
  eexists. eexists.
  split; [vm_compute; reflexivity|].
  match goal with
  | |- _take_step ?s _ _ = _ /\ _ => set (s1 := s)
  end.
  split; [vm_compute; reflexivity|].
  match goal with
  | |- b_up_idx ?s = _ /\ _ => set (s2 := s)
  end.
  assert (Hstep : _take_step s1 0 1 = Ok (true, s2)) by (vm_compute; reflexivity).
  destruct (X16_regression_thresholds_after_step s1 s2 0%Z 1%Z Hstep)
    as (Hu & _ & _ & _ & Hb).
  split; [reflexivity|]. split; [vm_compute; reflexivity|].
  split; [vm_compute; reflexivity|]. split; [exact Hu|].
  apply Hb. vm_compute; reflexivity.
Defined.

End RegressionThresholdTheorem.
